(** * BFV homomorphic encryption engine: shallow embedding and verification

    The development embeds the pure-Python/NumPy BFV library
    ([polynomial.py], [ciphertext.py], [keys.py], [bfv_scheme.py]) and
    settles the properties of its specification against that code.

    Conventions of the embedding.
    - A NumPy [int64] array is a [list Z]; every arithmetic operation on
      array elements is followed by the two's complement wrap-around
      [wrap64], as NumPy does silently.
    - A Python exception is an [Err] of the error monad [result].
    - The random samplers ([random_ternary], [random_uniform],
      [sample_bounded]) are not run: the drawn polynomials are passed to
      the operation that draws them, in drawing order, and the theorems
      quantify over every draw within the sampler's range.
    - [float64] arithmetic (used by [decrypt] and [multiply]) is modelled
      by IEEE-754 binary64 round-to-nearest-even over exact integers, see
      [Float64].
    - A Python int that meets an [int64] array in an operation (the moduli
      [q] and [t], a scalar) is modelled where NumPy can convert it, that
      is within [int64]; outside, NumPy raises [OverflowError] before
      computing anything.  [np_mod], and the ring operations built on it,
      are the arithmetic on that domain: every theorem that asserts a
      returned value bounds these integers, by [in_range] or by a stronger
      hypothesis.  A list of Python ints turned into an array is checked
      explicitly, see [encode]. *)

From Stdlib Require Import ZArith QArith Lia String.
From stdpp Require Import base list gmap.

Local Open Scope Z_scope.

(** ** Errors *)

Inductive error : Type :=
| ValueError (msg : string)
| IndexError
| ZeroDivisionError
| OverflowError.

Inductive result (A : Type) : Type :=
| Ok (a : A)
| Err (e : error).
Arguments Ok {A} a.
Arguments Err {A} e.

Global Instance result_ret : MRet result := fun A a => Ok a.
Global Instance result_bind : MBind result := fun A B f m =>
  match m with
  | Ok a => f a
  | Err e => Err e
  end.

Definition is_ok {A} (r : result A) : bool :=
  match r with Ok _ => true | Err _ => false end.

(** ** 64-bit integers *)

Module Int64.

Definition min_int : Z := - 2 ^ 63.
Definition max_int : Z := 2 ^ 63 - 1.

(** Two's complement wrap-around of an exact integer into [int64]. *)
Definition wrap64 (z : Z) : Z := (z + 2 ^ 63) mod 2 ^ 64 - 2 ^ 63.

Definition in_range (z : Z) : Prop := min_int <= z <= max_int.

(** Whether a Python int converts to [int64]. *)
Definition fits_int64 (z : Z) : bool := (min_int <=? z) && (z <=? max_int).

(** NumPy's [%] on [int64] with a Python int modulus within [int64]: the
    result has the sign of the divisor; a zero modulus gives 0 (with a
    warning).  For a modulus outside [int64] NumPy raises
    [OverflowError]; the function is used for moduli in [in_range]
    only. *)
Definition np_mod (x m : Z) : Z := if m =? 0 then 0 else x mod m.

End Int64.

(** ** IEEE-754 binary64 *)

Module Float64.

(** A finite binary64 value is [m * 2^e]; only the values that the code
    can produce from [int64] operands are needed, whose exponents stay
    far inside the binary64 range, so the exponent is left unbounded. *)
Inductive float64 : Type :=
| Fin (m e : Z)
| Inf (negative : bool)
| NaN.

(** Quotient [p / d] ([d > 0]) rounded to the nearest integer, ties to
    the even one. *)
Definition rne_div (p d : Z) : Z :=
  let k := p / d in
  let r := p mod d in
  if 2 * r <? d then k
  else if d <? 2 * r then k + 1
  else if Z.even k then k else k + 1.

(** Exponent of the unit in the last place of the positive rational
    [p / d]: the [e] with [2^52 <= (p/d) / 2^e < 2^53]. *)
Definition ulp_exp (p d : Z) : Z :=
  let l := Z.log2 p - Z.log2 d in
  let above :=
    if 0 <=? l then d * 2 ^ l <=? p else d <=? p * 2 ^ (- l) in
  if above then l - 52 else l - 53.

(** Nearest binary64 to the rational [p / d], for [p, d > 0]. *)
Definition round_pos (p d : Z) : Z * Z :=
  let e := ulp_exp p d in
  let m := if 0 <=? e then rne_div p (d * 2 ^ e)
           else rne_div (p * 2 ^ (- e)) d in
  (m, e).

(** Nearest binary64 to the rational [p / d], for [d > 0]. *)
Definition round_rat (p d : Z) : float64 :=
  if p =? 0 then Fin 0 0
  else let '(m, e) := round_pos (Z.abs p) d in Fin (Z.sgn p * m) e.

(** [x.astype(np.float64)], and the conversion of a Python int operand. *)
Definition of_int (x : Z) : float64 := round_rat x 1.

(** [a / b] on binary64. *)
Definition div (a b : float64) : float64 :=
  match a, b with
  | NaN, _ | _, NaN => NaN
  | Inf _, Inf _ => NaN
  | Inf s, Fin m _ => Inf (xorb s (m <? 0))
  | Fin m _, Inf s => Fin 0 0
  | Fin m1 e1, Fin m2 e2 =>
      if m2 =? 0 then
        if m1 =? 0 then NaN else Inf (m1 <? 0)
      else
        let p := m1 * Z.sgn m2 * 2 ^ Z.max (e1 - e2) 0 in
        let d := Z.abs m2 * 2 ^ Z.max (e2 - e1) 0 in
        round_rat p d
  end.

(** [np.round]: to the nearest integral value, ties to even. *)
Definition rint (a : float64) : float64 :=
  match a with
  | Fin m e => if 0 <=? e then Fin m e else Fin (rne_div m (2 ^ (- e))) 0
  | _ => a
  end.

(** [.astype(np.int64)] of an integral binary64: values outside
    [int64], infinities and NaN give [INT64_MIN] (x86-64). *)
Definition to_int64 (a : float64) : Z :=
  match a with
  | Fin m e =>
      let v := m * 2 ^ e in
      if (Int64.min_int <=? v) && (v <=? Int64.max_int) then v
      else Int64.min_int
  | _ => Int64.min_int
  end.

(** [np.round(x.astype(np.float64) / d).astype(np.int64)] for one
    [int64] element [x] and a Python int [d]. *)
Definition np_round_div (x d : Z) : Z :=
  to_int64 (rint (div (of_int x) (of_int d))).

End Float64.

(** ** polynomial.py *)

(** A polynomial is the NumPy array of its coefficients. *)
Abbreviation poly := (list Z).

(** [Σ_{i < n} f i]. *)
Fixpoint sumZ (f : nat -> Z) (n : nat) : Z :=
  match n with
  | O => 0
  | S n' => sumZ f n' + f n'
  end.

(** Coefficient [i] of an array, 0 outside of it. *)
Definition coef (a : poly) (i : nat) : Z := nth i a 0.

(** Coefficient [n] of the product of two polynomials over the integers:
    [Σ_{m <= n} a[m] v[n - m]]. *)
Definition conv_coef (a v : poly) (n : nat) : Z :=
  sumZ (fun m => coef a m * coef v (n - m)) (S n).

(** Sign with which [X^n] ([n <= 2N - 2]) contributes to [X^k] ([k < N])
    modulo [X^N + 1]: [X^(N + k) = - X^k]. *)
Definition fold_sign (n0 n k : nat) : Z :=
  if (n =? k)%nat then 1 else if (n =? k + n0)%nat then -1 else 0.

(** Coefficient [k] of the exact product in [Z[X]/(X^N + 1)] of the
    polynomials with coefficient functions [f] and [g]. *)
Definition negacyclic_fun (n0 : nat) (f g : nat -> Z) (k : nat) : Z :=
  sumZ (fun i => sumZ (fun j => f i * g j * fold_sign n0 (i + j) k) n0) n0.

Definition negacyclic (n0 : nat) (a b : poly) (k : nat) : Z :=
  negacyclic_fun n0 (coef a) (coef b) k.

(** Sign with which [X^n] ([n <= 3N - 3]) contributes to [X^k] ([k < N])
    modulo [X^N + 1]: [X^(2N + k) = X^k]. *)
Definition fold_sign3 (n0 n k : nat) : Z :=
  if (n =? k)%nat then 1
  else if (n =? k + n0)%nat then -1
  else if (n =? k + 2 * n0)%nat then 1 else 0.

(** Coefficient [k] of the exact product of three polynomials in
    [Z[X]/(X^N + 1)]. *)
Definition negacyclic3 (n0 : nat) (f g h : nat -> Z) (k : nat) : Z :=
  sumZ (fun i =>
          sumZ (fun m =>
                  sumZ (fun j => f i * g m * h j * fold_sign3 n0 (i + m + j) k)
                       n0) n0) n0.

Module NumPy.

Import Int64.

(** Element-wise binary operation on two 1-D arrays, with NumPy's
    broadcasting: equal lengths, or one operand of length 1. *)
Definition broadcast (f : Z -> Z -> Z) (a b : poly) : result poly :=
  if (length a =? length b)%nat then Ok (zip_with f a b)
  else match a, b with
       | [x], _ => Ok (map (f x) b)
       | _, [y] => Ok (map (fun x => f x y) a)
       | _, _ => Err (ValueError "operands could not be broadcast together")
       end.

(** [np.convolve(a, v)] in mode 'full' on [int64] arrays: the discrete
    linear convolution [(a * v)[n] = Σ_m a[m] v[n - m]], of length
    [len(a) + len(v) - 1], computed in wrapping 64-bit arithmetic (the
    wrap of the exact sum, since wrapping commutes with [+] and [*]). *)
Definition convolve (a v : poly) : result poly :=
  match a, v with
  | [], _ => Err (ValueError "a cannot be empty")
  | _, [] => Err (ValueError "v cannot be empty")
  | _, _ =>
      Ok (map (fun n => wrap64 (conv_coef a v n))
              (seq 0 (length a + length v - 1)))
  end.

(** [np.roll(a, shift)] of a one-dimensional array: the element at
    index [i] moves to index [(i + shift) mod n]. *)
Definition roll (a : poly) (shift : Z) : poly :=
  let n := length a in
  map (fun i => coef a (Z.to_nat ((Z.of_nat i - shift) mod Z.of_nat n)))
    (seq 0 n).

End NumPy.

Module PolynomialRing.

Import Int64.

(** The ring [Z_q[X]/(X^N + 1)]. *)
Record ring : Type := { N : nat; q : Z }.

(** [__init__]: [N & (N - 1) != 0] is rejected. *)
Definition init (n : nat) (q0 : Z) : result ring :=
  if Z.land (Z.of_nat n) (Z.of_nat n - 1) =? 0
  then Ok {| N := n; q := q0 |}
  else Err (ValueError "N must be a power of 2").

(** [(a + b) % q]. *)
Definition add (R : ring) (a b : poly) : result poly :=
  NumPy.broadcast (fun x y => np_mod (wrap64 (x + y)) (q R)) a b.

(** [(a - b) % q]. *)
Definition sub (R : ring) (a b : poly) : result poly :=
  NumPy.broadcast (fun x y => np_mod (wrap64 (x - y)) (q R)) a b.

(** [(a * scalar) % q], for a scalar within [int64]. *)
Definition mul_scalar (R : ring) (a : poly) (scalar : Z) : poly :=
  map (fun x => np_mod (wrap64 (x * scalar)) (q R)) a.

(** One iteration of the reduction loop of [mul]:
    [result[i] += conv[i]] if [i < N], else [result[i - N] -= conv[i]]. *)
Definition reduce_step (R : ring) (acc : result poly) (ic : nat * Z)
  : result poly :=
  res ← acc;
  let '(i, c) := ic in
  if (i <? N R)%nat then
    match res !! i with
    | Some x => Ok (<[i := wrap64 (x + c)]> res)
    | None => Err IndexError
    end
  else
    match res !! (i - N R)%nat with
    | Some x => Ok (<[(i - N R)%nat := wrap64 (x - c)]> res)
    | None => Err IndexError
    end.

(** The loop [for i in range(len(conv))] over [result = np.zeros(N)]. *)
Definition reduce (R : ring) (conv : poly) : result poly :=
  fold_left (reduce_step R) (zip (seq 0 (length conv)) conv)
            (Ok (replicate (N R) 0)).

(** Closed form of [reduce]: entry [k] holds [conv[k] - conv[k + N]]
    (absent entries count as 0). *)
Definition folded (R : ring) (p : poly) : poly :=
  map (fun k => wrap64 (coef p k - coef p (k + N R))) (seq 0 (N R)).

(** [mul]: convolution, reduction modulo [X^N + 1], then [% q]. *)
Definition mul (R : ring) (a b : poly) : result poly :=
  conv ← NumPy.convolve a b;
  res ← reduce R conv;
  Ok (map (fun x => np_mod x (q R)) res).

(** [(-a) % q]. *)
Definition neg (R : ring) (a : poly) : poly :=
  map (fun x => np_mod (wrap64 (- x)) (q R)) a.

(** [mod_center]: [result[result > q // 2] -= q], for [q] within
    [int64] (the in-place subtraction converts [q], whatever the mask). *)
Definition mod_center (R : ring) (a : poly) : poly :=
  let half_q := q R / 2 in
  map (fun x => if half_q <? x then wrap64 (x - q R) else x) a.

(** Ranges of the samplers' outcomes. *)
Definition is_uniform (R : ring) (a : poly) : Prop :=
  length a = N R /\ Forall (fun x => 0 <= x < q R) a.

Definition is_ternary (R : ring) (a : poly) : Prop :=
  length a = N R /\ Forall (fun x => -1 <= x <= 1) a.

End PolynomialRing.

Module DiscreteGaussian.

(** [sample_bounded(bound)] clips every coefficient to
    [[-bound, bound]]; an outcome is any such array of length [N]. *)
Definition is_bounded (n : nat) (bound : Z) (e : poly) : Prop :=
  length e = n /\ Forall (fun x => - bound <= x <= bound) e.

End DiscreteGaussian.

(** ** keys.py *)

Record PublicKey : Type := { pk0 : poly; pk1 : poly }.
Record SecretKey : Type := { s : poly }.
Record RelinearizationKey : Type := { evk : list (poly * poly) }.

(** [RotationKey]: a dictionary from rotation amounts to key pairs. *)
Record RotationKey : Type := { keys : gmap Z (poly * poly) }.

(** [get_key]: [self.keys.get(rotation, None)]. *)
Definition get_key (rk : RotationKey) (rotation : Z) : option (poly * poly) :=
  keys rk !! rotation.

(** [has_rotation]: [rotation in self.keys]. *)
Definition has_rotation (rk : RotationKey) (rotation : Z) : bool :=
  bool_decide (is_Some (keys rk !! rotation)).

(** ** ciphertext.py *)

(** The [params] dictionary [{'N': .., 't': .., 'q': ..}]. *)
Record param_set : Type := { param_N : nat; param_t : Z; param_q : Z }.

Module Plaintext.

Record plaintext : Type := { poly : list Z; params : option param_set }.

Definition get_poly (p : plaintext) : list Z := poly p.

End Plaintext.

Module Ciphertext.

Record ciphertext : Type :=
  { components : list poly; params : option param_set; size : nat }.

(** [__init__]: [self.size = len(components)]. *)
Definition init (comps : list poly) (ps : option param_set) : ciphertext :=
  {| components := comps; params := ps; size := length comps |}.

Definition get_components (ct : ciphertext) : list poly := components ct.

(** [is_fresh]: [self.size == 2]. *)
Definition is_fresh (ct : ciphertext) : bool := (size ct =? 2)%nat.

End Ciphertext.

(** ** bfv_scheme.py *)

Module BFVScheme.

Import Int64.

Record scheme : Type :=
  { N : nat;
    t : Z;
    q : Z;
    sigma : Q;
    poly_ring : PolynomialRing.ring;
    delta : Z;
    secret_key : option SecretKey;
    public_key : option PublicKey;
    relin_key : option RelinearizationKey;
    n_slots : nat }.

(** [__init__(N, t, q_bits, sigma)]. *)
Definition init (n : nat) (t0 : Z) (q_bits : nat) (sigma0 : Q)
  : result scheme :=
  let q0 := 2 ^ Z.of_nat q_bits - 1 in
  ring ← PolynomialRing.init n q0;
  if t0 =? 0 then Err ZeroDivisionError
  else Ok {| N := n; t := t0; q := q0; sigma := sigma0;
             poly_ring := ring;
             delta := q0 / t0;
             secret_key := None; public_key := None; relin_key := None;
             n_slots := (n / 2)%nat |}.

(** The dictionary every operation of the scheme attaches to its output. *)
Definition scheme_params (sch : scheme) : option param_set :=
  Some {| param_N := N sch; param_t := t sch; param_q := q sch |}.

(** [int(self.sigma)]: truncation towards zero. *)
Definition int_sigma (sch : scheme) : Z :=
  Z.quot (Qnum (sigma sch)) (Z.pos (Qden (sigma sch))).

(** [bound = 6 * int(self.sigma)], the clipping bound of every error. *)
Definition noise_bound (sch : scheme) : Z := 6 * int_sigma sch.

(** [key_generation]; the draws are [s0] ([random_ternary]), [a]
    ([random_uniform]) and [e] ([sample_bounded]). *)
Definition key_generation (sch : scheme) (s0 a e : poly) : result scheme :=
  let R := poly_ring sch in
  a_s ← PolynomialRing.mul R a s0;
  a_s_e ← PolynomialRing.add R a_s e;
  let b := PolynomialRing.neg R a_s_e in
  Ok {| N := N sch; t := t sch; q := q sch; sigma := sigma sch;
        poly_ring := R; delta := delta sch;
        secret_key := Some {| s := s0 |};
        public_key := Some {| pk0 := b; pk1 := a |};
        relin_key := relin_key sch;
        n_slots := n_slots sch |}.

(** The rotations [generate_rotation_keys] uses when none are given:
    the powers of two up to 1024 that are below [N]. *)
Definition default_rotations (sch : scheme) : list Z :=
  filter (fun r => r < Z.of_nat (N sch))
    [1; 2; 4; 8; 16; 32; 64; 128; 256; 512; 1024].

(** The rotations [generate_rotation_keys] loops over. *)
Definition rotation_list (sch : scheme) (rotations : option (list Z))
  : list Z :=
  match rotations with
  | None => default_rotations sch
  | Some l => l
  end.

(** One iteration of the loop of [generate_rotation_keys]: the pair
    stored for [rot], from the draws [a] ([random_uniform]) and [e]
    ([sample_bounded]). *)
Definition rotation_key_pair (sch : scheme) (s0 : poly) (rot : Z)
  (a e : poly) : result (poly * poly) :=
  let R := poly_ring sch in
  let s_rotated := NumPy.roll s0 rot in
  a_s ← PolynomialRing.mul R a s0;
  a_s_e ← PolynomialRing.add R a_s e;
  b ← PolynomialRing.add R (PolynomialRing.neg R a_s_e) s_rotated;
  Ok (b, a).

(** The loop of [generate_rotation_keys] from iteration [i] on;
    [draws j] are the two draws of iteration [j]. *)
Fixpoint rotation_loop (sch : scheme) (s0 : poly)
  (draws : nat -> poly * poly) (i : nat) (rotations : list Z)
  (rotation_keys_dict : gmap Z (poly * poly))
  : result (gmap Z (poly * poly)) :=
  match rotations with
  | [] => Ok rotation_keys_dict
  | rot :: rest =>
      pair ← rotation_key_pair sch s0 rot (fst (draws i)) (snd (draws i));
      rotation_loop sch s0 draws (S i) rest
        (<[rot := pair]> rotation_keys_dict)
  end.

(** [generate_rotation_keys]; the value is the [RotationKey] the method
    returns, which is also the one it stores in [self.rotation_keys] (an
    attribute no other method reads). *)
Definition generate_rotation_keys (sch : scheme)
  (rotations : option (list Z)) (draws : nat -> poly * poly)
  : result RotationKey :=
  match secret_key sch with
  | None => Err (ValueError "Must generate keys first")
  | Some sk =>
      let rotations := rotation_list sch rotations in
      rotation_keys_dict ← rotation_loop sch (s sk) draws 0 rotations ∅;
      Ok {| keys := rotation_keys_dict |}
  end.

(** [generate_relin_key]; the draws are [a_prime] ([random_uniform]) and
    [e_prime] ([sample_bounded]). *)
Definition generate_relin_key (sch : scheme) (a_prime e_prime : poly)
  : result scheme :=
  match secret_key sch with
  | None => Err (ValueError "Must generate keys first")
  | Some sk =>
      let R := poly_ring sch in
      let s0 := s sk in
      s_squared ← PolynomialRing.mul R s0 s0;
      a_s ← PolynomialRing.mul R a_prime s0;
      a_s_e ← PolynomialRing.add R a_s e_prime;
      b_prime ← PolynomialRing.add R (PolynomialRing.neg R a_s_e) s_squared;
      Ok {| N := N sch; t := t sch; q := q sch; sigma := sigma sch;
            poly_ring := R; delta := delta sch;
            secret_key := secret_key sch;
            public_key := public_key sch;
            relin_key := Some {| evk := [(b_prime, a_prime)] |};
            n_slots := n_slots sch |}
  end.

(** The argument of [encode]: an integer or an array of integers. *)
Inductive values : Type :=
| VInt (v : Z)
| VArray (vs : list Z).

(** [encode].  In the array branch [np.array(values, dtype=np.int64)]
    raises [OverflowError] on a value outside [int64], before the length
    is looked at. *)
Definition encode (sch : scheme) (vals : values)
  : result Plaintext.plaintext :=
  let zeros := replicate (N sch) 0 in
  match vals with
  | VInt v =>
      if t sch =? 0 then Err ZeroDivisionError
      else
        match zeros with
        | [] => Err IndexError
        | _ :: rest =>
            Ok {| Plaintext.poly := v mod t sch :: rest;
                  Plaintext.params := scheme_params sch |}
        end
  | VArray vs =>
      if negb (forallb fits_int64 vs) then Err OverflowError
      else if (n_slots sch <? length vs)%nat
      then Err (ValueError "Too many values for slots")
      else
        Ok {| Plaintext.poly :=
                map (fun x => np_mod x (t sch)) vs
                ++ drop (length vs) zeros;
              Plaintext.params := scheme_params sch |}
  end.

(** The value of [decode]: an integer when [num_values == 1], else the
    slice [poly_centered[:num_values]]. *)
Inductive decoded : Type :=
| DInt (v : Z)
| DArray (vs : list Z).

(** [decode]. *)
Definition decode (sch : scheme) (pt : Plaintext.plaintext)
  (num_values : nat) : result decoded :=
  let p := Plaintext.get_poly pt in
  let poly_centered :=
    PolynomialRing.mod_center (poly_ring sch)
      (map (fun x => np_mod x (t sch)) p) in
  if (num_values =? 1)%nat then
    match poly_centered with
    | [] => Err IndexError
    | v :: _ => Ok (DInt v)
    end
  else Ok (DArray (take num_values poly_centered)).

(** [encrypt]; the draws are [u] ([random_ternary]) and [e1], [e2]
    ([sample_bounded]). *)
Definition encrypt (sch : scheme) (pt : Plaintext.plaintext)
  (u e1 e2 : poly) : result Ciphertext.ciphertext :=
  match public_key sch with
  | None => Err (ValueError "Must generate keys first")
  | Some pk =>
      let R := poly_ring sch in
      let m := Plaintext.get_poly pt in
      let scaled_m := PolynomialRing.mul_scalar R m (delta sch) in
      pk0_u ← PolynomialRing.mul R (pk0 pk) u;
      c0 ← PolynomialRing.add R pk0_u e1;
      c0 ← PolynomialRing.add R c0 scaled_m;
      pk1_u ← PolynomialRing.mul R (pk1 pk) u;
      c1 ← PolynomialRing.add R pk1_u e2;
      Ok (Ciphertext.init [c0; c1] (scheme_params sch))
  end.

(** [np.round(x.astype(np.float64) / d).astype(np.int64)] on an array. *)
Definition round_div (a : poly) (d : Z) : poly :=
  map (fun x => Float64.np_round_div x d) a.

(** [decrypt]. *)
Definition decrypt (sch : scheme) (ct : Ciphertext.ciphertext)
  : result Plaintext.plaintext :=
  match secret_key sch with
  | None => Err (ValueError "Must generate keys first")
  | Some sk =>
      let R := poly_ring sch in
      match Ciphertext.get_components ct with
      | [c0; c1] =>
          c1_s ← PolynomialRing.mul R c1 (s sk);
          noisy_m ← PolynomialRing.add R c0 c1_s;
          let scaled_down := round_div noisy_m (delta sch) in
          let m_recovered := map (fun x => np_mod x (t sch)) scaled_down in
          Ok {| Plaintext.poly := m_recovered;
                Plaintext.params := scheme_params sch |}
      | _ =>
          Err (ValueError
                 "Can only decrypt size-2 ciphertexts. Use relinearization first.")
      end
  end.

(** The loop of [add] and [sub] over [range(max_size)]; [both] combines
    two components, [only2] is applied to a component of [ct2] that has
    no counterpart in [ct1] (a copy for [add], [neg] for [sub]). *)
Definition combine_components
  (both : poly -> poly -> result poly) (only2 : poly -> poly)
  (c1_components c2_components : list poly) : result (list poly) :=
  let max_size := Nat.max (length c1_components) (length c2_components) in
  mapM (fun i =>
          match c1_components !! i, c2_components !! i with
          | Some a, Some b => both a b
          | Some a, None => Ok a
          | None, Some b => Ok (only2 b)
          | None, None => Err IndexError
          end)
       (seq 0 max_size).

(** [add]. *)
Definition add (sch : scheme) (ct1 ct2 : Ciphertext.ciphertext)
  : result Ciphertext.ciphertext :=
  result_components ←
    combine_components (PolynomialRing.add (poly_ring sch)) id
      (Ciphertext.get_components ct1) (Ciphertext.get_components ct2);
  Ok (Ciphertext.init result_components (Ciphertext.params ct1)).

(** [sub]. *)
Definition sub (sch : scheme) (ct1 ct2 : Ciphertext.ciphertext)
  : result Ciphertext.ciphertext :=
  result_components ←
    combine_components (PolynomialRing.sub (poly_ring sch))
      (PolynomialRing.neg (poly_ring sch))
      (Ciphertext.get_components ct1) (Ciphertext.get_components ct2);
  Ok (Ciphertext.init result_components (Ciphertext.params ct1)).

(** The scale correction of [multiply]:
    [np.round(d.astype(np.float64) / self.t).astype(np.int64) % self.q]. *)
Definition scale_correct (sch : scheme) (d : poly) : poly :=
  map (fun x => np_mod x (q sch)) (round_div d (t sch)).

(** [multiply_plain]. *)
Definition multiply_plain (sch : scheme) (ct : Ciphertext.ciphertext)
  (pt : Plaintext.plaintext) : result Ciphertext.ciphertext :=
  let pt_poly := Plaintext.get_poly pt in
  new_components ←
    mapM (fun ct_comp => PolynomialRing.mul (poly_ring sch) ct_comp pt_poly)
         (Ciphertext.get_components ct);
  Ok (Ciphertext.init new_components (Ciphertext.params ct)).

(** [negate]. *)
Definition negate (sch : scheme) (ct : Ciphertext.ciphertext)
  : Ciphertext.ciphertext :=
  Ciphertext.init
    (map (PolynomialRing.neg (poly_ring sch)) (Ciphertext.get_components ct))
    (Ciphertext.params ct).

(** [get_n_slots]. *)
Definition get_n_slots (sch : scheme) : nat := n_slots sch.

(** [multiply]. *)
Definition multiply (sch : scheme) (ct1 ct2 : Ciphertext.ciphertext)
  : result Ciphertext.ciphertext :=
  if negb (Ciphertext.is_fresh ct1) || negb (Ciphertext.is_fresh ct2)
  then Err (ValueError "Can only multiply fresh ciphertexts (size 2)")
  else
    match Ciphertext.get_components ct1, Ciphertext.get_components ct2 with
    | [c1_0; c1_1], [c2_0; c2_1] =>
        let R := poly_ring sch in
        d0 ← PolynomialRing.mul R c1_0 c2_0;
        d1_part1 ← PolynomialRing.mul R c1_0 c2_1;
        d1_part2 ← PolynomialRing.mul R c1_1 c2_0;
        d1 ← PolynomialRing.add R d1_part1 d1_part2;
        d2 ← PolynomialRing.mul R c1_1 c2_1;
        Ok (Ciphertext.init
              [scale_correct sch d0; scale_correct sch d1;
               scale_correct sch d2]
              (Ciphertext.params ct1))
    | _, _ => Err (ValueError "too many values to unpack")
    end.

(** [relinearize]. *)
Definition relinearize (sch : scheme) (ct : Ciphertext.ciphertext)
  : result Ciphertext.ciphertext :=
  match relin_key sch with
  | None => Err (ValueError "Must generate relinearization key first")
  | Some rk =>
      if negb (Ciphertext.size ct =? 3)%nat then Ok ct
      else
        match Ciphertext.get_components ct with
        | [c0; c1; c2] =>
            match evk rk with
            | [] => Err IndexError
            | (evk_b, evk_a) :: _ =>
                let R := poly_ring sch in
                c2_b ← PolynomialRing.mul R c2 evk_b;
                new_c0 ← PolynomialRing.add R c0 c2_b;
                c2_a ← PolynomialRing.mul R c2 evk_a;
                new_c1 ← PolynomialRing.add R c1 c2_a;
                Ok (Ciphertext.init [new_c0; new_c1] (Ciphertext.params ct))
            end
        | _ => Err (ValueError "too many values to unpack")
        end
  end.

End BFVScheme.

(** ** Well-formed instances and values *)

Section WellFormed.

Import BFVScheme.

(** Consistency of the fields of a scheme instance; [init] establishes
    it and key generation keeps it. *)
Definition scheme_inv (sch : scheme) : Prop :=
  PolynomialRing.N (poly_ring sch) = N sch
  /\ PolynomialRing.q (poly_ring sch) = q sch
  /\ delta sch = q sch / t sch.

(** A polynomial of the scheme has [N] coefficients. *)
Definition is_poly (sch : scheme) (a : poly) : Prop := length a = N sch.

(** A ciphertext as the constructor builds it, over polynomials of the
    scheme. *)
Definition wf_ciphertext (sch : scheme) (ct : Ciphertext.ciphertext) : Prop :=
  Ciphertext.size ct = length (Ciphertext.components ct)
  /\ Forall (is_poly sch) (Ciphertext.components ct).

(** A polynomial of the scheme in canonical form: coefficients in
    [[0, q)]. *)
Definition canonical (sch : scheme) (a : poly) : Prop :=
  length a = N sch /\ Forall (fun x => 0 <= x < q sch) a.

(** A polynomial of the scheme with coefficients of absolute value at most
    [bound]: [bound = 1] for [random_ternary], [bound = noise_bound] for
    [sample_bounded]. *)
Definition small (sch : scheme) (bound : Z) (a : poly) : Prop :=
  length a = N sch /\ Forall (fun x => - bound <= x <= bound) a.

(** The canonical polynomial [c] represents the coefficient function [f]
    modulo [q]. *)
Definition represents (sch : scheme) (c : poly) (f : nat -> Z) : Prop :=
  canonical sch c
  /\ forall k, (k < N sch)%nat -> coef c k mod q sch = f k mod q sch.

(** The ciphertext invariant: [ct = (c0, c1)] is canonical and
    [c0 + c1 s = delta m + e (mod q)] coefficient by coefficient, for a
    plaintext [m] in [[0, t)] and a noise [e] of absolute value at most
    [E]. *)
Definition decrypts_to (sch : scheme) (s0 : poly)
  (ct : Ciphertext.ciphertext) (m : nat -> Z) (E : Z) : Prop :=
  exists c0 c1,
    Ciphertext.components ct = [c0; c1]
    /\ canonical sch c0 /\ canonical sch c1
    /\ forall k, (k < N sch)%nat ->
         0 <= m k < t sch
         /\ exists e, Z.abs e <= E
              /\ (coef c0 k + negacyclic (N sch) c1 s0 k) mod q sch
                 = (delta sch * m k + e) mod q sch.

(** The instance [sch] after [key_generation] stored a key pair. *)
Definition with_keys (sch : scheme) (sk : SecretKey) (pk : PublicKey)
  : scheme :=
  {| N := N sch; t := t sch; q := q sch; sigma := sigma sch;
     poly_ring := poly_ring sch; delta := delta sch;
     secret_key := Some sk; public_key := Some pk;
     relin_key := relin_key sch; n_slots := n_slots sch |}.

(** Parameters under which the arithmetic of the code is exact: the
    64-bit ring product by a ternary polynomial does not overflow
    ([N q <= 2^63]) and binary64 represents every coefficient
    ([q < 2^53]). *)
Definition exact_params (sch : scheme) : Prop :=
  scheme_inv sch /\ (0 < N sch)%nat /\ 0 < t sch /\ 0 < q sch < 2 ^ 53
  /\ Z.of_nat (N sch) * q sch <= 2 ^ 63 /\ 0 <= noise_bound sch.

(** Largest noise of a fresh ciphertext: [|e1 - e u + e2 s|] with errors
    clipped to [noise_bound] and ternary [u], [s]. *)
Definition fresh_noise (sch : scheme) : Z :=
  noise_bound sch * (2 * Z.of_nat (N sch) + 1).

(** Outcomes of the three draws of [key_generation]. *)
Definition key_draws (sch : scheme) (s0 a e : poly) : Prop :=
  small sch 1 s0 /\ canonical sch a /\ small sch (noise_bound sch) e.

(** Outcomes of the three draws of [encrypt]. *)
Definition encrypt_draws (sch : scheme) (u e1 e2 : poly) : Prop :=
  small sch 1 u /\ small sch (noise_bound sch) e1
  /\ small sch (noise_bound sch) e2.

(** A plaintext of the scheme: [N] coefficients in [[0, t)]. *)
Definition is_plaintext (sch : scheme) (p : poly) : Prop :=
  length p = N sch /\ Forall (fun x => 0 <= x < t sch) p.

(** The instance [sch] after [generate_relin_key] stored a key. *)
Definition with_relin_key (sch : scheme) (rk : RelinearizationKey) : scheme :=
  {| N := N sch; t := t sch; q := q sch; sigma := sigma sch;
     poly_ring := poly_ring sch; delta := delta sch;
     secret_key := secret_key sch; public_key := public_key sch;
     relin_key := Some rk; n_slots := n_slots sch |}.


End WellFormed.

(** ** Concrete instances used in examples *)

(** ** Formulas of the specification

    The two rounding formulas of the specification, stated in its words,
    to be compared with what [decrypt] and [multiply] compute. *)

Module Spec.

(** [center_mod(x)] returns [x] if [x <= q/2], else [x - q]. *)
Definition center_mod (q x : Z) : Z := if 2 * x <=? q then x else x - q.

(** Rounding to nearest in integer arithmetic:
    [round(a/b) = (a + b/2) / b] for positive [a], with sign handling. *)
Definition round (a b : Z) : Z :=
  if 0 <=? a then (a + b / 2) / b else - ((- a + b / 2) / b).

(** The decryption rounding: [w = round(t * center_mod(v) / q) mod t]. *)
Definition decrypt_rounding (q t v : Z) : Z :=
  round (t * center_mod q v) q mod t.

(** The scale correction of [multiply]: [e <- round(t * e / q) mod q]. *)
Definition scale_correction (q t e : Z) : Z := round (t * e) q mod q.

(** The tensor components [c0 d0], [c0 d1 + c1 d0], [c1 d1], with the
    products taken over the integers, each followed by the scale
    correction. *)
Definition multiply (n : nat) (q t : Z) (c0 c1 d0 d1 : poly) : list poly :=
  map (fun e => map (fun k => scale_correction q t (e k)) (seq 0 n))
    [negacyclic n c0 d0;
     (fun k => negacyclic n c0 d1 k + negacyclic n c1 d0 k);
     negacyclic n c1 d1].

End Spec.

Module Examples.

Import BFVScheme.

(** [BFVScheme(N=2, t=65537, q_bits=20)] after [key_generation] drew
    [s = [1, -1]], [a = [123456, 7890]], [e = [3, -2]]. *)
Definition toy : scheme :=
  {| N := 2; t := 65537; q := 1048575; sigma := 16 # 5;
     poly_ring := {| PolynomialRing.N := 2; PolynomialRing.q := 1048575 |};
     delta := 15;
     secret_key := Some {| s := [1; -1] |};
     public_key := Some {| pk0 := [917226; 115568]; pk1 := [123456; 7890] |};
     relin_key := None;
     n_slots := 1 |}.

(** The same instance after [generate_relin_key] drew
    [a' = [5; 6]], [e' = [1; 0]]. *)
Definition toy_relin : scheme :=
  {| N := 2; t := 65537; q := 1048575; sigma := 16 # 5;
     poly_ring := {| PolynomialRing.N := 2; PolynomialRing.q := 1048575 |};
     delta := 15;
     secret_key := Some {| s := [1; -1] |};
     public_key := Some {| pk0 := [917226; 115568]; pk1 := [123456; 7890] |};
     relin_key := Some {| evk := [([1048563; 1048572], [5; 6])] |};
     n_slots := 1 |}.

Definition toy_params : option param_set :=
  Some {| param_N := 2; param_t := 65537; param_q := 1048575 |}.

(** Parameters of another instance, [BFVScheme(N=2, t=257, q_bits=30)]. *)
Definition other_params : option param_set :=
  Some {| param_N := 2; param_t := 257; param_q := 1073741823 |}.

Definition ct_a : Ciphertext.ciphertext :=
  Ciphertext.init [[10; 20]; [30; 40]] toy_params.
Definition ct_b : Ciphertext.ciphertext :=
  Ciphertext.init [[1; 2]; [3; 4]] other_params.
Definition ct_size3 : Ciphertext.ciphertext :=
  Ciphertext.init [[10; 20]; [30; 40]; [50; 60]] toy_params.
Definition ct_size4 : Ciphertext.ciphertext :=
  Ciphertext.init [[10; 20]; [30; 40]; [50; 60]; [70; 80]] toy_params.

(** [BFVScheme(N=4, t=65537, q_bits=50)], no key generated. *)
Definition wide : scheme :=
  {| N := 4; t := 65537; q := 2 ^ 50 - 1; sigma := 16 # 5;
     poly_ring := {| PolynomialRing.N := 4; PolynomialRing.q := 2 ^ 50 - 1 |};
     delta := (2 ^ 50 - 1) / 65537;
     secret_key := None; public_key := None; relin_key := None;
     n_slots := 2 |}.

(** [wide] after [key_generation] drew [s = [1, 0, -1, 1]],
    [a = [123456789, 987654321, 5, 2^49]], [e = [3, -18, 0, 7]]. *)
Definition wide_keys : scheme :=
  with_keys wide {| s := [1; 0; -1; 1] |}
    {| pk0 := [864197524; 562948965767013; 562950076878096; 562950817618836];
       pk1 := [123456789; 987654321; 5; 2 ^ 49] |}.

(** A ciphertext of [wide] made by hand:
    [c0 = [42 delta + 5, 7 delta - 3, 0, 0]], [c1 = 0]. *)
Definition ct_noisy : Ciphertext.ciphertext :=
  Ciphertext.init [[721543495811; 120257249298; 0; 0]; [0; 0; 0; 0]]
    (scheme_params wide).

(** A ciphertext of [toy] with larger coefficients. *)
Definition ct_large : Ciphertext.ciphertext :=
  Ciphertext.init [[2000; 4000]; [30; 40]] toy_params.

(** The ring of [BFVScheme(N=2, t=65537, q_bits=50)]. *)
Definition ring50 : PolynomialRing.ring :=
  {| PolynomialRing.N := 2; PolynomialRing.q := 2 ^ 50 - 1 |}.

(** [wide_keys] after [generate_relin_key] drew
    [a' = [5, 6, 2^49, 0]], [e' = [1, 0, -18, 18]]. *)
Definition wide_relin : scheme :=
  with_relin_key wide_keys
    {| evk := [([562949953421311; 562949953421308; 562949953421331;
                 1125899906842608],
                [5; 6; 2 ^ 49; 0])] |}.

(** Encryptions of 12 and of 8 under [wide_relin], with the draws
    [u = [0, 1, -1, 1]], [e1 = [18, -18, 5, 0]], [e2 = [-1, 2, -3, 4]]
    and [u = [1, 1, 0, -1]], [e1 = [-18, 18, 0, 1]],
    [e2 = [4, -3, 2, -1]]. *)
Definition ct_twelve : Ciphertext.ciphertext :=
  Ciphertext.init
    [[563156355619404; 1604938246; 1125897190793281; 1975308607];
     [562948965766994; 562950076878098; 562950817618840; 1125899042645100]]
    (scheme_params wide).
Definition ct_eight : Ciphertext.ciphertext :=
  Ciphertext.init
    [[136449202027; 28; 562949953421322; 123456786];
     [562951064532425; 1111111112; 562950941075640; 562949829964527]]
    (scheme_params wide).

(** Draws for the loop of [generate_rotation_keys]: the same pair at
    every iteration. *)
Definition rot_draws : nat -> poly * poly :=
  fun _ => ([5; 6; 2 ^ 49; 0], [1; 0; -18; 18]).

End Examples.

(** ** fhe_custom_exact_match.py *)

Module ExactMatch.

(** A Python [str] is the list of its code points; [bytes] is a list of
    integers in [[0, 256)]. *)
(** UTF-8 encoding of one code point; surrogates cannot be encoded. *)
Definition utf8_encode_char (cp : Z) : option (list Z) :=
  if cp <? 0 then None
  else if cp <? 128 then Some [cp]
  else if cp <? 2048 then
    Some [Z.lor 192 (Z.shiftr cp 6); Z.lor 128 (Z.land cp 63)]
  else if cp <? 65536 then
    if (55296 <=? cp) && (cp <=? 57343) then None
    else Some [Z.lor 224 (Z.shiftr cp 12);
               Z.lor 128 (Z.land (Z.shiftr cp 6) 63);
               Z.lor 128 (Z.land cp 63)]
  else if cp <? 1114112 then
    Some [Z.lor 240 (Z.shiftr cp 18);
          Z.lor 128 (Z.land (Z.shiftr cp 12) 63);
          Z.lor 128 (Z.land (Z.shiftr cp 6) 63);
          Z.lor 128 (Z.land cp 63)]
  else None.

(** [s.encode('utf-8')]. *)
Fixpoint utf8_encode (str : list Z) : option (list Z) :=
  match str with
  | [] => Some []
  | cp :: rest =>
      match utf8_encode_char cp, utf8_encode rest with
      | Some bs, Some bs' => Some (bs ++ bs')
      | _, _ => None
      end
  end.

(** [string_to_ints(s, max_len)]: the UTF-8 bytes, truncated or padded
    with zero bytes to [max_len]. *)
Definition string_to_ints (str : list Z) (max_len : nat) : option (list Z) :=
  match utf8_encode str with
  | None => None
  | Some bytes_data =>
      if (max_len <? length bytes_data)%nat
      then Some (take max_len bytes_data)
      else Some (bytes_data ++ replicate (max_len - length bytes_data) 0)
  end.

(** [ints_to_string(ints)]: stops at the first zero; a value that [chr]
    rejects becomes ['?']. *)
Fixpoint ints_to_string (ints : list Z) : list Z :=
  match ints with
  | [] => []
  | val :: rest =>
      if val =? 0 then []
      else (if (0 <=? val) && (val <? 1114112) then val else 63)
           :: ints_to_string rest
  end.

(** The text of a [decode] result, as [decrypt_results] reads it:
    [ints_to_string] iterates over the returned array. *)
Definition decoded_to_string (d : BFVScheme.decoded) : option (list Z) :=
  match d with
  | BFVScheme.DArray vs => Some (ints_to_string vs)
  | BFVScheme.DInt _ => None
  end.

End ExactMatch.

(** ** Predicates on texts and rotation keys *)

Section KeyRelations.

Import BFVScheme.

(** ASCII text without NUL. *)
Definition ascii_text (str : list Z) : Prop :=
  Forall (fun c => 0 < c < 128) str.

(** The relation a rotation key pair [(b, a)] for [rot] satisfies with
    the error [e]: [b + a s + e = roll(s, rot) (mod q)]. *)
Definition rotation_relation (sch : scheme) (s0 : poly) (rot : Z)
  (b a e : poly) : Prop :=
  canonical sch b
  /\ forall k, (k < N sch)%nat ->
       (coef b k + negacyclic (N sch) a s0 k + coef e k) mod q sch
       = coef (NumPy.roll s0 rot) k mod q sch.

End KeyRelations.

(** * Verification *)

(** ** The error monad *)

Lemma bind_Ok {A B} (f : A -> result B) (a : A) : (Ok a ≫= f) = f a.
Proof. reflexivity. Qed.

Lemma bind_Err {A B} (f : A -> result B) (e : error) : (Err e ≫= f) = Err e.
Proof. reflexivity. Qed.

(** ** 64-bit wrap-around *)

Section Wrap.

Import Int64.

Lemma wrap64_small z : min_int <= z <= max_int -> wrap64 z = z.
Proof.
  unfold min_int, max_int, wrap64. intros Hz.
  rewrite Z.mod_small; lia.
Qed.

Lemma wrap64_range z : min_int <= wrap64 z <= max_int.
Proof.
  unfold min_int, max_int, wrap64.
  pose proof (Z.mod_pos_bound (z + 2 ^ 63) (2 ^ 64)). lia.
Qed.

Lemma wrap64_congr a b :
  a mod 2 ^ 64 = b mod 2 ^ 64 -> wrap64 a = wrap64 b.
Proof.
  unfold wrap64. intros H.
  rewrite <- (Zplus_mod_idemp_l a), <- (Zplus_mod_idemp_l b), H. reflexivity.
Qed.

Lemma wrap64_mod z : wrap64 z mod 2 ^ 64 = z mod 2 ^ 64.
Proof.
  unfold wrap64.
  rewrite <- Zminus_mod_idemp_l, Z.mod_mod by lia.
  rewrite Zminus_mod_idemp_l. f_equal. lia.
Qed.

Lemma wrap64_add_l a b : wrap64 (wrap64 a + b) = wrap64 (a + b).
Proof.
  apply wrap64_congr.
  rewrite <- Zplus_mod_idemp_l, wrap64_mod, Zplus_mod_idemp_l. reflexivity.
Qed.

Lemma wrap64_sub_l a b : wrap64 (wrap64 a - b) = wrap64 (a - b).
Proof.
  apply wrap64_congr.
  rewrite <- Zminus_mod_idemp_l, wrap64_mod, Zminus_mod_idemp_l. reflexivity.
Qed.

Lemma wrap64_sub_r a b : wrap64 (a - wrap64 b) = wrap64 (a - b).
Proof.
  apply wrap64_congr.
  rewrite <- Zminus_mod_idemp_r, wrap64_mod, Zminus_mod_idemp_r. reflexivity.
Qed.

Lemma wrap64_0 : wrap64 0 = 0.
Proof. reflexivity. Qed.

Lemma np_mod_range x m : 0 < m -> 0 <= np_mod x m < m.
Proof.
  intros Hm. unfold np_mod.
  destruct (Z.eqb_spec m 0); [lia|]. apply Z.mod_pos_bound; lia.
Qed.

Lemma np_mod_pos x m : 0 < m -> np_mod x m = x mod m.
Proof.
  intros Hm. unfold np_mod. destruct (Z.eqb_spec m 0); [lia|reflexivity].
Qed.


Lemma fits_int64_spec z : fits_int64 z = true <-> in_range z.
Proof.
  unfold fits_int64, in_range. rewrite andb_true_iff, !Z.leb_le. tauto.
Qed.

Lemma forallb_fits_int64 (l : list Z) :
  forallb fits_int64 l = true <-> Forall in_range l.
Proof.
  rewrite forallb_forall, Forall_forall. split; intros H x Hx.
  - apply fits_int64_spec, H, list_elem_of_In, Hx.
  - apply fits_int64_spec, H, list_elem_of_In, Hx.
Qed.

End Wrap.

(** ** Finite sums *)

Section Sums.

Lemma sumZ_ext f g n :
  (forall i, (i < n)%nat -> f i = g i) -> sumZ f n = sumZ g n.
Proof.
  induction n as [|n IH]; intros H; simpl; [reflexivity|].
  rewrite IH, H by (intros; try apply H; lia). reflexivity.
Qed.

Lemma sumZ_zero f n :
  (forall i, (i < n)%nat -> f i = 0) -> sumZ f n = 0.
Proof.
  induction n as [|n IH]; intros H; simpl; [reflexivity|].
  rewrite IH, H by (intros; try apply H; lia). reflexivity.
Qed.

Lemma sumZ_add f g n :
  sumZ (fun i => f i + g i) n = sumZ f n + sumZ g n.
Proof. induction n as [|n IH]; simpl; lia. Qed.

Lemma sumZ_sub f g n :
  sumZ (fun i => f i - g i) n = sumZ f n - sumZ g n.
Proof. induction n as [|n IH]; simpl; lia. Qed.

Lemma sumZ_opp f n : sumZ (fun i => - f i) n = - sumZ f n.
Proof. induction n as [|n IH]; simpl; lia. Qed.

Lemma sumZ_scale_l c f n : sumZ (fun i => c * f i) n = c * sumZ f n.
Proof. induction n as [|n IH]; simpl; lia. Qed.

Lemma sumZ_scale_r c f n : sumZ (fun i => f i * c) n = sumZ f n * c.
Proof. induction n as [|n IH]; simpl; lia. Qed.

Lemma sumZ_swap (f : nat -> nat -> Z) n m :
  sumZ (fun i => sumZ (fun j => f i j) m) n
  = sumZ (fun j => sumZ (fun i => f i j) n) m.
Proof.
  induction n as [|n IH]; simpl.
  - symmetry. apply sumZ_zero. reflexivity.
  - rewrite IH, <- sumZ_add. reflexivity.
Qed.

(** A sum with a single non-zero term. *)
Lemma sumZ_single f n j :
  (j < n)%nat -> (forall i, (i < n)%nat -> i <> j -> f i = 0) ->
  sumZ f n = f j.
Proof.
  induction n as [|n IH]; intros Hj H; [lia|]. simpl.
  destruct (decide (j = n)) as [->|Hne].
  - rewrite sumZ_zero by (intros; apply H; lia). lia.
  - rewrite IH by (try lia; intros; apply H; lia).
    rewrite (H n) by lia. lia.
Qed.

(** Terms beyond the support can be dropped or added. *)
Lemma sumZ_extend f n m :
  (n <= m)%nat -> (forall i, (n <= i < m)%nat -> f i = 0) ->
  sumZ f m = sumZ f n.
Proof.
  induction m as [|m IH]; intros Hle H.
  - replace n with 0%nat by lia. reflexivity.
  - destruct (decide (n = S m)) as [->|Hne]; [reflexivity|].
    simpl. rewrite IH, H by (try lia; intros; apply H; lia). lia.
Qed.

Lemma sumZ_abs_le f n M :
  (forall i, (i < n)%nat -> Z.abs (f i) <= M) ->
  Z.abs (sumZ f n) <= Z.of_nat n * M.
Proof.
  induction n as [|n IH]; intros H; simpl sumZ; [lia|].
  specialize (IH (fun i Hi => H i ltac:(lia))).
  specialize (H n ltac:(lia)). lia.
Qed.

Lemma sumZ_mod_congr f g n m :
  (forall i, (i < n)%nat -> f i mod m = g i mod m) ->
  sumZ f n mod m = sumZ g n mod m.
Proof.
  induction n as [|n IH]; intros H; simpl; [reflexivity|].
  rewrite Zplus_mod, IH, H, <- Zplus_mod by (intros; try apply H; lia).
  reflexivity.
Qed.

End Sums.

(** ** Coefficients of arrays *)

Section Coef.

Lemma coef_lookup (a : poly) i x : a !! i = Some x -> coef a i = x.
Proof.
  unfold coef. revert i. induction a as [|y a IH]; intros [|i] H;
    simpl in *; try discriminate; [congruence|auto].
Qed.

Lemma coef_ge (a : poly) i : (length a <= i)%nat -> coef a i = 0.
Proof. intros H. unfold coef. apply nth_overflow. exact H. Qed.

Lemma lookup_coef (a : poly) i : (i < length a)%nat -> a !! i = Some (coef a i).
Proof.
  intros H. destruct (lookup_lt_is_Some_2 a i H) as [x Hx].
  rewrite Hx. f_equal. symmetry. apply coef_lookup. exact Hx.
Qed.

Lemma coef_app_l (a b : poly) i :
  (i < length a)%nat -> coef (a ++ b) i = coef a i.
Proof. intros H. unfold coef. apply app_nth1. exact H. Qed.

Lemma coef_snoc (a : poly) x : coef (a ++ [x]) (length a) = x.
Proof.
  apply coef_lookup. rewrite lookup_app_r by lia.
  replace (length a - length a)%nat with 0%nat by lia. reflexivity.
Qed.

Lemma coef_snoc_gt (a : poly) x i :
  (length a < i)%nat -> coef (a ++ [x]) i = 0.
Proof. intros H. apply coef_ge. rewrite length_app. simpl. lia. Qed.

Lemma coef_map_seq (f : nat -> Z) n i :
  (i < n)%nat -> coef (map f (seq 0 n)) i = f i.
Proof.
  intros H. apply coef_lookup.
  rewrite list_lookup_fmap, lookup_seq_lt by lia. reflexivity.
Qed.

Lemma coef_map (f : Z -> Z) (a : poly) i :
  (i < length a)%nat -> coef (map f a) i = f (coef a i).
Proof.
  intros H. apply coef_lookup.
  rewrite list_lookup_fmap, (lookup_coef a i H). reflexivity.
Qed.

(** Arrays are equal when they have the same length and coefficients. *)
Lemma poly_eq (a b : poly) :
  length a = length b ->
  (forall i, (i < length a)%nat -> coef a i = coef b i) -> a = b.
Proof.
  intros Hlen H. apply list_eq. intros i.
  destruct (decide (i < length a)%nat) as [Hi|Hi].
  - rewrite !lookup_coef by lia. f_equal. apply H. exact Hi.
  - rewrite !lookup_ge_None_2 by lia. reflexivity.
Qed.

End Coef.

(** ** The reduction loop of [mul] *)

Section Reduce.

Import Int64 PolynomialRing.

Variable R : ring.

Lemma length_folded p : length (folded R p) = N R.
Proof. unfold folded. rewrite length_map, length_seq. reflexivity. Qed.

Lemma coef_folded p k :
  (k < N R)%nat -> coef (folded R p) k = wrap64 (coef p k - coef p (k + N R)).
Proof. intros H. unfold folded. rewrite coef_map_seq by lia. reflexivity. Qed.

Lemma folded_nil : folded R [] = replicate (N R) 0.
Proof.
  apply poly_eq.
  - rewrite length_folded, length_replicate. reflexivity.
  - intros i Hi. rewrite length_folded in Hi. rewrite coef_folded by lia.
    rewrite !coef_ge by (simpl; lia).
    symmetry. apply coef_lookup. apply lookup_replicate_2. lia.
Qed.

Lemma coef_insert (a : poly) i x k :
  (i < length a)%nat ->
  coef (<[i := x]> a) k = if decide (k = i) then x else coef a k.
Proof.
  intros Hi. destruct (decide (k = i)) as [->|Hne].
  - apply coef_lookup. apply list_lookup_insert_eq. lia.
  - destruct (decide (k < length a)%nat) as [Hk|Hk].
    + apply coef_lookup. rewrite list_lookup_insert_ne by lia.
      apply lookup_coef. lia.
    + rewrite !coef_ge by (rewrite ?length_insert; lia). reflexivity.
Qed.

Lemma reduce_step_folded p c :
  (length p < 2 * N R)%nat ->
  reduce_step R (Ok (folded R p)) (length p, c) = Ok (folded R (p ++ [c])).
Proof.
  intros Hlen. unfold reduce_step. rewrite bind_Ok.
  destruct (Nat.ltb_spec (length p) (N R)) as [Hlt|Hge].
  - rewrite lookup_coef by (rewrite length_folded; lia).
    f_equal. apply poly_eq.
    + rewrite length_insert, !length_folded. reflexivity.
    + intros i Hi. rewrite length_insert, length_folded in Hi.
      rewrite coef_insert by (rewrite length_folded; lia).
      rewrite !coef_folded by lia.
      destruct (decide (i = length p)) as [->|Hne].
      * rewrite coef_snoc, coef_snoc_gt by lia.
        rewrite !(coef_ge p) by lia. rewrite wrap64_add_l. f_equal. lia.
      * rewrite (coef_snoc_gt p c (i + N R)) by lia.
        rewrite (coef_ge p (i + N R)) by lia.
        destruct (decide (i < length p)%nat).
        -- rewrite coef_app_l by lia. reflexivity.
        -- rewrite coef_snoc_gt, coef_ge by lia. reflexivity.
  - rewrite lookup_coef by (rewrite length_folded; lia).
    f_equal. apply poly_eq.
    + rewrite length_insert, !length_folded. reflexivity.
    + intros i Hi. rewrite length_insert, length_folded in Hi.
      rewrite coef_insert by (rewrite length_folded; lia).
      rewrite !coef_folded by lia.
      rewrite (coef_app_l p [c] i) by lia.
      destruct (decide (i = length p - N R)%nat) as [->|Hne].
      * replace (length p - N R + N R)%nat with (length p) by lia.
        rewrite coef_snoc, (coef_ge p (length p)) by lia.
        rewrite wrap64_sub_l. f_equal. lia.
      * destruct (decide (i + N R < length p)%nat).
        -- rewrite coef_app_l by lia. reflexivity.
        -- rewrite coef_snoc_gt, (coef_ge p (i + N R)) by lia. reflexivity.
Qed.

Lemma zip_seq_snoc (p : poly) c :
  zip (seq 0 (length (p ++ [c]))) (p ++ [c])
  = zip (seq 0 (length p)) p ++ [(length p, c)].
Proof.
  rewrite length_app. simpl length. rewrite seq_app. simpl seq.
  rewrite zip_with_app by (rewrite length_seq; reflexivity). reflexivity.
Qed.

(** The loop leaves [conv[k] - conv[k + N]] at index [k]. *)
Lemma reduce_folded conv :
  (length conv <= 2 * N R)%nat -> reduce R conv = Ok (folded R conv).
Proof.
  unfold reduce. induction conv as [|c p IH] using rev_ind; intros Hlen.
  - simpl. rewrite folded_nil. reflexivity.
  - rewrite length_app in Hlen. simpl in Hlen.
    rewrite zip_seq_snoc, fold_left_app. simpl fold_left.
    rewrite IH by lia. apply reduce_step_folded. lia.
Qed.

(** Beyond [2N] entries the loop indexes [result] out of bounds. *)
Lemma reduce_overlong conv :
  (2 * N R < length conv)%nat -> reduce R conv = Err IndexError.
Proof.
  unfold reduce. induction conv as [|c p IH] using rev_ind; intros Hlen.
  - simpl in Hlen. lia.
  - rewrite length_app in Hlen. simpl in Hlen.
    rewrite zip_seq_snoc, fold_left_app. simpl fold_left.
    destruct (decide (2 * N R < length p)%nat) as [Hlt|Hge].
    + rewrite IH by lia. reflexivity.
    + fold (reduce R p). rewrite reduce_folded by lia.
      unfold reduce_step. rewrite bind_Ok.
      destruct (Nat.ltb_spec (length p) (N R)); [lia|].
      rewrite lookup_ge_None_2 by (rewrite length_folded; lia).
      reflexivity.
Qed.

End Reduce.

(** ** The ring product *)

(** Case analysis on the comparisons of [fold_sign]. *)
Ltac sign_cases :=
  unfold fold_sign;
  repeat match goal with
         | |- context [Nat.eqb ?x ?y] => destruct (Nat.eqb_spec x y)
         end;
  try lia.

Section Product.

Import Int64 PolynomialRing.

Lemma conv_coef_ge (a b : poly) n :
  (length a + length b - 1 <= n)%nat -> a <> [] -> conv_coef a b n = 0.
Proof.
  intros Hn Ha. unfold conv_coef. apply sumZ_zero. intros m Hm.
  assert (0 < length a)%nat by (destruct a; simpl; [congruence|lia]).
  destruct (decide (m < length a)%nat).
  - rewrite (coef_ge b) by lia. lia.
  - rewrite (coef_ge a) by lia. lia.
Qed.

(** The inner sum of the negacyclic product has one non-zero term. *)
Lemma negacyclic_inner n0 (g : nat -> Z) i k :
  (i < n0)%nat -> (k < n0)%nat ->
  sumZ (fun j => g j * fold_sign n0 (i + j) k) n0
  = if (i <=? k)%nat then g (k - i)%nat else - g (k + n0 - i)%nat.
Proof.
  intros Hi Hk. destruct (Nat.leb_spec i k) as [Hle|Hgt].
  - rewrite (sumZ_single _ n0 (k - i))
      by first [lia | intros; sign_cases].
    sign_cases.
  - rewrite (sumZ_single _ n0 (k + n0 - i))
      by first [lia | intros; sign_cases].
    sign_cases.
Qed.

(** Row form of the negacyclic product: [Σ_i f(i) ĝ(k - i)], where [ĝ]
    continues [g] with [ĝ(j - N) = - g(j)]. *)
Lemma negacyclic_row n0 f g k :
  (k < n0)%nat ->
  negacyclic_fun n0 f g k
  = sumZ (fun i => f i * (if (i <=? k)%nat then g (k - i)%nat
                          else - g (k + n0 - i)%nat)) n0.
Proof.
  intros Hk. unfold negacyclic_fun. apply sumZ_ext. intros i Hi.
  rewrite <- (negacyclic_inner n0 g i k Hi Hk), <- sumZ_scale_l.
  apply sumZ_ext. intros j _. lia.
Qed.

(** Folding the integer product modulo [X^N + 1] gives the negacyclic
    product. *)
Lemma conv_coef_fold n0 (a b : poly) k :
  (length a <= n0)%nat -> (length b <= n0)%nat -> (k < n0)%nat ->
  conv_coef a b k - conv_coef a b (k + n0) = negacyclic n0 a b k.
Proof.
  intros Ha Hb Hk. unfold negacyclic. rewrite negacyclic_row by exact Hk.
  assert (Hlow : conv_coef a b k
                 = sumZ (fun i => if (i <=? k)%nat
                                  then coef a i * coef b (k - i) else 0) n0).
  { unfold conv_coef.
    rewrite (sumZ_extend _ (S k) n0).
    - apply sumZ_ext. intros i Hi.
      destruct (Nat.leb_spec i k); [reflexivity|lia].
    - lia.
    - intros i Hi. destruct (Nat.leb_spec i k); [lia|reflexivity]. }
  assert (Hhigh : conv_coef a b (k + n0)
                  = sumZ (fun i => if (i <=? k)%nat then 0
                                   else coef a i * coef b (k + n0 - i)) n0).
  { unfold conv_coef.
    rewrite (sumZ_extend _ n0 (S (k + n0))).
    - apply sumZ_ext. intros i Hi.
      destruct (Nat.leb_spec i k); [|reflexivity].
      rewrite (coef_ge b) by lia. lia.
    - lia.
    - intros i Hi. rewrite (coef_ge a) by lia. lia. }
  rewrite Hlow, Hhigh, <- sumZ_sub. apply sumZ_ext. intros i Hi.
  destruct (Nat.leb_spec i k); lia.
Qed.

Lemma length_map_seq {A} (f : nat -> A) n : length (map f (seq 0 n)) = n.
Proof. rewrite length_map, length_seq. reflexivity. Qed.

(** Closed form of [mul]: coefficient [k] is the wrapped negacyclic sum,
    reduced modulo [q]. *)
Lemma mul_spec R (a b : poly) :
  (0 < length a <= N R)%nat -> (0 < length b <= N R)%nat ->
  mul R a b
  = Ok (map (fun k => np_mod (wrap64 (negacyclic (N R) a b k)) (q R))
            (seq 0 (N R))).
Proof.
  intros Ha Hb. unfold mul, NumPy.convolve.
  destruct a as [|a0 a']; [simpl in Ha; lia|].
  destruct b as [|b0 b']; [simpl in Hb; lia|].
  set (a := a0 :: a') in *. set (b := b0 :: b') in *.
  rewrite bind_Ok, reduce_folded by (rewrite length_map_seq; lia).
  rewrite bind_Ok. f_equal. apply poly_eq.
  - rewrite length_map, length_folded, length_map_seq. reflexivity.
  - intros k Hk. rewrite length_map, length_folded in Hk.
    rewrite coef_map by (rewrite length_folded; lia).
    rewrite coef_map_seq, coef_folded by lia. f_equal.
    assert (Hc : forall n, coef (map (fun n => wrap64 (conv_coef a b n))
                                     (seq 0 (length a + length b - 1))) n
                           = wrap64 (conv_coef a b n)).
    { intros n. destruct (decide (n < length a + length b - 1)%nat).
      - rewrite coef_map_seq by lia. reflexivity.
      - rewrite coef_ge by (rewrite length_map_seq; lia).
        rewrite conv_coef_ge by (subst a; try discriminate; lia).
        reflexivity. }
    rewrite !Hc, wrap64_sub_l, wrap64_sub_r.
    rewrite conv_coef_fold by lia. reflexivity.
Qed.

Lemma length_mul R (a b c : poly) : mul R a b = Ok c -> length c = N R.
Proof.
  unfold mul. destruct (NumPy.convolve a b) as [conv|]; [|discriminate].
  rewrite bind_Ok.
  destruct (decide (length conv <= 2 * N R)%nat).
  - rewrite reduce_folded by lia. rewrite bind_Ok. intros [= <-].
    rewrite length_map, length_folded. reflexivity.
  - rewrite reduce_overlong by lia. discriminate.
Qed.

End Product.

(** ** Element-wise operations *)

Section Elementwise.

Import Int64 PolynomialRing.

Lemma broadcast_same f (a b : poly) :
  length a = length b -> NumPy.broadcast f a b = Ok (zip_with f a b).
Proof.
  intros H. unfold NumPy.broadcast.
  destruct (Nat.eqb_spec (length a) (length b)); [reflexivity|lia].
Qed.

Lemma add_same R (a b : poly) :
  length a = length b ->
  add R a b = Ok (zip_with (fun x y => np_mod (wrap64 (x + y)) (q R)) a b).
Proof. apply broadcast_same. Qed.

Lemma sub_same R (a b : poly) :
  length a = length b ->
  sub R a b = Ok (zip_with (fun x y => np_mod (wrap64 (x - y)) (q R)) a b).
Proof. apply broadcast_same. Qed.

Lemma coef_zip_with f (a b : poly) i :
  length a = length b -> (i < length a)%nat ->
  coef (zip_with f a b) i = f (coef a i) (coef b i).
Proof.
  intros Hlen Hi. apply coef_lookup.
  rewrite lookup_zip_with, !lookup_coef by lia. reflexivity.
Qed.

Lemma length_zip_same {A} (f : Z -> Z -> A) (a b : poly) :
  length a = length b -> length (zip_with f a b) = length a.
Proof. intros H. rewrite length_zip_with. lia. Qed.

Lemma length_neg R a : length (neg R a) = length a.
Proof. apply length_map. Qed.

Lemma length_mul_scalar R a c : length (mul_scalar R a c) = length a.
Proof. apply length_map. Qed.

(** [mul] returns on polynomials of the ring. *)
Lemma mul_total R (a b : poly) :
  (0 < N R)%nat -> length a = N R -> length b = N R ->
  exists c, mul R a b = Ok c /\ length c = N R.
Proof.
  intros HN Ha Hb. eexists. split.
  - apply mul_spec; lia.
  - apply length_map_seq.
Qed.

End Elementwise.

(** ** Loops over components *)

Section Components.

Lemma mapM_result_ok {A B} (f : A -> result B) (g : A -> B) (l : list A) :
  (forall x, x ∈ l -> f x = Ok (g x)) -> mapM f l = Ok (map g l).
Proof.
  induction l as [|x l IH]; intros H; [reflexivity|].
  simpl. rewrite (H x) by left. rewrite bind_Ok.
  rewrite IH by (intros y Hy; apply H; right; exact Hy).
  reflexivity.
Qed.

(** On components of one common length the loop of [add] and [sub]
    never fails, whatever it combines. *)
Lemma combine_components_total both f only2 (n : nat) (l1 l2 : list poly) :
  (forall a b : poly, length a = length b -> both a b = Ok (zip_with f a b)) ->
  Forall (fun c => length c = n) l1 ->
  Forall (fun c => length c = n) l2 ->
  exists res,
    BFVScheme.combine_components both only2 l1 l2 = Ok res
    /\ length res = Nat.max (length l1) (length l2).
Proof.
  intros Hboth H1 H2. unfold BFVScheme.combine_components.
  set (g := fun i : nat =>
              match l1 !! i, l2 !! i with
              | Some a, Some b => zip_with f a b
              | Some a, None => a
              | None, Some b => only2 b
              | None, None => []
              end).
  exists (map g (seq 0 (Nat.max (length l1) (length l2)))). split.
  - apply mapM_result_ok. intros i Hi.
    apply elem_of_seq in Hi. unfold g.
    destruct (l1 !! i) as [a|] eqn:Ea, (l2 !! i) as [b|] eqn:Eb;
      try reflexivity.
    + apply Hboth.
      rewrite Forall_lookup in H1, H2.
      rewrite (H1 _ _ Ea), (H2 _ _ Eb). reflexivity.
    + apply lookup_ge_None_1 in Ea, Eb. lia.
  - apply length_map_seq.
Qed.

End Components.

(** ** binary64 rounding *)

Section Rounding.

Import Float64.

(** [rne_div] is within half a unit of the exact quotient. *)
Lemma rne_div_error p d :
  0 < d -> Z.abs (2 * (rne_div p d * d - p)) <= d.
Proof.
  intros Hd. unfold rne_div.
  pose proof (Z.div_mod p d ltac:(lia)) as Hdm.
  pose proof (Z.mod_pos_bound p d Hd) as Hr.
  destruct (Z.ltb_spec (2 * (p mod d)) d); [nia|].
  destruct (Z.ltb_spec d (2 * (p mod d))); [nia|].
  destruct (Z.even (p / d)); nia.
Qed.

(** An integer strictly closer than one half to the quotient is the
    rounded quotient. *)
Lemma rne_div_unique p d k :
  0 < d -> 2 * Z.abs (p - k * d) < d -> rne_div p d = k.
Proof.
  intros Hd Hk. pose proof (rne_div_error p d Hd) as He.
  assert (Z.abs (rne_div p d - k) * d < d) by nia.
  nia.
Qed.

Lemma rne_div_1 p : rne_div p 1 = p.
Proof. apply rne_div_unique; lia. Qed.

Lemma pow2_pos n : 0 < 2 ^ n \/ n < 0.
Proof.
  destruct (Z.lt_ge_cases n 0); [right; lia|left].
  apply Z.pow_pos_nonneg; lia.
Qed.

(** Integers below [2^53] convert to binary64 exactly. *)
Lemma of_int_exact x :
  0 < x < 2 ^ 53 ->
  of_int x = Fin (x * 2 ^ (52 - Z.log2 x)) (Z.log2 x - 52).
Proof.
  intros Hx. unfold of_int, round_rat.
  destruct (Z.eqb_spec x 0); [lia|].
  assert (Hl : 0 <= Z.log2 x < 53).
  { split; [apply Z.log2_nonneg|]. apply Z.log2_lt_pow2; lia. }
  pose proof (Z.log2_spec x ltac:(lia)) as Hspec.
  unfold round_pos, ulp_exp.
  rewrite Z.abs_eq, Z.sgn_pos by lia.
  change (Z.log2 1) with 0. rewrite Z.sub_0_r.
  destruct (Z.leb_spec 0 (Z.log2 x)); [|lia].
  destruct (Z.leb_spec (1 * 2 ^ Z.log2 x) x); [|lia].
  destruct (Z.leb_spec 0 (Z.log2 x - 52)).
  - replace (Z.log2 x) with 52 by lia. simpl. rewrite rne_div_1.
    f_equal. lia.
  - rewrite rne_div_1.
    replace (- (Z.log2 x - 52)) with (52 - Z.log2 x) by lia.
    f_equal. lia.
Qed.

(** The exponent chosen for a quotient below [2^53] is not positive. *)
Lemma ulp_exp_nonpos p d :
  0 < p -> 0 < d -> p < 2 ^ 53 * d -> ulp_exp p d <= 0.
Proof.
  intros Hp Hd Hlt. unfold ulp_exp.
  pose proof (Z.log2_spec p Hp) as [Hp1 Hp2].
  pose proof (Z.log2_spec d Hd) as [Hd1 Hd2].
  pose proof (Z.log2_nonneg p). pose proof (Z.log2_nonneg d).
  assert (Hl : Z.log2 p - Z.log2 d <= 53).
  { destruct (Z.le_gt_cases (Z.log2 p - Z.log2 d) 53) as [|Hgt]; [lia|].
    exfalso.
    assert (H54 : 2 ^ (Z.log2 d + 54) <= 2 ^ Z.log2 p)
      by (apply Z.pow_le_mono_r; lia).
    rewrite Z.pow_add_r in H54 by lia.
    unfold Z.succ in Hd2. rewrite Z.pow_add_r in Hd2 by lia.
    change (2 ^ 54) with (2 * 2 ^ 53) in H54.
    change (2 ^ 1) with 2 in Hd2.
    assert (0 < 2 ^ 53) by lia.
    assert (0 < 2 ^ Z.log2 d) by (apply Z.pow_pos_nonneg; lia).
    nia. }
  destruct (Z.leb_spec 0 (Z.log2 p - Z.log2 d)).
  - destruct (Z.leb_spec (d * 2 ^ (Z.log2 p - Z.log2 d)) p) as [Hab|]; [|lia].
    destruct (Z.eq_dec (Z.log2 p - Z.log2 d) 53) as [E|]; [|lia].
    rewrite E in Hab. lia.
  - destruct (d <=? p * 2 ^ (- (Z.log2 p - Z.log2 d))); lia.
Qed.

(** Rounding to a grid of step [1/T] and then to an integer still
    finds the integer that is closer than a quarter. *)
Lemma round_twice_near m P D T k :
  0 < D -> 2 <= T ->
  Z.abs (2 * (m * D - P * T)) <= D ->
  4 * Z.abs (P - k * D) < D ->
  2 * Z.abs (m - k * T) < T.
Proof.
  intros HD HT Hm Hk.
  assert (H1 : 2 * Z.abs (m - k * T) * D
               <= Z.abs (2 * (m * D - P * T)) + 2 * T * Z.abs (P - k * D)).
  { replace (2 * Z.abs (m - k * T) * D)
      with (Z.abs (2 * (m * D - P * T) + 2 * T * (P - k * D))).
    - eapply Z.le_trans; [apply Z.abs_triangle|].
      rewrite (Z.abs_mul (2 * T)), (Z.abs_eq (2 * T)) by lia. lia.
    - replace (2 * (m * D - P * T) + 2 * T * (P - k * D))
        with (2 * (m - k * T) * D) by lia.
      rewrite !Z.abs_mul, (Z.abs_eq 2), (Z.abs_eq D) by lia. lia. }
  generalize dependent (Z.abs (P - k * D)). intros A Hk H1.
  generalize dependent (Z.abs (2 * (m * D - P * T))). intros E Hm H1.
  generalize dependent (Z.abs (m - k * T)). intros B H1.
  assert (H2 : 4 * (T * A) < T * D) by nia.
  assert (H3 : 4 * (2 * B * D) < (4 + 2 * T) * D) by nia.
  assert (H4 : 4 * (2 * B) < 4 + 2 * T) by nia.
  lia.
Qed.

(** The rounding step of [decrypt] and [multiply] returns the integer
    [k] whenever the exact quotient [x / d] is strictly closer than a
    quarter to [k]. *)
Lemma np_round_div_near x d k :
  0 <= x < 2 ^ 53 -> 0 < d < 2 ^ 53 ->
  4 * Z.abs (x - k * d) < d ->
  np_round_div x d = k.
Proof.
  intros Hx Hd Hk.
  assert (Hk0 : 0 <= k < 2 ^ 53).
  { split.
    - destruct (Z.lt_ge_cases k 0); [|lia].
      assert (k * d <= - d) by nia. lia.
    - destruct (Z.lt_ge_cases k (2 ^ 53)); [lia|].
      assert (2 ^ 53 * d <= k * d) by nia. lia. }
  unfold np_round_div. rewrite (of_int_exact d) by lia.
  pose proof (Z.log2_nonneg d) as Hld0.
  assert (Hld : Z.log2 d < 53) by (apply Z.log2_lt_pow2; lia).
  set (b := 52 - Z.log2 d) in *.
  assert (Hb : 0 < 2 ^ b) by (apply Z.pow_pos_nonneg; lia).
  destruct (Z.eq_dec x 0) as [->|Hx0].
  - assert (k = 0) by nia. subst k.
    change (of_int 0) with (Fin 0 0). unfold div.
    destruct (Z.eqb_spec (d * 2 ^ b) 0); [nia|].
    rewrite !Z.mul_0_l. reflexivity.
  - rewrite (of_int_exact x) by lia.
    pose proof (Z.log2_nonneg x) as Hlx0.
    assert (Hlx : Z.log2 x < 53) by (apply Z.log2_lt_pow2; lia).
    set (a := 52 - Z.log2 x) in *.
    assert (Ha : 0 < 2 ^ a) by (apply Z.pow_pos_nonneg; lia).
    unfold div. destruct (Z.eqb_spec (d * 2 ^ b) 0); [nia|].
    rewrite Z.sgn_pos, Z.abs_eq by nia.
    set (c := 2 ^ Z.max a b).
    assert (Hc : 0 < c) by (apply Z.pow_pos_nonneg; lia).
    assert (Hp : x * 2 ^ a * 1 * 2 ^ Z.max (Z.log2 x - 52 - (Z.log2 d - 52)) 0
                 = x * c).
    { unfold c. replace (Z.log2 x - 52 - (Z.log2 d - 52)) with (b - a) by lia.
      destruct (Z.le_ge_cases a b).
      - rewrite (Z.max_l (b - a) 0), (Z.max_r a b) by lia.
        replace (2 ^ b) with (2 ^ a * 2 ^ (b - a))
          by (rewrite <- Z.pow_add_r by lia; f_equal; lia).
        lia.
      - rewrite (Z.max_r (b - a) 0), (Z.max_l a b) by lia.
        change (2 ^ 0) with 1. lia. }
    assert (Hdd : d * 2 ^ b * 2 ^ Z.max (Z.log2 d - 52 - (Z.log2 x - 52)) 0
                  = d * c).
    { unfold c. replace (Z.log2 d - 52 - (Z.log2 x - 52)) with (a - b) by lia.
      destruct (Z.le_ge_cases a b).
      - rewrite (Z.max_r (a - b) 0), (Z.max_r a b) by lia.
        change (2 ^ 0) with 1. lia.
      - rewrite (Z.max_l (a - b) 0), (Z.max_l a b) by lia.
        replace (2 ^ a) with (2 ^ b * 2 ^ (a - b))
          by (rewrite <- Z.pow_add_r by lia; f_equal; lia).
        lia. }
    rewrite Hp, Hdd. clear Hp Hdd.
    unfold round_rat. destruct (Z.eqb_spec (x * c) 0); [nia|].
    unfold round_pos. rewrite Z.abs_eq, Z.sgn_pos by nia.
    pose proof (ulp_exp_nonpos (x * c) (d * c) ltac:(nia) ltac:(nia)
                  ltac:(nia)) as He.
    set (e := ulp_exp (x * c) (d * c)) in *. clearbody e.
    assert (Hkc : 4 * Z.abs (x * c - k * (d * c)) < d * c).
    { replace (x * c - k * (d * c)) with ((x - k * d) * c) by lia.
      rewrite Z.abs_mul, (Z.abs_eq c) by lia. nia. }
    destruct (Z.leb_spec 0 e).
    + assert (e = 0) by lia. subst e.
      change (2 ^ 0) with 1. rewrite Z.mul_1_r, Z.mul_1_l.
      rewrite (rne_div_unique (x * c) (d * c) k) by lia.
      unfold rint. change (0 <=? 0) with true. cbv iota.
      unfold to_int64. change (2 ^ 0) with 1. rewrite Z.mul_1_r.
      unfold Int64.min_int, Int64.max_int.
      destruct (Z.leb_spec (- 2 ^ 63) k); [|lia].
      destruct (Z.leb_spec k (2 ^ 63 - 1)); [reflexivity|lia].
    + unfold rint. destruct (Z.leb_spec 0 e); [lia|].
      rewrite Z.mul_1_l.
      assert (HE : 2 <= 2 ^ (- e)).
      { change 2 with (2 ^ 1) at 1. apply Z.pow_le_mono_r; lia. }
      set (T := 2 ^ (- e)) in *.
      pose proof (rne_div_error (x * c * T) (d * c) ltac:(nia)) as Hm.
      set (m := rne_div (x * c * T) (d * c)) in *.
      rewrite (rne_div_unique m T k); [| lia |].
      * unfold to_int64. change (2 ^ 0) with 1. rewrite Z.mul_1_r.
        unfold Int64.min_int, Int64.max_int.
        destruct (Z.leb_spec (- 2 ^ 63) k); [|lia].
        destruct (Z.leb_spec k (2 ^ 63 - 1)); [reflexivity|lia].
      * apply (round_twice_near m (x * c) (d * c) T k); try lia.
Qed.

End Rounding.

(** ** Algebra of the negacyclic product *)

Ltac sign3_cases :=
  unfold fold_sign3, fold_sign;
  repeat match goal with
         | |- context [Nat.eqb ?x ?y] => destruct (Nat.eqb_spec x y)
         end;
  try lia.

Section Negacyclic.

Variable n0 : nat.

Lemma negacyclic_fun_ext f f' g g' k :
  (forall i, (i < n0)%nat -> f i = f' i) ->
  (forall i, (i < n0)%nat -> g i = g' i) ->
  negacyclic_fun n0 f g k = negacyclic_fun n0 f' g' k.
Proof.
  intros Hf Hg. unfold negacyclic_fun.
  apply sumZ_ext. intros i Hi. apply sumZ_ext. intros j Hj.
  rewrite Hf, Hg by lia. reflexivity.
Qed.

(** The product is commutative. *)
Lemma negacyclic_fun_comm f g k :
  negacyclic_fun n0 f g k = negacyclic_fun n0 g f k.
Proof.
  unfold negacyclic_fun. etransitivity; [apply sumZ_swap|].
  apply sumZ_ext. intros j _. apply sumZ_ext. intros i _.
  rewrite (Nat.add_comm i j). lia.
Qed.

(** The product is linear in its first argument. *)
Lemma negacyclic_fun_add_l f f' g k :
  negacyclic_fun n0 (fun i => f i + f' i) g k
  = negacyclic_fun n0 f g k + negacyclic_fun n0 f' g k.
Proof.
  unfold negacyclic_fun. rewrite <- sumZ_add.
  apply sumZ_ext. intros i _. rewrite <- sumZ_add.
  apply sumZ_ext. intros j _. lia.
Qed.

Lemma negacyclic_fun_opp_l f g k :
  negacyclic_fun n0 (fun i => - f i) g k = - negacyclic_fun n0 f g k.
Proof.
  unfold negacyclic_fun. rewrite <- sumZ_opp.
  apply sumZ_ext. intros i _. rewrite <- sumZ_opp.
  apply sumZ_ext. intros j _. lia.
Qed.

Lemma negacyclic_fun_scale_l c f g k :
  negacyclic_fun n0 (fun i => c * f i) g k = c * negacyclic_fun n0 f g k.
Proof.
  unfold negacyclic_fun. rewrite <- sumZ_scale_l.
  apply sumZ_ext. intros i _. rewrite <- sumZ_scale_l.
  apply sumZ_ext. intros j _. lia.
Qed.

(** The product respects congruence modulo [m] of the coefficients. *)
Lemma negacyclic_fun_mod_l m f f' g k :
  (forall i, (i < n0)%nat -> f i mod m = f' i mod m) ->
  negacyclic_fun n0 f g k mod m = negacyclic_fun n0 f' g k mod m.
Proof.
  intros H. unfold negacyclic_fun.
  apply sumZ_mod_congr. intros i Hi.
  apply sumZ_mod_congr. intros j Hj.
  rewrite <- !Z.mul_assoc.
  rewrite (Zmult_mod (f i)), (Zmult_mod (f' i)), (H i Hi).
  reflexivity.
Qed.

(** Size of a product coefficient. *)
Lemma negacyclic_fun_bound f g F G k :
  (k < n0)%nat ->
  (forall i, (i < n0)%nat -> Z.abs (f i) <= F) ->
  (forall i, (i < n0)%nat -> Z.abs (g i) <= G) ->
  Z.abs (negacyclic_fun n0 f g k) <= Z.of_nat n0 * (F * G).
Proof.
  intros Hk Hf Hg. rewrite negacyclic_row by exact Hk.
  apply sumZ_abs_le. intros i Hi.
  specialize (Hf i Hi).
  assert (0 <= F) by lia.
  rewrite Z.abs_mul.
  assert (Z.abs (if (i <=? k)%nat then g (k - i)%nat
                 else - g (k + n0 - i)%nat) <= G).
  { destruct (Nat.leb_spec i k).
    - apply Hg. lia.
    - rewrite Z.abs_opp. apply Hg. lia. }
  nia.
Qed.

(** Folding twice: the inner sum over the intermediate exponent. *)
Lemma fold_sign_compose p j k :
  (p <= 2 * n0 - 2)%nat -> (j < n0)%nat -> (k < n0)%nat ->
  sumZ (fun l => fold_sign n0 p l * fold_sign n0 (l + j) k) n0
  = fold_sign3 n0 (p + j) k.
Proof.
  intros Hp Hj Hk. destruct (decide (p < n0)%nat) as [Hlt|Hge].
  - rewrite (sumZ_single _ n0 p)
      by first [lia | intros; sign3_cases].
    sign3_cases.
  - rewrite (sumZ_single _ n0 (p - n0))
      by first [lia | intros; sign3_cases].
    sign3_cases.
Qed.

(** A product of a product is the triple product. *)
Lemma negacyclic_fun_nested f g h k :
  (k < n0)%nat ->
  negacyclic_fun n0 (negacyclic_fun n0 f g) h k = negacyclic3 n0 f g h k.
Proof.
  intros Hk. unfold negacyclic3.
  transitivity
    (sumZ (fun l => sumZ (fun j => sumZ (fun i => sumZ (fun m =>
       f i * g m * h j * (fold_sign n0 (i + m) l * fold_sign n0 (l + j) k))
       n0) n0) n0) n0).
  { unfold negacyclic_fun. apply sumZ_ext. intros l _.
    apply sumZ_ext. intros j _.
    rewrite <- sumZ_scale_r, <- sumZ_scale_r.
    apply sumZ_ext. intros i _.
    rewrite <- sumZ_scale_r, <- sumZ_scale_r.
    apply sumZ_ext. intros m _. lia. }
  etransitivity; [apply sumZ_swap|].
  etransitivity;
    [apply sumZ_ext; intros j _; apply sumZ_swap|].
  etransitivity; [apply sumZ_swap|].
  apply sumZ_ext. intros i Hi.
  etransitivity;
    [apply sumZ_ext; intros j _; apply sumZ_swap|].
  etransitivity; [apply sumZ_swap|].
  apply sumZ_ext. intros m Hm. apply sumZ_ext. intros j Hj.
  rewrite sumZ_scale_l.
  rewrite fold_sign_compose by lia. reflexivity.
Qed.

(** Two successive factors can be exchanged. *)
Lemma negacyclic_fun_exchange f g h k :
  (k < n0)%nat ->
  negacyclic_fun n0 (negacyclic_fun n0 f g) h k
  = negacyclic_fun n0 (negacyclic_fun n0 f h) g k.
Proof.
  intros Hk. rewrite !negacyclic_fun_nested by exact Hk.
  unfold negacyclic3. apply sumZ_ext. intros i _.
  etransitivity; [apply sumZ_swap|].
  apply sumZ_ext. intros j _. apply sumZ_ext. intros m _.
  replace (i + j + m)%nat with (i + m + j)%nat by lia. lia.
Qed.

End Negacyclic.

(** ** Exact ring operations *)

Section ExactRing.

Import Int64 PolynomialRing.

Lemma Forall_coef (P : Z -> Prop) (a : poly) i :
  Forall P a -> (i < length a)%nat -> P (coef a i).
Proof.
  intros H Hi. rewrite Forall_lookup in H. apply (H i).
  apply lookup_coef. exact Hi.
Qed.

Lemma Forall_of_coef (P : Z -> Prop) (a : poly) :
  (forall i, (i < length a)%nat -> P (coef a i)) -> Forall P a.
Proof.
  intros H. apply Forall_lookup. intros i x Hx.
  rewrite <- (coef_lookup a i x Hx). apply H.
  eapply lookup_lt_Some. exact Hx.
Qed.

(** Without 64-bit overflow [mul] is the negacyclic product modulo [q]:
    it is enough that [N * A * B] fits, for bounds [A] and [B] on the
    coefficients of the operands. *)
Lemma mul_exact R (a b : poly) A B :
  (0 < N R)%nat -> length a = N R -> length b = N R ->
  Forall (fun x => Z.abs x <= A) a -> Forall (fun x => Z.abs x <= B) b ->
  Z.of_nat (N R) * (A * B) <= max_int ->
  mul R a b
  = Ok (map (fun k => np_mod (negacyclic (N R) a b k) (q R)) (seq 0 (N R))).
Proof.
  intros HN Ha Hb HA HB Hfit. rewrite mul_spec by lia. f_equal.
  apply map_ext_in. intros k Hk. apply in_seq in Hk. f_equal.
  apply wrap64_small.
  assert (Z.abs (negacyclic (N R) a b k) <= Z.of_nat (N R) * (A * B)).
  { apply negacyclic_fun_bound; [lia| |].
    - intros i Hi. apply (Forall_coef _ a i HA). lia.
    - intros i Hi. apply (Forall_coef _ b i HB). lia. }
  unfold min_int, max_int in *. lia.
Qed.

End ExactRing.

(** ** Canonical representatives modulo [q] *)

Lemma mod_opp_congr x y m : x mod m = y mod m -> (- x) mod m = (- y) mod m.
Proof.
  intros H. rewrite <- (Z.sub_0_l x), <- (Z.sub_0_l y).
  rewrite (Zminus_mod 0 x), (Zminus_mod 0 y), H. reflexivity.
Qed.

Lemma mod_add_congr x x' y y' m :
  x mod m = x' mod m -> y mod m = y' mod m ->
  (x + y) mod m = (x' + y') mod m.
Proof.
  intros Hx Hy. rewrite (Zplus_mod x), (Zplus_mod x'), Hx, Hy. reflexivity.
Qed.

Section Represent.

Import Int64 BFVScheme.

Variable sch : scheme.
Hypothesis Hinv : scheme_inv sch.
Hypothesis HN : (0 < N sch)%nat.
Hypothesis Hq : 0 < q sch <= 2 ^ 62.

Let R := poly_ring sch.

#[local] Set Default Proof Using "Hinv HN Hq".

Lemma ring_N : PolynomialRing.N R = N sch.
Proof. apply Hinv. Qed.

Lemma ring_q : PolynomialRing.q R = q sch.
Proof. apply Hinv. Qed.

Lemma canonical_coef c k :
  canonical sch c -> (k < N sch)%nat -> 0 <= coef c k < q sch.
Proof.
  intros [Hlen Hall] Hk.
  apply (Forall_coef (fun x => 0 <= x < q sch) c k Hall). lia.
Qed.

Lemma small_coef B e k :
  small sch B e -> (k < N sch)%nat -> - B <= coef e k <= B.
Proof.
  intros [Hlen Hall] Hk.
  apply (Forall_coef (fun x => - B <= x <= B) e k Hall). lia.
Qed.

Lemma canonical_represents c : canonical sch c -> represents sch c (coef c).
Proof. intros H. split; [exact H|reflexivity]. Qed.

Lemma canonical_map_seq (f : nat -> Z) :
  canonical sch (map (fun k => np_mod (f k) (q sch)) (seq 0 (N sch))).
Proof.
  split; [apply length_map_seq|].
  apply Forall_forall. intros x Hx. apply list_elem_of_fmap in Hx.
  destruct Hx as (k & -> & _). apply np_mod_range. lia.
Qed.

(** [mul] by a polynomial with small coefficients. *)
Lemma represents_mul a f b B :
  represents sch a f -> small sch B b ->
  Z.of_nat (N sch) * (q sch * B) <= 2 ^ 63 ->
  exists c, PolynomialRing.mul R a b = Ok c
            /\ represents sch c (negacyclic_fun (N sch) f (coef b)).
Proof.
  intros [[Hla Ha] Hf] [Hlb Hb] Hfit.
  destruct (Z.lt_ge_cases B 0) as [Hneg|HB].
  { exfalso. destruct b as [|x b]; [simpl in Hlb; lia|].
    inversion Hb; subst. lia. }
  eexists. split.
  - apply (mul_exact R a b (q sch - 1) B); rewrite ?ring_N; try lia.
    + eapply Forall_impl; [exact Ha|]. simpl. intros x Hx. lia.
    + eapply Forall_impl; [exact Hb|]. simpl. intros x Hx. lia.
    + unfold max_int. nia.
  - rewrite ring_N, ring_q. split; [apply canonical_map_seq|].
    intros k Hk. rewrite coef_map_seq by lia.
    rewrite np_mod_pos by lia. rewrite Z.mod_mod by lia.
    unfold negacyclic. apply negacyclic_fun_mod_l. exact Hf.
Qed.

Lemma canonical_zip_with (g : Z -> Z -> Z) (a b : poly) :
  length a = N sch -> length b = N sch ->
  canonical sch (zip_with (fun x y => np_mod (g x y) (q sch)) a b).
Proof.
  intros Ha Hb. split; [rewrite length_zip_with; lia|].
  apply Forall_of_coef. intros i Hi. rewrite length_zip_with in Hi.
  rewrite coef_zip_with by lia. apply np_mod_range. lia.
Qed.

(** [add] when no sum of coefficients overflows. *)
Lemma represents_add_gen a b f g :
  length a = N sch -> length b = N sch ->
  (forall k, (k < N sch)%nat -> min_int <= coef a k + coef b k <= max_int) ->
  (forall k, (k < N sch)%nat -> coef a k mod q sch = f k mod q sch) ->
  (forall k, (k < N sch)%nat -> coef b k mod q sch = g k mod q sch) ->
  exists c, PolynomialRing.add R a b = Ok c
            /\ represents sch c (fun k => f k + g k).
Proof.
  intros Ha Hb Hfit Hf Hg. eexists. split.
  - apply add_same. lia.
  - rewrite ring_q. split; [apply canonical_zip_with; assumption|].
    intros k Hk. rewrite coef_zip_with by lia.
    rewrite np_mod_pos by lia. rewrite Z.mod_mod by lia.
    rewrite wrap64_small by (apply Hfit; exact Hk).
    apply mod_add_congr; auto.
Qed.

(** [add] of a polynomial with small coefficients. *)
Lemma represents_add_small a f e B :
  represents sch a f -> small sch B e -> B <= 2 ^ 62 ->
  exists c, PolynomialRing.add R a e = Ok c
            /\ represents sch c (fun k => f k + coef e k).
Proof.
  intros [Hca Hf] He HB.
  apply represents_add_gen; try apply Hca; try apply He; auto.
  intros k Hk. pose proof (canonical_coef a k Hca Hk).
  pose proof (small_coef B e k He Hk).
  unfold min_int, max_int. lia.
Qed.

(** [add] of two canonical polynomials. *)
Lemma represents_add a f b g :
  represents sch a f -> represents sch b g ->
  exists c, PolynomialRing.add R a b = Ok c
            /\ represents sch c (fun k => f k + g k).
Proof.
  intros [Hca Hf] [Hcb Hg].
  apply represents_add_gen; try apply Hca; try apply Hcb; auto.
  intros k Hk. pose proof (canonical_coef a k Hca Hk).
  pose proof (canonical_coef b k Hcb Hk).
  unfold min_int, max_int. lia.
Qed.

(** [sub] of two canonical polynomials. *)
Lemma represents_sub a f b g :
  represents sch a f -> represents sch b g ->
  exists c, PolynomialRing.sub R a b = Ok c
            /\ represents sch c (fun k => f k - g k).
Proof.
  intros [Hca Hf] [Hcb Hg]. eexists. split.
  - apply sub_same. destruct Hca, Hcb. lia.
  - rewrite ring_q. split.
    + apply (canonical_zip_with (fun x y => wrap64 (x - y)));
        [apply Hca|apply Hcb].
    + intros k Hk. destruct Hca as [Hla Ha], Hcb as [Hlb Hb].
      rewrite coef_zip_with by lia.
      rewrite np_mod_pos by lia. rewrite Z.mod_mod by lia.
      pose proof (canonical_coef a k (conj Hla Ha) Hk).
      pose proof (canonical_coef b k (conj Hlb Hb) Hk).
      rewrite wrap64_small by (unfold min_int, max_int; lia).
      unfold Z.sub. apply mod_add_congr; auto. apply mod_opp_congr. auto.
Qed.

(** [neg] of a canonical polynomial. *)
Lemma represents_neg a f :
  represents sch a f ->
  represents sch (PolynomialRing.neg R a) (fun k => - f k).
Proof.
  intros [[Hla Ha] Hf]. unfold PolynomialRing.neg. rewrite ring_q. split.
  - split; [rewrite length_map; exact Hla|].
    apply Forall_forall. intros x Hx. apply list_elem_of_fmap in Hx.
    destruct Hx as (y & -> & _). apply np_mod_range. lia.
  - intros k Hk. rewrite coef_map by lia.
    rewrite np_mod_pos by lia. rewrite Z.mod_mod by lia.
    pose proof (canonical_coef a k (conj Hla Ha) Hk).
    rewrite wrap64_small by (unfold min_int, max_int; lia).
    apply mod_opp_congr. auto.
Qed.

(** [mul_scalar] of a plaintext by a non-negative scalar. *)
Lemma represents_mul_scalar (m : poly) c bound :
  length m = N sch -> Forall (fun x => 0 <= x < bound) m ->
  0 <= c -> bound * c <= 2 ^ 63 ->
  represents sch (PolynomialRing.mul_scalar R m c) (fun k => c * coef m k).
Proof.
  intros Hlm Hm Hc Hfit. unfold PolynomialRing.mul_scalar. rewrite ring_q.
  split.
  - split; [rewrite length_map; exact Hlm|].
    apply Forall_forall. intros x Hx. apply list_elem_of_fmap in Hx.
    destruct Hx as (y & -> & _). apply np_mod_range. lia.
  - intros k Hk. rewrite coef_map by lia.
    rewrite np_mod_pos by lia. rewrite Z.mod_mod by lia.
    pose proof (Forall_coef _ m k Hm ltac:(lia)) as Hmk. simpl in Hmk.
    rewrite wrap64_small by (unfold min_int, max_int; nia).
    f_equal. lia.
Qed.

Lemma represents_ext c f g :
  represents sch c f ->
  (forall k, (k < N sch)%nat -> f k mod q sch = g k mod q sch) ->
  represents sch c g.
Proof.
  intros [Hc Hf] Hfg. split; [exact Hc|].
  intros k Hk. rewrite Hf, Hfg by exact Hk. reflexivity.
Qed.

End Represent.

(** ** Encryption establishes the ciphertext invariant *)

Section EncryptInvariant.

Import Int64 BFVScheme.

Variable sch : scheme.
Hypothesis Hinv : scheme_inv sch.
Hypothesis HN : (0 < N sch)%nat.
Hypothesis Hq : 0 < q sch <= 2 ^ 62.
Hypothesis Ht : 0 < t sch.
Hypothesis Hfit : Z.of_nat (N sch) * q sch <= 2 ^ 63.

(** The draws of key generation and the public key they give. *)
Variables s0 a e b : poly.
Variable B : Z.
Hypothesis HB : 0 <= B <= 2 ^ 62.
Hypothesis Hs0 : small sch 1 s0.
Hypothesis Ha : canonical sch a.
Hypothesis He : small sch B e.
Hypothesis Hb :
  represents sch b (fun k => - (negacyclic (N sch) a s0 k + coef e k)).
Hypothesis Hpk : public_key sch = Some {| pk0 := b; pk1 := a |}.

Lemma encrypt_invariant pt u e1 e2 :
  length (Plaintext.poly pt) = N sch ->
  Forall (fun x => 0 <= x < t sch) (Plaintext.poly pt) ->
  small sch 1 u -> small sch B e1 -> small sch B e2 ->
  exists ct,
    encrypt sch pt u e1 e2 = Ok ct
    /\ Ciphertext.size ct = 2%nat
    /\ Ciphertext.params ct = scheme_params sch
    /\ decrypts_to sch s0 ct (coef (Plaintext.poly pt))
         (B * (2 * Z.of_nat (N sch) + 1)).
Proof.
  intros Hlm Hm Hu He1 He2.
  pose proof Hinv as (HRN & HRq & Hdelta).
  assert (Hdt : 0 <= delta sch /\ t sch * delta sch <= q sch).
  { rewrite Hdelta. split; [apply Z.div_pos; lia|].
    apply Z.mul_div_le. lia. }
  unfold encrypt. rewrite Hpk. cbn [pk0 pk1]. unfold Plaintext.get_poly.
  set (m := Plaintext.poly pt) in *.
  destruct (represents_mul sch Hinv HN Hq b _ u 1 Hb Hu ltac:(lia))
    as (bu & -> & Hbu).
  rewrite bind_Ok.
  destruct (represents_add_small sch Hinv HN Hq bu _ e1 B Hbu He1 ltac:(lia))
    as (c0' & -> & Hc0').
  rewrite bind_Ok.
  pose proof (represents_mul_scalar sch Hinv HN Hq m (delta sch) (t sch)
                Hlm Hm ltac:(lia) ltac:(lia)) as Hsm.
  destruct (represents_add sch Hinv HN Hq c0' _ _ _ Hc0' Hsm)
    as (c0 & -> & Hc0).
  rewrite bind_Ok.
  destruct (represents_mul sch Hinv HN Hq a _ u 1
              (canonical_represents sch Hinv HN Hq a Ha) Hu ltac:(lia))
    as (au & -> & Hau).
  rewrite bind_Ok.
  destruct (represents_add_small sch Hinv HN Hq au _ e2 B Hau He2 ltac:(lia))
    as (c1 & -> & Hc1).
  rewrite bind_Ok.
  eexists. split; [reflexivity|]. split; [reflexivity|].
  split; [reflexivity|].
  exists c0, c1. split; [reflexivity|].
  split; [apply Hc0|]. split; [apply Hc1|].
  intros k Hk. split.
  { apply (Forall_coef _ m k Hm). lia. }
  exists (coef e1 k - negacyclic (N sch) e u k + negacyclic (N sch) e2 s0 k).
  split.
  - assert (Z.abs (coef e1 k) <= B)
      by (pose proof (small_coef sch Hinv HN Hq B e1 k He1 Hk); lia).
    assert (Z.abs (negacyclic (N sch) e u k) <= Z.of_nat (N sch) * (B * 1)).
    { apply negacyclic_fun_bound; [exact Hk| |]; intros i Hi.
      - pose proof (small_coef sch Hinv HN Hq B e i He Hi). lia.
      - pose proof (small_coef sch Hinv HN Hq 1 u i Hu Hi). lia. }
    assert (Z.abs (negacyclic (N sch) e2 s0 k) <= Z.of_nat (N sch) * (B * 1)).
    { apply negacyclic_fun_bound; [exact Hk| |]; intros i Hi.
      - pose proof (small_coef sch Hinv HN Hq B e2 i He2 Hi). lia.
      - pose proof (small_coef sch Hinv HN Hq 1 s0 i Hs0 Hi). lia. }
    lia.
  - destruct Hc0 as [_ Hc0], Hc1 as [_ Hc1].
    assert (H1 : negacyclic (N sch) c1 s0 k mod q sch
                 = (negacyclic_fun (N sch)
                      (negacyclic_fun (N sch) (coef a) (coef s0)) (coef u) k
                    + negacyclic (N sch) e2 s0 k) mod q sch).
    { unfold negacyclic at 1.
      rewrite (negacyclic_fun_mod_l (N sch) (q sch) (coef c1)
                 (fun k => negacyclic_fun (N sch) (coef a) (coef u) k
                           + coef e2 k)) by exact Hc1.
      rewrite negacyclic_fun_add_l.
      rewrite (negacyclic_fun_exchange (N sch) (coef a) (coef u) (coef s0))
        by exact Hk.
      reflexivity. }
    assert (H0 : coef c0 k mod q sch
                 = (- (negacyclic_fun (N sch)
                         (negacyclic_fun (N sch) (coef a) (coef s0))
                         (coef u) k
                       + negacyclic (N sch) e u k)
                    + coef e1 k + delta sch * coef m k) mod q sch).
    { rewrite (Hc0 k Hk). f_equal. f_equal. f_equal.
      rewrite (negacyclic_fun_opp_l (N sch)
                 (fun k => negacyclic (N sch) a s0 k + coef e k)).
      rewrite negacyclic_fun_add_l. reflexivity. }
    rewrite (mod_add_congr _ _ _ _ (q sch) H0 H1).
    f_equal. lia.
Qed.

End EncryptInvariant.

(** ** Decryption under the ciphertext invariant *)

Section DecryptInvariant.

Import Int64 BFVScheme.

(** The rounding of [decrypt] removes a noise [e] from [delta m + e]
    as long as [4 (|e| + t) < delta]. *)
Lemma round_removes_noise q0 t0 m e E :
  0 < t0 -> 0 < q0 < 2 ^ 53 ->
  0 <= m < t0 -> Z.abs e <= E -> 4 * (E + t0) < q0 / t0 ->
  np_mod (Float64.np_round_div ((q0 / t0 * m + e) mod q0) (q0 / t0)) t0 = m.
Proof.
  intros Ht Hq Hm He Hbudget.
  set (d := q0 / t0) in *.
  assert (Hdm : q0 = t0 * d + q0 mod t0) by (apply Z.div_mod; lia).
  pose proof (Z.mod_pos_bound q0 t0 Ht) as Hr.
  assert (Hd : 0 < d <= q0) by nia.
  assert (Hdm0 : 0 <= d * m <= d * (t0 - 1)) by nia.
  destruct (Z.lt_ge_cases (d * m + e) 0) as [Hneg|Hpos].
  - assert (Hv : (d * m + e) mod q0 = d * m + e + q0).
    { symmetry. apply (Z.mod_unique_pos _ _ (-1)); lia. }
    rewrite Hv.
    rewrite (np_round_div_near (d * m + e + q0) d (m + t0)).
    + rewrite np_mod_pos by lia.
      replace (m + t0) with (m + 1 * t0) by lia.
      rewrite Z.mod_add by lia. apply Z.mod_small. lia.
    + lia.
    + lia.
    + replace (d * m + e + q0 - (m + t0) * d) with (e + q0 mod t0) by lia.
      lia.
  - assert (Hv : (d * m + e) mod q0 = d * m + e).
    { apply Z.mod_small. lia. }
    rewrite Hv.
    rewrite (np_round_div_near (d * m + e) d m).
    + rewrite np_mod_pos by lia. apply Z.mod_small. lia.
    + lia.
    + lia.
    + replace (d * m + e - m * d) with e by lia. lia.
Qed.

Variable sch : scheme.
Hypothesis Hinv : scheme_inv sch.
Hypothesis HN : (0 < N sch)%nat.
Hypothesis Hq : 0 < q sch < 2 ^ 53.
Hypothesis Ht : 0 < t sch.
Hypothesis Hfit : Z.of_nat (N sch) * q sch <= 2 ^ 63.

Variable s0 : poly.
Hypothesis Hs0 : small sch 1 s0.
Hypothesis Hsk : secret_key sch = Some {| s := s0 |}.

Lemma decrypt_invariant ct m E :
  decrypts_to sch s0 ct m E -> 4 * (E + t sch) < delta sch ->
  decrypt sch ct
  = Ok {| Plaintext.poly := map m (seq 0 (N sch));
          Plaintext.params := scheme_params sch |}.
Proof.
  intros (c0 & c1 & Ec & Hc0 & Hc1 & Hk) Hbudget.
  pose proof Hinv as (HRN & HRq & Hdelta).
  assert (Hq' : 0 < q sch <= 2 ^ 62) by lia.
  unfold decrypt, Ciphertext.get_components. rewrite Hsk, Ec. cbn [s].
  destruct (represents_mul sch Hinv HN Hq' c1 _ s0 1
              (canonical_represents sch Hinv HN Hq' c1 Hc1) Hs0 ltac:(lia))
    as (c1_s & -> & Hc1s).
  rewrite bind_Ok.
  destruct (represents_add sch Hinv HN Hq' c0 _ c1_s _
              (canonical_represents sch Hinv HN Hq' c0 Hc0) Hc1s)
    as (noisy_m & -> & [Hcan Hnoisy]).
  rewrite bind_Ok. f_equal. f_equal.
  apply poly_eq.
  - unfold round_div. rewrite !length_map, length_seq. apply Hcan.
  - intros k Hlt. unfold round_div in *. rewrite !length_map in Hlt.
    assert (Hkn : (k < N sch)%nat) by (destruct Hcan; lia).
    rewrite !coef_map by (rewrite ?length_map; lia).
    rewrite coef_map_seq by lia.
    destruct (Hk k Hkn) as (Hm & e & He & Hce).
    assert (Hv : coef noisy_m k = (delta sch * m k + e) mod q sch).
    { rewrite <- Hce. unfold negacyclic.
      rewrite <- (Hnoisy k Hkn). symmetry. apply Z.mod_small.
      apply canonical_coef; auto. }
    rewrite Hv, Hdelta. rewrite Hdelta in Hbudget.
    apply (round_removes_noise (q sch) (t sch) (m k) e E); auto.
Qed.

End DecryptInvariant.

(** ** Key generation *)

Section KeyGeneration.

Import Int64 BFVScheme.

Lemma scheme_inv_with_keys sch sk pk :
  scheme_inv sch -> scheme_inv (with_keys sch sk pk).
Proof. intros H. exact H. Qed.

Lemma canonical_with_keys sch sk pk c :
  canonical sch c <-> canonical (with_keys sch sk pk) c.
Proof. reflexivity. Qed.

(** [key_generation] on draws within the samplers' ranges stores
    [s] and [(b, a)] with [b = -(a s + e) mod q]. *)
Lemma key_generation_spec sch s0 a e B :
  scheme_inv sch -> (0 < N sch)%nat -> 0 < q sch <= 2 ^ 62 ->
  Z.of_nat (N sch) * q sch <= 2 ^ 63 -> B <= 2 ^ 62 ->
  small sch 1 s0 -> canonical sch a -> small sch B e ->
  exists b,
    key_generation sch s0 a e
    = Ok (with_keys sch {| s := s0 |} {| pk0 := b; pk1 := a |})
    /\ represents sch b
         (fun k => - (negacyclic (N sch) a s0 k + coef e k)).
Proof.
  intros Hinv HN Hq Hfit HB Hs0 Ha He. unfold key_generation.
  destruct (represents_mul sch Hinv HN Hq a _ s0 1
              (canonical_represents sch Hinv HN Hq a Ha) Hs0 ltac:(lia))
    as (a_s & -> & Has).
  rewrite bind_Ok.
  destruct (represents_add_small sch Hinv HN Hq a_s _ e B Has He HB)
    as (a_s_e & -> & Hase).
  rewrite bind_Ok.
  exists (PolynomialRing.neg (poly_ring sch) a_s_e). split; [reflexivity|].
  apply (represents_neg sch Hinv HN Hq a_s_e _ Hase).
Qed.

End KeyGeneration.

(** ** Homomorphic addition and subtraction keep the invariant *)

Section Homomorphic.

Import Int64 BFVScheme.

(** Reducing the plaintext modulo [t] costs a noise of [q mod t] per
    multiple of [t] removed, since [delta t = q - q mod t]. *)
Lemma rescale_plain q0 t0 M e :
  0 < t0 -> 0 < q0 ->
  (q0 / t0 * M + e) mod q0
  = (q0 / t0 * (M mod t0) + (e - q0 mod t0 * (M / t0))) mod q0.
Proof.
  intros Ht Hq.
  pose proof (Z.div_mod q0 t0 ltac:(lia)) as Hqd.
  pose proof (Z.div_mod M t0 ltac:(lia)) as HMd.
  set (d := q0 / t0) in *. set (r := q0 mod t0) in *.
  set (j := M / t0) in *. set (M' := M mod t0) in *.
  replace (d * M + e) with (d * M' + (e - r * j) + j * q0) by nia.
  apply Z.mod_add. lia.
Qed.

Lemma negacyclic_fun_sub_l n0 f f' g k :
  negacyclic_fun n0 (fun i => f i - f' i) g k
  = negacyclic_fun n0 f g k - negacyclic_fun n0 f' g k.
Proof.
  unfold Z.sub.
  rewrite (negacyclic_fun_add_l n0 f (fun i => - f' i)).
  rewrite negacyclic_fun_opp_l. reflexivity.
Qed.

Variable sch : scheme.
Hypothesis Hinv : scheme_inv sch.
Hypothesis HN : (0 < N sch)%nat.
Hypothesis Hq : 0 < q sch <= 2 ^ 62.
Hypothesis Ht : 0 < t sch.

Variable s0 : poly.

Lemma combine_components_pair both only2 (a0 a1 b0 b1 c0 c1 : poly) :
  both a0 b0 = Ok c0 -> both a1 b1 = Ok c1 ->
  combine_components both only2 [a0; a1] [b0; b1] = Ok [c0; c1].
Proof.
  intros H0 H1. unfold combine_components. simpl. rewrite H0, H1.
  reflexivity.
Qed.

Lemma Zdiv_small_range M t0 :
  0 < t0 -> - t0 < M < 2 * t0 -> -1 <= M / t0 <= 1.
Proof.
  intros Ht0 HM. split.
  - apply Z.div_le_lower_bound; lia.
  - assert (M / t0 < 2); [|lia].
    apply Z.div_lt_upper_bound; lia.
Qed.

(** Combining two ciphertexts component by component with [op], where
    [op] acts as [zop] on the represented coefficients. *)
Lemma linear_invariant
  (op : poly -> poly -> result poly) only2 (zop : Z -> Z -> Z) opp
  ct1 ct2 m1 m2 E1 E2 :
  (forall a f b g,
      represents sch a f -> represents sch b g ->
      exists c, op a b = Ok c /\ represents sch c (fun k => zop (f k) (g k))) ->
  (forall x y, zop x y = x + opp * y) -> Z.abs opp = 1 ->
  decrypts_to sch s0 ct1 m1 E1 -> decrypts_to sch s0 ct2 m2 E2 ->
  exists c0 c1,
    combine_components op only2
      (Ciphertext.components ct1) (Ciphertext.components ct2)
    = Ok [c0; c1]
    /\ decrypts_to sch s0 (Ciphertext.init [c0; c1] (Ciphertext.params ct1))
         (fun k => zop (m1 k) (m2 k) mod t sch) (E1 + E2 + t sch).
Proof.
  intros Hop Hzop Hopp
    (a0 & a1 & Ea & Ha0 & Ha1 & H1) (b0 & b1 & Eb & Hb0 & Hb1 & H2).
  pose proof Hinv as (HRN & HRq & Hdelta).
  destruct (Hop a0 _ b0 _ (canonical_represents sch Hinv HN Hq a0 Ha0)
              (canonical_represents sch Hinv HN Hq b0 Hb0))
    as (c0 & Hc0eq & Hc0).
  destruct (Hop a1 _ b1 _ (canonical_represents sch Hinv HN Hq a1 Ha1)
              (canonical_represents sch Hinv HN Hq b1 Hb1))
    as (c1 & Hc1eq & Hc1).
  exists c0, c1. split.
  { rewrite Ea, Eb. apply combine_components_pair; assumption. }
  exists c0, c1. split; [reflexivity|].
  split; [apply Hc0|]. split; [apply Hc1|].
  intros k Hk. split; [apply Z.mod_pos_bound; lia|].
  destruct (H1 k Hk) as (Hm1 & e1 & He1 & Hv1).
  destruct (H2 k Hk) as (Hm2 & e2 & He2 & Hv2).
  set (M := zop (m1 k) (m2 k)).
  exists (e1 + opp * e2 - q sch mod t sch * (M / t sch)). split.
  - pose proof (Z.mod_pos_bound (q sch) (t sch) Ht).
    assert (HM : - t sch < M < 2 * t sch) by (unfold M; rewrite Hzop; nia).
    pose proof (Zdiv_small_range M (t sch) Ht HM).
    assert (Z.abs (opp * e2) <= E2) by (rewrite Z.abs_mul, Hopp; lia).
    assert (Z.abs (q sch mod t sch * (M / t sch)) <= t sch) by nia.
    lia.
  - rewrite Hdelta. rewrite <- rescale_plain by lia. rewrite <- Hdelta.
    destruct Hc0 as [_ Hc0], Hc1 as [_ Hc1].
    assert (Hn : negacyclic (N sch) c1 s0 k mod q sch
                 = (negacyclic (N sch) a1 s0 k
                    + opp * negacyclic (N sch) b1 s0 k) mod q sch).
    { unfold negacyclic at 1.
      rewrite (negacyclic_fun_mod_l (N sch) (q sch) (coef c1)
                 (fun k => coef a1 k + opp * coef b1 k))
        by (intros i Hi; rewrite (Hc1 i Hi), Hzop; reflexivity).
      rewrite negacyclic_fun_add_l, negacyclic_fun_scale_l. reflexivity. }
    rewrite (mod_add_congr _ _ _ _ (q sch) (Hc0 k Hk) Hn).
    rewrite Hzop.
    replace (coef a0 k + opp * coef b0 k
             + (negacyclic (N sch) a1 s0 k + opp * negacyclic (N sch) b1 s0 k))
      with ((coef a0 k + negacyclic (N sch) a1 s0 k)
            + opp * (coef b0 k + negacyclic (N sch) b1 s0 k)) by lia.
    replace (delta sch * M + (e1 + opp * e2))
      with ((delta sch * m1 k + e1) + opp * (delta sch * m2 k + e2))
      by (unfold M; rewrite Hzop; lia).
    apply mod_add_congr; [exact Hv1|].
    rewrite (Zmult_mod opp), Hv2, <- Zmult_mod. reflexivity.
Qed.

(** [add] of two ciphertexts adds the plaintexts modulo [t]. *)
Lemma add_invariant ct1 ct2 m1 m2 E1 E2 :
  decrypts_to sch s0 ct1 m1 E1 -> decrypts_to sch s0 ct2 m2 E2 ->
  exists ct,
    add sch ct1 ct2 = Ok ct
    /\ Ciphertext.size ct = 2%nat
    /\ Ciphertext.params ct = Ciphertext.params ct1
    /\ decrypts_to sch s0 ct
         (fun k => (m1 k + m2 k) mod t sch) (E1 + E2 + t sch).
Proof.
  intros H1 H2.
  destruct (linear_invariant (PolynomialRing.add (poly_ring sch)) id
              Z.add 1 ct1 ct2 m1 m2 E1 E2) as (c0 & c1 & Hc & Hinv');
    auto.
  - intros a f b g. apply represents_add; assumption.
  - intros. lia.
  - unfold add, Ciphertext.get_components. rewrite Hc. eexists.
    split; [reflexivity|]. repeat split; exact Hinv'.
Qed.

(** [sub] of two ciphertexts subtracts the plaintexts modulo [t]. *)
Lemma sub_invariant ct1 ct2 m1 m2 E1 E2 :
  decrypts_to sch s0 ct1 m1 E1 -> decrypts_to sch s0 ct2 m2 E2 ->
  exists ct,
    sub sch ct1 ct2 = Ok ct
    /\ Ciphertext.size ct = 2%nat
    /\ Ciphertext.params ct = Ciphertext.params ct1
    /\ decrypts_to sch s0 ct
         (fun k => (m1 k - m2 k) mod t sch) (E1 + E2 + t sch).
Proof.
  intros H1 H2.
  destruct (linear_invariant (PolynomialRing.sub (poly_ring sch))
              (PolynomialRing.neg (poly_ring sch))
              Z.sub (-1) ct1 ct2 m1 m2 E1 E2) as (c0 & c1 & Hc & Hinv');
    auto.
  - intros a f b g. apply represents_sub; assumption.
  - unfold sub, Ciphertext.get_components. rewrite Hc. eexists.
    split; [reflexivity|]. repeat split; exact Hinv'.
Qed.

End Homomorphic.

(** * The claims of the specification *)



Import Int64 BFVScheme Examples.

(** Splits a [Forall] over an explicit list into its elements. *)
Ltac forall_list :=
  repeat match goal with
         | |- Forall _ (_ :: _) => constructor
         | |- Forall _ [] => constructor
         end.

(** ** Ciphertext sizes accepted by [decrypt] *)

(** C5, as stated, fails: [decrypt] raises on a size-3 ciphertext. *)
Lemma decrypt_size3_raises :
  Ciphertext.size ct_size3 = 3%nat
  /\ decrypt toy ct_size3
     = Err (ValueError
              "Can only decrypt size-2 ciphertexts. Use relinearization first.").
Proof. split; reflexivity. Qed.

(** C5 (amended): every ciphertext whose size is not 2, size 3 included,
    makes [decrypt] raise an error; no [c0 + c1 s + c2 s^2] is computed
    and size 2 is the only supported decryption size. *)
Theorem decrypt_only_size2 sch ct :
  length (Ciphertext.get_components ct) <> 2%nat ->
  decrypt sch ct
  = Err (ValueError
           (match secret_key sch with
            | None => "Must generate keys first"
            | Some _ =>
                "Can only decrypt size-2 ciphertexts. Use relinearization first."
            end)).
Proof.
  intros Hsize. unfold decrypt.
  destruct (secret_key sch) as [sk|]; [|reflexivity].
  destruct (Ciphertext.get_components ct) as [|c0 [|c1 [|c2 rest]]];
    try reflexivity.
  simpl in Hsize. lia.
Qed.

Lemma decrypt_only_size2_witness :
  length (Ciphertext.get_components ct_size3) <> 2%nat
  /\ decrypt toy ct_size3
     = Err (ValueError
              "Can only decrypt size-2 ciphertexts. Use relinearization first.").
Proof.
  assert (H : length (Ciphertext.get_components ct_size3) <> 2%nat)
    by (simpl; lia).
  split; [exact H|]. exact (decrypt_only_size2 toy ct_size3 H).
Defined.

(** ** Sizes accepted by [relinearize] *)

(** C6, as stated, fails: a size-4 ciphertext is returned, not rejected. *)
Lemma relinearize_size4_returned :
  Ciphertext.size ct_size4 = 4%nat
  /\ relinearize toy_relin ct_size4 = Ok ct_size4.
Proof. split; reflexivity. Qed.

(** C6 (amended): with a relinearization key present, [relinearize]
    returns unchanged every input whose size is not 3 (size 2, but also
    size 4 or more); no size is rejected. *)
Theorem relinearize_other_sizes_unchanged sch rk ct :
  relin_key sch = Some rk ->
  Ciphertext.size ct <> 3%nat ->
  relinearize sch ct = Ok ct.
Proof.
  intros Hrk Hsize. unfold relinearize. rewrite Hrk.
  destruct (Nat.eqb_spec (Ciphertext.size ct) 3); [lia|reflexivity].
Qed.

Lemma relinearize_other_sizes_unchanged_witness :
  relinearize toy_relin ct_size4 = Ok ct_size4
  /\ relinearize toy_relin ct_a = Ok ct_a.
Proof.
  split.
  - apply (relinearize_other_sizes_unchanged toy_relin
             {| evk := [([1048563; 1048572], [5; 6])] |} ct_size4);
      [reflexivity | simpl; lia].
  - apply (relinearize_other_sizes_unchanged toy_relin
             {| evk := [([1048563; 1048572], [5; 6])] |} ct_a);
      [reflexivity | simpl; lia].
Defined.

(** ** Parameter sets in [add] and [sub] *)

(** C7, as stated, fails: ciphertexts of different parameter sets are
    added and subtracted without any error. *)
Lemma add_sub_mixed_params_accepted :
  Ciphertext.params ct_a <> Ciphertext.params ct_b
  /\ add toy ct_a ct_b = Ok (Ciphertext.init [[11; 22]; [33; 44]] toy_params)
  /\ sub toy ct_a ct_b = Ok (Ciphertext.init [[9; 18]; [27; 36]] toy_params).
Proof. split; [discriminate|]. split; reflexivity. Qed.

(** C7 (amended): [add] and [sub] do not look at the parameter sets.
    In a scheme whose modulus [q] is within [int64], for every pair of
    ciphertexts whose components all have one common length, equal
    parameters or not, they return a ciphertext that carries the
    parameters of the first operand and has the larger of the two
    sizes. *)
Theorem add_sub_ignore_params sch ct1 ct2 (n : nat) :
  in_range (PolynomialRing.q (poly_ring sch)) ->
  Forall (fun c => length c = n) (Ciphertext.components ct1) ->
  Forall (fun c => length c = n) (Ciphertext.components ct2) ->
  exists r1 r2,
    add sch ct1 ct2 = Ok r1 /\ sub sch ct1 ct2 = Ok r2
    /\ Ciphertext.params r1 = Ciphertext.params ct1
    /\ Ciphertext.params r2 = Ciphertext.params ct1
    /\ Ciphertext.size r1
       = Nat.max (length (Ciphertext.components ct1))
                 (length (Ciphertext.components ct2))
    /\ Ciphertext.size r2 = Ciphertext.size r1.
Proof.
  intros _ H1 H2. unfold add, sub, Ciphertext.get_components.
  destruct (combine_components_total _ _ id n _ _
              (add_same (poly_ring sch)) H1 H2) as (ra & Ha & Hla).
  destruct (combine_components_total _ _
              (PolynomialRing.neg (poly_ring sch)) n _ _
              (sub_same (poly_ring sch)) H1 H2) as (rs & Hs & Hls).
  rewrite Ha, Hs. do 2 eexists. repeat split; simpl; lia.
Qed.

Lemma add_sub_ignore_params_witness :
  Ciphertext.params ct_a <> Ciphertext.params ct_b
  /\ exists r1 r2,
      add toy ct_a ct_b = Ok r1 /\ sub toy ct_a ct_b = Ok r2
      /\ Ciphertext.params r1 = Ciphertext.params ct_a
      /\ Ciphertext.params r2 = Ciphertext.params ct_a
      /\ Ciphertext.size r1 = 2%nat
      /\ Ciphertext.size r2 = Ciphertext.size r1.
Proof.
  split; [discriminate|].
  apply (add_sub_ignore_params toy ct_a ct_b 2);
    [unfold in_range, min_int, max_int; simpl; lia | ..];
    repeat constructor.
Defined.


(** ** The ciphertext-size state machine *)

Lemma wf_size2 sch ct :
  wf_ciphertext sch ct -> Ciphertext.size ct = 2%nat ->
  exists c0 c1, Ciphertext.components ct = [c0; c1]
                /\ is_poly sch c0 /\ is_poly sch c1.
Proof.
  intros [Hsize Hall] H2. rewrite Hsize in H2.
  destruct (Ciphertext.components ct) as [|c0 [|c1 [|c2 rest]]];
    simpl in H2; try lia.
  exists c0, c1. inversion Hall as [|? ? H0 Hall']; subst.
  inversion Hall' as [|? ? H1 _]; subst. auto.
Qed.







(** ** Range of the output of [decrypt] *)

(** C10: in a scheme whose moduli are within [int64] ([q] in range,
    [0 < t <= 2^63 - 1]), for every size-2 ciphertext over polynomials of
    the scheme, [decrypt] returns a plaintext of [N] coefficients, each in
    the canonical range [[0, t)]; nothing is centred before [decode]. *)
Theorem decrypt_canonical_range sch sk ct :
  scheme_inv sch -> (0 < N sch)%nat ->
  in_range (q sch) -> 0 < t sch <= max_int ->
  secret_key sch = Some sk -> is_poly sch (s sk) ->
  wf_ciphertext sch ct -> Ciphertext.size ct = 2%nat ->
  exists pt,
    decrypt sch ct = Ok pt
    /\ length (Plaintext.poly pt) = N sch
    /\ Forall (fun w => 0 <= w < t sch) (Plaintext.poly pt).
Proof.
  intros (HN & Hq & Hd) Hpos _ [Ht _] Hsk Hs Hwf H2.
  destruct (wf_size2 _ _ Hwf H2) as (c0 & c1 & Ec & Hc0 & Hc1).
  unfold is_poly in *.
  unfold decrypt, Ciphertext.get_components. rewrite Hsk, Ec.
  rewrite mul_spec by (rewrite HN; lia). rewrite bind_Ok.
  rewrite add_same by (rewrite length_map_seq; lia).
  rewrite bind_Ok. eexists. split; [reflexivity|]. simpl. split.
  - unfold round_div.
    rewrite !length_map, length_zip_with, length_map_seq. lia.
  - apply Forall_forall. intros w Hw.
    apply list_elem_of_fmap in Hw. destruct Hw as (x & -> & _).
    apply np_mod_range. exact Ht.
Qed.

Lemma decrypt_canonical_range_witness :
  exists pt,
    decrypt toy ct_a = Ok pt
    /\ length (Plaintext.poly pt) = 2%nat
    /\ Forall (fun w => 0 <= w < 65537) (Plaintext.poly pt).
Proof.
  apply (decrypt_canonical_range toy {| s := [1; -1] |} ct_a).
  - repeat split.
  - simpl. lia.
  - unfold in_range, min_int, max_int. simpl. lia.
  - unfold max_int. simpl. lia.
  - reflexivity.
  - reflexivity.
  - split; [reflexivity|]. repeat constructor.
  - reflexivity.
Defined.

(** ** Centring in [decode] *)

(** C9, on the code: [decode] centres with the ring of the ciphertext
    modulus [q], not over [t]; the plaintext [encode(-5)], whose first
    coefficient is [t - 5], decodes to [t - 5 = 65532], not to [-5]. *)
Theorem decode_centres_over_q :
  encode wide (VInt (-5))
  = Ok {| Plaintext.poly := [65532; 0; 0; 0];
          Plaintext.params := scheme_params wide |}
  /\ decode wide {| Plaintext.poly := [65532; 0; 0; 0];
                    Plaintext.params := scheme_params wide |} 1
     = Ok (DInt 65532)
  /\ decode wide {| Plaintext.poly := [65532; 0; 0; 0];
                    Plaintext.params := scheme_params wide |} 2
     = Ok (DArray [65532; 0]).
Proof. repeat split. Qed.

(** When [t - 1 <= q // 2], as in every usable instance, [mod_center]
    over [q] leaves a plaintext reduced modulo [t] untouched. *)
Lemma mod_center_plain sch (p : poly) :
  scheme_inv sch -> 0 < t sch -> t sch - 1 <= q sch / 2 ->
  PolynomialRing.mod_center (poly_ring sch)
    (map (fun x => np_mod x (t sch)) p)
  = map (fun x => x mod t sch) p.
Proof.
  intros (HN & Hq & Hd) Ht Hhalf. unfold PolynomialRing.mod_center.
  rewrite map_map. apply map_ext. intros x.
  rewrite np_mod_pos by exact Ht. rewrite Hq.
  pose proof (Z.mod_pos_bound x (t sch) Ht).
  destruct (Z.ltb_spec (q sch / 2) (x mod t sch)); [lia|reflexivity].
Qed.

(** ** Exactness of the ring product *)

(** C4, on the code: with [q = 2^50 - 1] and coefficients in [[0, q)],
    the 64-bit convolution overflows; [mul] returns [[0, 0]] where the
    exact product has first coefficient [2^80 mod q = 2^30]. *)
Theorem mul_overflows_int64 :
  Forall (fun x => 0 <= x < PolynomialRing.q ring50) [2 ^ 40; 0]
  /\ PolynomialRing.mul ring50 [2 ^ 40; 0] [2 ^ 40; 0] = Ok [0; 0]
  /\ negacyclic 2 [2 ^ 40; 0] [2 ^ 40; 0] 0 mod PolynomialRing.q ring50
     = 2 ^ 30.
Proof.
  split; [|split].
  - forall_list; simpl; lia.
  - vm_compute. reflexivity.
  - vm_compute. reflexivity.
Qed.

(** * Further properties of the code *)

(** ** polynomial.py *)

Section RingExtras.

Import Int64 PolynomialRing.

Lemma land_pred_pow2 n :
  0 < n -> (Z.land n (n - 1) = 0 <-> exists k, 0 <= k /\ n = 2 ^ k).
Proof.
  intros Hn. split.
  - intros Hland. exists (Z.log2 n). split; [apply Z.log2_nonneg|].
    pose proof (Z.log2_spec n Hn) as [Hlo Hhi].
    destruct (Z.eq_dec n (2 ^ Z.log2 n)) as [|Hne]; [assumption|exfalso].
    assert (Hk : 0 <= Z.log2 n) by apply Z.log2_nonneg.
    assert (Hlog : Z.log2 (n - 1) = Z.log2 n).
    { apply Z.log2_unique; [exact Hk|]. lia. }
    assert (Hbit : Z.testbit (Z.land n (n - 1)) (Z.log2 n) = true).
    { rewrite Z.land_spec, (Z.bit_log2 n Hn).
      rewrite <- Hlog. rewrite Z.bit_log2; [reflexivity|].
      assert (0 < 2 ^ Z.log2 n) by (apply Z.pow_pos_nonneg; lia). lia. }
    rewrite Hland, Z.bits_0 in Hbit. discriminate.
  - intros (k & Hk & ->).
    replace (2 ^ k - 1) with (Z.ones k) by (rewrite Z.ones_equiv; lia).
    rewrite Z.land_ones by exact Hk. apply Z.mod_same.
    assert (0 < 2 ^ k) by (apply Z.pow_pos_nonneg; lia). lia.
Qed.

(** X1: the constructor of the ring accepts exactly the degrees that are
    0 or a power of two. *)
Theorem ring_init_accepts (n : nat) (q0 : Z) :
  (init n q0 = Ok {| N := n; q := q0 |}
   <-> n = 0%nat \/ exists k : nat, n = (2 ^ k)%nat)
  /\ (init n q0 = Ok {| N := n; q := q0 |}
      \/ init n q0 = Err (ValueError "N must be a power of 2")).
Proof.
  unfold init. split.
  - destruct n as [|n'].
    + simpl. split; auto.
    + set (n := S n') in *.
      pose proof (land_pred_pow2 (Z.of_nat n) ltac:(lia)) as Hiff.
      destruct (Z.eqb_spec (Z.land (Z.of_nat n) (Z.of_nat n - 1)) 0)
        as [E|E].
      * split; [intros _|reflexivity]. right.
        destruct (proj1 Hiff E) as (k & Hk & Hnk).
        exists (Z.to_nat k). apply Nat2Z.inj.
        rewrite Hnk, Nat2Z.inj_pow, Z2Nat.id by lia. reflexivity.
      * split; [discriminate|]. intros [H0|(k & Hk)]; [subst n; lia|].
        exfalso. apply E. apply Hiff. exists (Z.of_nat k).
        split; [lia|]. rewrite Hk, Nat2Z.inj_pow. reflexivity.
  - destruct (Z.land (Z.of_nat n) (Z.of_nat n - 1) =? 0); auto.
Qed.

(** X2: closed form of [mul], for a modulus [q] within [int64] (NumPy
    raises on [% q] otherwise).  On operands of [N] coefficients the
    convolution and the reduction loop leave, at index [k], the negacyclic
    sum [Σ_{i+j=k} a_i b_j - Σ_{i+j=k+N} a_i b_j] wrapped to 64 bits and
    then reduced modulo [q]; the result has [N] coefficients. *)
Theorem mul_negacyclic_wrapped R (a b : poly) :
  in_range (q R) ->
  (0 < N R)%nat -> length a = N R -> length b = N R ->
  exists c,
    mul R a b = Ok c /\ length c = N R
    /\ forall k, (k < N R)%nat ->
         coef c k = np_mod (wrap64 (negacyclic (N R) a b k)) (q R).
Proof.
  intros _ HN Ha Hb. eexists. split; [apply mul_spec; lia|].
  split; [apply length_map_seq|].
  intros k Hk. rewrite coef_map_seq by lia. reflexivity.
Qed.

Lemma mul_negacyclic_wrapped_witness :
  exists c,
    mul ring50 [1; 2] [3; 4] = Ok c /\ length c = 2%nat
    /\ forall k, (k < 2)%nat ->
         coef c k = np_mod (wrap64 (negacyclic 2 [1; 2] [3; 4] k)) (2 ^ 50 - 1).
Proof.
  apply (mul_negacyclic_wrapped Examples.ring50 [1; 2] [3; 4]);
    [unfold in_range, min_int, max_int; simpl; lia
    | simpl; lia | reflexivity | reflexivity].
Defined.

(** X3: [mul] is exact when nothing overflows: for a modulus
    [0 < q <= 2^63 - 1], if the coefficients of the operands are bounded
    by [A] and [B] with [N A B <= 2^63 - 1], every coefficient of the
    result is the exact negacyclic product reduced modulo [q]. *)
Theorem mul_exact_without_overflow R (a b : poly) A B :
  (0 < N R)%nat -> 0 < q R <= max_int ->
  length a = N R -> length b = N R ->
  Forall (fun x => Z.abs x <= A) a -> Forall (fun x => Z.abs x <= B) b ->
  Z.of_nat (N R) * (A * B) <= max_int ->
  exists c,
    mul R a b = Ok c /\ length c = N R
    /\ forall k, (k < N R)%nat -> coef c k = negacyclic (N R) a b k mod q R.
Proof.
  intros HN [Hq _] Ha Hb HA HB Hfit. eexists.
  split; [apply (mul_exact R a b A B); assumption|].
  split; [apply length_map_seq|].
  intros k Hk. rewrite coef_map_seq by lia. apply np_mod_pos. exact Hq.
Qed.

Lemma mul_exact_without_overflow_witness :
  exists c,
    mul ring50 [2 ^ 49; 5] [1; -1] = Ok c /\ length c = 2%nat
    /\ forall k, (k < 2)%nat ->
         coef c k = negacyclic 2 [2 ^ 49; 5] [1; -1] k mod (2 ^ 50 - 1).
Proof.
  apply (mul_exact_without_overflow Examples.ring50
           [2 ^ 49; 5] [1; -1] (2 ^ 49) 1).
  - simpl. lia.
  - unfold max_int. simpl. lia.
  - reflexivity.
  - reflexivity.
  - repeat constructor; simpl; lia.
  - repeat constructor; simpl; lia.
  - vm_compute. discriminate.
Defined.

(** X4: [mul] is commutative, overflow or not. *)
Theorem mul_comm R (a b : poly) :
  (0 < length a <= N R)%nat -> (0 < length b <= N R)%nat ->
  mul R a b = mul R b a.
Proof.
  intros Ha Hb. rewrite !mul_spec by lia. f_equal.
  apply map_ext. intros k. unfold negacyclic.
  rewrite negacyclic_fun_comm. reflexivity.
Qed.

Lemma mul_comm_witness :
  mul ring50 [2 ^ 40; 7] [2 ^ 40; 3] = mul ring50 [2 ^ 40; 3] [2 ^ 40; 7].
Proof.
  apply (mul_comm Examples.ring50 [2 ^ 40; 7] [2 ^ 40; 3]); simpl; lia.
Defined.

(** X5: the failures of [mul].  An empty operand makes [np.convolve]
    raise; operands so long that the convolution has more than [2N]
    entries make the reduction loop index [result] out of bounds. *)
Theorem mul_failures R (a b : poly) :
  (a = [] -> mul R a b = Err (ValueError "a cannot be empty"))
  /\ (a <> [] -> b = [] -> mul R a b = Err (ValueError "v cannot be empty"))
  /\ (a <> [] -> b <> [] -> (2 * N R < length a + length b - 1)%nat ->
      mul R a b = Err IndexError).
Proof.
  unfold mul, NumPy.convolve. repeat split.
  - intros ->. reflexivity.
  - intros Ha ->. destruct a; [congruence|reflexivity].
  - intros Ha Hb Hlen. destruct a as [|a0 a']; [congruence|].
    destruct b as [|b0 b']; [congruence|].
    rewrite bind_Ok, reduce_overlong; [reflexivity|].
    rewrite length_map_seq. exact Hlen.
Qed.

Lemma mul_failures_witness :
  mul ring50 [] [1] = Err (ValueError "a cannot be empty")
  /\ mul ring50 [1] [] = Err (ValueError "v cannot be empty")
  /\ mul ring50 [1; 2; 3] [1; 1; 1] = Err IndexError.
Proof.
  destruct (mul_failures Examples.ring50 [] [1]) as (H1 & _ & _).
  destruct (mul_failures Examples.ring50 [1] []) as (_ & H2 & _).
  destruct (mul_failures Examples.ring50 [1; 2; 3] [1; 1; 1]) as (_ & _ & H3).
  split; [apply H1; reflexivity|].
  split; [apply H2; [discriminate|reflexivity]|].
  apply H3; [discriminate|discriminate|simpl; lia].
Defined.

Lemma Forall_map_all {A} (P : Z -> Prop) (g : A -> Z) (l : list A) :
  (forall x, P (g x)) -> Forall P (map g l).
Proof.
  intros Hg. induction l as [|x l IH]; simpl; constructor; auto.
Qed.

Lemma broadcast_Forall (P : Z -> Prop) f (a b c : poly) :
  (forall x y, P (f x y)) -> NumPy.broadcast f a b = Ok c -> Forall P c.
Proof.
  intros Hf. unfold NumPy.broadcast.
  destruct (length a =? length b)%nat.
  - intros [= <-]. apply Forall_lookup. intros i z Hz.
    apply lookup_zip_with_Some in Hz. destruct Hz as (x & y & -> & _).
    apply Hf.
  - destruct a as [|x [|x' a']].
    + destruct b as [|y [|y' b']]; try discriminate.
      intros [= <-]. constructor.
    + intros [= <-]. apply Forall_map_all. intros. apply Hf.
    + destruct b as [|y [|y' b']]; try discriminate.
      intros [= <-].
      apply (Forall_map_all P (fun x => f x y) (x :: x' :: a')).
      intros. apply Hf.
Qed.

(** X6: every operation of the ring returns coefficients in the canonical
    range [[0, q)], whatever its operands (for [q > 0]). *)
Theorem ring_outputs_canonical R (a b : poly) (scalar : Z) :
  0 < q R ->
  (forall c, add R a b = Ok c -> Forall (fun x => 0 <= x < q R) c)
  /\ (forall c, sub R a b = Ok c -> Forall (fun x => 0 <= x < q R) c)
  /\ (forall c, mul R a b = Ok c -> Forall (fun x => 0 <= x < q R) c)
  /\ Forall (fun x => 0 <= x < q R) (neg R a)
  /\ Forall (fun x => 0 <= x < q R) (mul_scalar R a scalar).
Proof.
  intros Hq. repeat split.
  - intros c. apply broadcast_Forall. intros. apply np_mod_range, Hq.
  - intros c. apply broadcast_Forall. intros. apply np_mod_range, Hq.
  - intros c. unfold mul.
    destruct (NumPy.convolve a b) as [conv|]; [|discriminate].
    rewrite bind_Ok. destruct (reduce R conv) as [res|]; [|discriminate].
    rewrite bind_Ok. intros [= <-]. apply Forall_forall. intros z Hz.
    apply list_elem_of_fmap in Hz. destruct Hz as (w & -> & _).
    apply np_mod_range, Hq.
  - apply Forall_forall. intros z Hz.
    apply list_elem_of_fmap in Hz. destruct Hz as (w & -> & _).
    apply np_mod_range, Hq.
  - apply Forall_forall. intros z Hz.
    apply list_elem_of_fmap in Hz. destruct Hz as (w & -> & _).
    apply np_mod_range, Hq.
Qed.

Lemma ring_outputs_canonical_witness :
  (forall c, add ring50 [2 ^ 62; -5] [2 ^ 62; 3] = Ok c ->
             Forall (fun x => 0 <= x < 2 ^ 50 - 1) c)
  /\ (forall c, sub ring50 [2 ^ 62; -5] [2 ^ 62; 3] = Ok c ->
                Forall (fun x => 0 <= x < 2 ^ 50 - 1) c)
  /\ (forall c, mul ring50 [2 ^ 62; -5] [2 ^ 62; 3] = Ok c ->
                Forall (fun x => 0 <= x < 2 ^ 50 - 1) c)
  /\ Forall (fun x => 0 <= x < 2 ^ 50 - 1) (neg ring50 [2 ^ 62; -5])
  /\ Forall (fun x => 0 <= x < 2 ^ 50 - 1) (mul_scalar ring50 [2 ^ 62; -5] 7).
Proof.
  apply (ring_outputs_canonical Examples.ring50 [2 ^ 62; -5] [2 ^ 62; 3] 7).
  simpl. lia.
Defined.

(** X7: on canonical polynomials [neg] is the additive inverse: it is an
    involution and [add a (neg a)] is the zero polynomial
    (for [0 < q <= 2^62]). *)
Theorem neg_additive_inverse R (a : poly) :
  0 < q R <= 2 ^ 62 -> Forall (fun x => 0 <= x < q R) a ->
  neg R (neg R a) = a
  /\ add R a (neg R a) = Ok (replicate (length a) 0).
Proof.
  intros Hq Ha. split.
  - unfold neg. apply poly_eq; [rewrite !length_map; reflexivity|].
    intros i Hi. rewrite !length_map in Hi.
    rewrite !coef_map by (rewrite ?length_map; lia).
    pose proof (Forall_coef _ a i Ha Hi) as Hx. simpl in Hx.
    rewrite !np_mod_pos by lia.
    rewrite (wrap64_small (- coef a i)) by (unfold min_int, max_int; lia).
    pose proof (Z.mod_pos_bound (- coef a i) (q R) ltac:(lia)).
    rewrite wrap64_small by (unfold min_int, max_int; lia).
    rewrite <- (Z.sub_0_l (_ mod _)), Zminus_mod_idemp_r.
    rewrite Z.sub_0_l, Z.opp_involutive. apply Z.mod_small. exact Hx.
  - rewrite add_same by (rewrite length_neg; reflexivity). f_equal.
    apply poly_eq.
    { rewrite length_zip_with, length_neg, length_replicate. lia. }
    intros i Hi. rewrite length_zip_with, length_neg in Hi.
    rewrite coef_zip_with by (rewrite ?length_neg; lia).
    unfold neg. rewrite coef_map by lia.
    pose proof (Forall_coef _ a i Ha ltac:(lia)) as Hx. simpl in Hx.
    rewrite !np_mod_pos by lia.
    rewrite (wrap64_small (- coef a i)) by (unfold min_int, max_int; lia).
    pose proof (Z.mod_pos_bound (- coef a i) (q R) ltac:(lia)).
    rewrite wrap64_small by (unfold min_int, max_int; lia).
    rewrite Zplus_mod_idemp_r, Z.add_opp_diag_r, Z.mod_0_l by lia.
    symmetry. apply coef_lookup. apply lookup_replicate_2. lia.
Qed.

Lemma neg_additive_inverse_witness :
  neg ring50 (neg ring50 [5; 0; 2 ^ 49]) = [5; 0; 2 ^ 49]
  /\ add ring50 [5; 0; 2 ^ 49] (neg ring50 [5; 0; 2 ^ 49]) = Ok [0; 0; 0].
Proof.
  apply (neg_additive_inverse Examples.ring50 [5; 0; 2 ^ 49]).
  - simpl. lia.
  - repeat constructor; simpl; lia.
Defined.

Lemma sub_add_neg_poly R (a b : poly) :
  0 < q R <= 2 ^ 62 -> length a = length b ->
  Forall (fun x => 0 <= x < q R) a -> Forall (fun x => 0 <= x < q R) b ->
  sub R a b = add R a (neg R b).
Proof.
  intros Hq Hlen Ha Hb.
  rewrite sub_same, add_same by (rewrite ?length_neg; lia). f_equal.
  apply poly_eq.
  { rewrite !length_zip_with, length_neg. lia. }
  intros i Hi. rewrite length_zip_with in Hi.
  rewrite !coef_zip_with by (rewrite ?length_neg; lia).
  unfold neg. rewrite coef_map by lia.
  pose proof (Forall_coef _ a i Ha ltac:(lia)) as Hx. simpl in Hx.
  pose proof (Forall_coef _ b i Hb ltac:(lia)) as Hy. simpl in Hy.
  rewrite !np_mod_pos by lia.
  rewrite (wrap64_small (- coef b i)) by (unfold min_int, max_int; lia).
  pose proof (Z.mod_pos_bound (- coef b i) (q R) ltac:(lia)).
  rewrite !wrap64_small by (unfold min_int, max_int; lia).
  rewrite Zplus_mod_idemp_r. f_equal.
Qed.

(** X8: on canonical polynomials of equal length, subtracting is adding
    the negation (for [0 < q <= 2^62]). *)
Theorem sub_is_add_neg R (a b : poly) :
  0 < q R <= 2 ^ 62 -> length a = length b ->
  Forall (fun x => 0 <= x < q R) a -> Forall (fun x => 0 <= x < q R) b ->
  sub R a b = add R a (neg R b).
Proof. apply sub_add_neg_poly. Qed.

Lemma sub_is_add_neg_witness :
  sub ring50 [5; 0] [7; 2 ^ 49] = add ring50 [5; 0] (neg ring50 [7; 2 ^ 49]).
Proof.
  apply (sub_is_add_neg Examples.ring50 [5; 0] [7; 2 ^ 49]).
  - simpl. lia.
  - reflexivity.
  - repeat constructor; simpl; lia.
  - repeat constructor; simpl; lia.
Defined.

(** X9: [mod_center] maps a canonical coefficient to its centred
    representative: congruent modulo [q] and in
    [[-(q-1)//2, q//2]] (for [0 < q <= 2^63 - 1], a modulus within
    [int64]). *)
Theorem mod_center_centred R (a : poly) :
  0 < q R <= max_int -> Forall (fun x => 0 <= x < q R) a ->
  length (mod_center R a) = length a
  /\ forall k, (k < length a)%nat ->
       coef (mod_center R a) k mod q R = coef a k
       /\ - ((q R - 1) / 2) <= coef (mod_center R a) k <= q R / 2.
Proof.
  intros Hq Ha. unfold max_int in Hq.
  unfold mod_center. split; [apply length_map|].
  intros k Hk. rewrite coef_map by lia.
  pose proof (Forall_coef _ a k Ha Hk) as Hx. simpl in Hx.
  pose proof (Z.div_mod (q R) 2 ltac:(lia)) as Hq2.
  pose proof (Z.mod_pos_bound (q R) 2 ltac:(lia)) as Hr2.
  pose proof (Z.div_mod (q R - 1) 2 ltac:(lia)) as Hq3.
  pose proof (Z.mod_pos_bound (q R - 1) 2 ltac:(lia)) as Hr3.
  destruct (Z.ltb_spec (q R / 2) (coef a k)).
  - rewrite wrap64_small by (unfold min_int, max_int; lia). split.
    + replace (coef a k - q R) with (coef a k + (-1) * q R) by lia.
      rewrite Z.mod_add by lia. apply Z.mod_small. exact Hx.
    + lia.
  - split; [apply Z.mod_small; exact Hx|lia].
Qed.

Lemma mod_center_centred_witness :
  length (mod_center ring50 [5; 2 ^ 50 - 3]) = 2%nat
  /\ forall k, (k < 2)%nat ->
       coef (mod_center ring50 [5; 2 ^ 50 - 3]) k mod (2 ^ 50 - 1)
       = coef [5; 2 ^ 50 - 3] k
       /\ - ((2 ^ 50 - 1 - 1) / 2)
          <= coef (mod_center ring50 [5; 2 ^ 50 - 3]) k <= (2 ^ 50 - 1) / 2.
Proof.
  apply (mod_center_centred Examples.ring50 [5; 2 ^ 50 - 3]).
  - unfold max_int. simpl. lia.
  - repeat constructor; simpl; lia.
Defined.

End RingExtras.

(** ** bfv_scheme.py: encryption, decryption and evaluation *)

(** Discharges the side conditions of a theorem at a concrete input. *)
Ltac concrete :=
  repeat match goal with
         | |- _ /\ _ => split
         | |- Forall _ (_ :: _) => constructor
         | |- Forall _ [] => constructor
         end;
  first [ reflexivity | simpl; lia
        | vm_compute; first [ reflexivity | discriminate | lia ] ].

Section SchemeExtras.

Import Int64 BFVScheme.

Lemma map_coef_seq (m : poly) n :
  length m = n -> map (coef m) (seq 0 n) = m.
Proof.
  intros Hlen. apply poly_eq; [rewrite length_map_seq; lia|].
  intros i Hi. rewrite length_map_seq in Hi. apply coef_map_seq. exact Hi.
Qed.

(** X10: the rounding step
    [np.round(x.astype(np.float64) / d).astype(np.int64)] of [decrypt] and
    [multiply] returns the integer [k] whenever the exact quotient [x / d]
    is strictly closer than a quarter to [k], for operands below [2^53]
    (which binary64 represents exactly). *)
Theorem round_div_nearest (x d k : Z) :
  0 <= x < 2 ^ 53 -> 0 < d < 2 ^ 53 ->
  4 * Z.abs (x - k * d) < d ->
  Float64.np_round_div x d = k.
Proof. apply np_round_div_near. Qed.

Lemma round_div_nearest_witness :
  Float64.np_round_div (42 * 17179607043 + 147474) 17179607043 = 42.
Proof.
  apply (round_div_nearest (42 * 17179607043 + 147474) 17179607043 42);
    [lia | lia | vm_compute; reflexivity].
Defined.

(** X11: noise budget of [decrypt].  If a size-2 canonical ciphertext
    satisfies [c0 + c1 s = delta m + e (mod q)] with [0 <= m < t] and
    [4 (|e| + t) < delta] at every coefficient, then [decrypt] returns
    exactly the plaintext [m], provided the ring product does not overflow
    ([N q <= 2^63]) and [q < 2^53]. *)
Theorem decrypt_within_noise_budget sch s0 ct m E :
  scheme_inv sch -> (0 < N sch)%nat -> 0 < q sch < 2 ^ 53 -> 0 < t sch ->
  Z.of_nat (N sch) * q sch <= 2 ^ 63 ->
  small sch 1 s0 -> secret_key sch = Some {| s := s0 |} ->
  decrypts_to sch s0 ct m E -> 4 * (E + t sch) < delta sch ->
  decrypt sch ct
  = Ok {| Plaintext.poly := map m (seq 0 (N sch));
          Plaintext.params := scheme_params sch |}.
Proof.
  intros Hinv HN Hq Ht Hfit Hs0 Hsk Hct Hbudget.
  apply (decrypt_invariant sch Hinv HN Hq Ht Hfit s0 Hs0 Hsk ct m E);
    assumption.
Qed.

Lemma decrypt_within_noise_budget_witness :
  decrypt wide_keys ct_noisy
  = Ok {| Plaintext.poly := map (coef [42; 7; 0; 0]) (seq 0 4);
          Plaintext.params := scheme_params wide_keys |}.
Proof.
  apply (decrypt_within_noise_budget wide_keys [1; 0; -1; 1] ct_noisy
           (coef [42; 7; 0; 0]) 5);
    [ unfold scheme_inv; concrete | concrete | concrete | concrete
    | concrete | unfold small; concrete | reflexivity | | concrete ].
  exists [721543495811; 120257249298; 0; 0], [0; 0; 0; 0].
  split; [reflexivity|].
  split; [unfold canonical; concrete|].
  split; [unfold canonical; concrete|].
  intros k Hk.
  destruct k as [|[|[|[|k]]]]; [| | | |simpl in Hk; lia];
    (split; [vm_compute; split; [discriminate|reflexivity]|]).
  - exists 5. split; vm_compute; [discriminate|reflexivity].
  - exists (-3). split; vm_compute; [discriminate|reflexivity].
  - exists 0. split; vm_compute; [discriminate|reflexivity].
  - exists 0. split; vm_compute; [discriminate|reflexivity].
Defined.

(** X12: [key_generation] on draws within the samplers' ranges returns and
    stores [s] and [(b, a)], where [b] is canonical and
    [b + a s + e = 0 (mod q)] coefficient by coefficient; the parameters
    of the instance are unchanged. *)
Theorem key_generation_relation sch s0 a e :
  scheme_inv sch -> (0 < N sch)%nat -> 0 < q sch <= 2 ^ 62 ->
  Z.of_nat (N sch) * q sch <= 2 ^ 63 -> noise_bound sch <= 2 ^ 62 ->
  small sch 1 s0 -> canonical sch a -> small sch (noise_bound sch) e ->
  exists b,
    key_generation sch s0 a e
    = Ok (with_keys sch {| s := s0 |} {| pk0 := b; pk1 := a |})
    /\ canonical sch b
    /\ forall k, (k < N sch)%nat ->
         (coef b k + negacyclic (N sch) a s0 k + coef e k) mod q sch = 0.
Proof.
  intros Hinv HN Hq Hfit HB Hs0 Ha He.
  destruct (key_generation_spec sch s0 a e (noise_bound sch)
              Hinv HN Hq Hfit HB Hs0 Ha He) as (b & Hkg & Hcan & Hb).
  exists b. split; [exact Hkg|]. split; [exact Hcan|].
  intros k Hk.
  rewrite <- Z.add_assoc, Zplus_mod, (Hb k Hk), <- Zplus_mod.
  rewrite Z.add_opp_diag_l. apply Z.mod_0_l. lia.
Qed.

Lemma key_generation_relation_witness :
  exists b,
    key_generation wide [1; 0; -1; 1] [123456789; 987654321; 5; 2 ^ 49]
      [3; -18; 0; 7]
    = Ok (with_keys wide {| s := [1; 0; -1; 1] |}
            {| pk0 := b; pk1 := [123456789; 987654321; 5; 2 ^ 49] |})
    /\ canonical wide b
    /\ forall k, (k < 4)%nat ->
         (coef b k
          + negacyclic 4 [123456789; 987654321; 5; 2 ^ 49] [1; 0; -1; 1] k
          + coef [3; -18; 0; 7] k) mod (2 ^ 50 - 1) = 0.
Proof.
  apply (key_generation_relation wide
           [1; 0; -1; 1] [123456789; 987654321; 5; 2 ^ 49] [3; -18; 0; 7]);
    unfold scheme_inv, small, canonical; concrete.
Defined.

Lemma exact_params_with_keys sch sk pk :
  exact_params sch -> exact_params (with_keys sch sk pk).
Proof. intros H. exact H. Qed.

Lemma fresh_noise_nonneg sch : exact_params sch -> 0 <= fresh_noise sch.
Proof. intros (_ & _ & _ & _ & _ & HB). unfold fresh_noise. nia. Qed.

Lemma delta_le_q sch :
  exact_params sch -> 0 <= delta sch /\ t sch * delta sch <= q sch.
Proof.
  intros ((_ & _ & Hd) & _ & Ht & Hq & _). rewrite Hd. split.
  - apply Z.div_pos; lia.
  - apply Z.mul_div_le. lia.
Qed.

(** A fresh encryption under keys generated from [s0], [a], [e]
    satisfies the ciphertext invariant with noise [fresh_noise]. *)
Lemma fresh_encryption sch s0 a e p u e1 e2 :
  exact_params sch -> 4 * fresh_noise sch < delta sch ->
  key_draws sch s0 a e -> is_plaintext sch p -> encrypt_draws sch u e1 e2 ->
  exists b ct,
    key_generation sch s0 a e
    = Ok (with_keys sch {| s := s0 |} {| pk0 := b; pk1 := a |})
    /\ encrypt (with_keys sch {| s := s0 |} {| pk0 := b; pk1 := a |})
         {| Plaintext.poly := p; Plaintext.params := scheme_params sch |}
         u e1 e2 = Ok ct
    /\ Ciphertext.size ct = 2%nat
    /\ decrypts_to sch s0 ct (coef p) (fresh_noise sch).
Proof.
  intros Hex Hbudget (Hs0 & Ha & He) (Hlp & Hp) (Hu & He1 & He2).
  pose proof (delta_le_q sch Hex) as Hdq.
  pose proof (fresh_noise_nonneg sch Hex) as Hfn.
  destruct Hex as (Hinv & HN & Ht & Hq & Hfit & HB).
  assert (HB62 : noise_bound sch <= 2 ^ 62) by (unfold fresh_noise in *; nia).
  destruct (key_generation_spec sch s0 a e (noise_bound sch)
              Hinv HN ltac:(lia) Hfit HB62 Hs0 Ha He) as (b & Hkg & Hb).
  set (sch' := with_keys sch {| s := s0 |} {| pk0 := b; pk1 := a |}).
  destruct (encrypt_invariant sch' Hinv HN ltac:(simpl; lia) Ht Hfit
              s0 a e b (noise_bound sch) ltac:(lia) Hs0 Ha He Hb eq_refl
              {| Plaintext.poly := p; Plaintext.params := scheme_params sch |}
              u e1 e2 Hlp Hp Hu He1 He2)
    as (ct & Henc & Hsize & _ & Hdec).
  exists b, ct. repeat split; assumption.
Qed.

(** Round trip, with the instance after key generation made explicit. *)
Lemma encrypt_decrypt_roundtrip_aux sch s0 a e p u e1 e2 :
  exact_params sch -> 4 * (fresh_noise sch + t sch) < delta sch ->
  key_draws sch s0 a e -> is_plaintext sch p -> encrypt_draws sch u e1 e2 ->
  exists b ct,
    key_generation sch s0 a e
    = Ok (with_keys sch {| s := s0 |} {| pk0 := b; pk1 := a |})
    /\ encrypt (with_keys sch {| s := s0 |} {| pk0 := b; pk1 := a |})
         {| Plaintext.poly := p; Plaintext.params := scheme_params sch |}
         u e1 e2 = Ok ct
    /\ decrypt (with_keys sch {| s := s0 |} {| pk0 := b; pk1 := a |}) ct
       = Ok {| Plaintext.poly := p; Plaintext.params := scheme_params sch |}.
Proof.
  intros Hex Hbudget Hkey Hp Henc.
  destruct (fresh_encryption sch s0 a e p u e1 e2 Hex
              ltac:(destruct Hex as (_ & _ & ? & _); lia)
              Hkey Hp Henc) as (b & ct & Hkg & Hct & _ & Hdec).
  exists b, ct. split; [exact Hkg|]. split; [exact Hct|].
  rewrite <- (map_coef_seq p (N sch)) by apply Hp.
  destruct Hex as (Hinv & HN & Ht & Hq & Hfit & HB).
  apply (decrypt_invariant
           (with_keys sch {| s := s0 |} {| pk0 := b; pk1 := a |})
           Hinv HN Hq Ht Hfit s0 (proj1 Hkey) eq_refl
           ct (coef p) (fresh_noise sch) Hdec Hbudget).
Qed.

(** X13: encrypt-decrypt round trip.  With exact parameters and a noise
    budget [4 (fresh_noise + t) < delta], for every outcome of the
    samplers within their ranges, decrypting a fresh encryption of a
    plaintext returns that plaintext. *)
Theorem encrypt_decrypt_roundtrip sch s0 a e p u e1 e2 :
  exact_params sch -> 4 * (fresh_noise sch + t sch) < delta sch ->
  key_draws sch s0 a e -> is_plaintext sch p -> encrypt_draws sch u e1 e2 ->
  exists sch' ct,
    key_generation sch s0 a e = Ok sch'
    /\ encrypt sch'
         {| Plaintext.poly := p; Plaintext.params := scheme_params sch |}
         u e1 e2 = Ok ct
    /\ decrypt sch' ct
       = Ok {| Plaintext.poly := p; Plaintext.params := scheme_params sch |}.
Proof.
  intros Hex Hbudget Hkey Hp Henc.
  destruct (fresh_encryption sch s0 a e p u e1 e2 Hex ltac:(destruct Hex as (_ & _ & ? & _); lia)
              Hkey Hp Henc) as (b & ct & Hkg & Hct & _ & Hdec).
  eexists. exists ct. split; [exact Hkg|]. split; [exact Hct|].
  rewrite <- (map_coef_seq p (N sch)) by apply Hp.
  destruct Hex as (Hinv & HN & Ht & Hq & Hfit & HB).
  apply (decrypt_invariant
           (with_keys sch {| s := s0 |} {| pk0 := b; pk1 := a |})
           Hinv HN Hq Ht Hfit s0 (proj1 Hkey) eq_refl
           ct (coef p) (fresh_noise sch) Hdec Hbudget).
Qed.

Lemma encrypt_decrypt_roundtrip_witness :
  exists sch' ct,
    key_generation wide [1; 0; -1; 1] [123456789; 987654321; 5; 2 ^ 49]
      [3; -18; 0; 7] = Ok sch'
    /\ encrypt sch'
         {| Plaintext.poly := [42; 0; 65536; 7];
            Plaintext.params := scheme_params wide |}
         [0; 1; -1; 1] [18; -18; 5; 0] [-1; 2; -3; 4] = Ok ct
    /\ decrypt sch' ct
       = Ok {| Plaintext.poly := [42; 0; 65536; 7];
               Plaintext.params := scheme_params wide |}.
Proof.
  apply (encrypt_decrypt_roundtrip wide
           [1; 0; -1; 1] [123456789; 987654321; 5; 2 ^ 49] [3; -18; 0; 7]
           [42; 0; 65536; 7] [0; 1; -1; 1] [18; -18; 5; 0] [-1; 2; -3; 4]);
    unfold exact_params, scheme_inv, key_draws, encrypt_draws, is_plaintext,
      small, canonical; concrete.
Defined.

Lemma zip_with_coef_seq (f : Z -> Z -> Z) (p1 p2 : poly) n :
  length p1 = n -> length p2 = n ->
  map (fun k => f (coef p1 k) (coef p2 k)) (seq 0 n) = zip_with f p1 p2.
Proof.
  intros H1 H2. apply poly_eq.
  - rewrite length_map_seq, length_zip_with. lia.
  - intros i Hi. rewrite length_map_seq in Hi.
    rewrite coef_map_seq, coef_zip_with by lia. reflexivity.
Qed.

(** Two fresh encryptions under the same keys. *)
Lemma two_fresh_encryptions sch s0 a e p1 u1 e11 e12 p2 u2 e21 e22 :
  exact_params sch -> 4 * fresh_noise sch < delta sch ->
  key_draws sch s0 a e ->
  is_plaintext sch p1 -> encrypt_draws sch u1 e11 e12 ->
  is_plaintext sch p2 -> encrypt_draws sch u2 e21 e22 ->
  exists b ct1 ct2,
    key_generation sch s0 a e
    = Ok (with_keys sch {| s := s0 |} {| pk0 := b; pk1 := a |})
    /\ encrypt (with_keys sch {| s := s0 |} {| pk0 := b; pk1 := a |})
         {| Plaintext.poly := p1; Plaintext.params := scheme_params sch |}
         u1 e11 e12 = Ok ct1
    /\ encrypt (with_keys sch {| s := s0 |} {| pk0 := b; pk1 := a |})
         {| Plaintext.poly := p2; Plaintext.params := scheme_params sch |}
         u2 e21 e22 = Ok ct2
    /\ decrypts_to sch s0 ct1 (coef p1) (fresh_noise sch)
    /\ decrypts_to sch s0 ct2 (coef p2) (fresh_noise sch).
Proof.
  intros Hex Hbudget Hkey Hp1 Hd1 Hp2 Hd2.
  destruct (fresh_encryption sch s0 a e p1 u1 e11 e12 Hex Hbudget
              Hkey Hp1 Hd1) as (b & ct1 & Hkg & Hct1 & _ & Hdec1).
  destruct (fresh_encryption sch s0 a e p2 u2 e21 e22 Hex Hbudget
              Hkey Hp2 Hd2) as (b' & ct2 & Hkg' & Hct2 & _ & Hdec2).
  rewrite Hkg in Hkg'. injection Hkg' as <-.
  exists b, ct1, ct2. repeat split; assumption.
Qed.

(** [add] and [sub] of two fresh encryptions, with the instance after
    key generation made explicit. *)
Lemma homomorphic_add_aux sch s0 a e p1 u1 e11 e12 p2 u2 e21 e22 :
  exact_params sch -> 8 * (fresh_noise sch + t sch) < delta sch ->
  key_draws sch s0 a e ->
  is_plaintext sch p1 -> encrypt_draws sch u1 e11 e12 ->
  is_plaintext sch p2 -> encrypt_draws sch u2 e21 e22 ->
  exists b ct1 ct2 ct,
    let sch' := with_keys sch {| s := s0 |} {| pk0 := b; pk1 := a |} in
    key_generation sch s0 a e = Ok sch'
    /\ encrypt sch'
         {| Plaintext.poly := p1; Plaintext.params := scheme_params sch |}
         u1 e11 e12 = Ok ct1
    /\ encrypt sch'
         {| Plaintext.poly := p2; Plaintext.params := scheme_params sch |}
         u2 e21 e22 = Ok ct2
    /\ add sch' ct1 ct2 = Ok ct
    /\ decrypt sch' ct
       = Ok {| Plaintext.poly :=
                 zip_with (fun x y => (x + y) mod t sch) p1 p2;
               Plaintext.params := scheme_params sch |}.
Proof.
  intros Hex Hbudget Hkey Hp1 Hd1 Hp2 Hd2.
  pose proof (fresh_noise_nonneg sch Hex) as Hfn.
  assert (Ht : 0 < t sch) by apply Hex.
  destruct (two_fresh_encryptions sch s0 a e p1 u1 e11 e12 p2 u2 e21 e22
              Hex ltac:(lia) Hkey Hp1 Hd1 Hp2 Hd2)
    as (b & ct1 & ct2 & Hkg & Hct1 & Hct2 & Hdec1 & Hdec2).
  destruct Hex as (Hinv & HN & _ & Hq & Hfit & HB).
  set (sch' := with_keys sch {| s := s0 |} {| pk0 := b; pk1 := a |}) in *.
  destruct (add_invariant sch' Hinv HN ltac:(simpl; lia) Ht s0
              ct1 ct2 _ _ _ _ Hdec1 Hdec2) as (ct & Hadd & _ & _ & Hdec).
  exists b, ct1, ct2, ct. fold sch'. cbv zeta.
  repeat split; try assumption.
  rewrite <- (zip_with_coef_seq (fun x y => (x + y) mod t sch) p1 p2 (N sch))
    by (try apply Hp1; apply Hp2).
  apply (decrypt_invariant sch' Hinv HN Hq Ht Hfit s0 (proj1 Hkey) eq_refl
           ct _ _ Hdec).
  simpl. lia.
Qed.

Lemma homomorphic_sub_aux sch s0 a e p1 u1 e11 e12 p2 u2 e21 e22 :
  exact_params sch -> 8 * (fresh_noise sch + t sch) < delta sch ->
  key_draws sch s0 a e ->
  is_plaintext sch p1 -> encrypt_draws sch u1 e11 e12 ->
  is_plaintext sch p2 -> encrypt_draws sch u2 e21 e22 ->
  exists b ct1 ct2 ct,
    let sch' := with_keys sch {| s := s0 |} {| pk0 := b; pk1 := a |} in
    key_generation sch s0 a e = Ok sch'
    /\ encrypt sch'
         {| Plaintext.poly := p1; Plaintext.params := scheme_params sch |}
         u1 e11 e12 = Ok ct1
    /\ encrypt sch'
         {| Plaintext.poly := p2; Plaintext.params := scheme_params sch |}
         u2 e21 e22 = Ok ct2
    /\ sub sch' ct1 ct2 = Ok ct
    /\ decrypt sch' ct
       = Ok {| Plaintext.poly :=
                 zip_with (fun x y => (x - y) mod t sch) p1 p2;
               Plaintext.params := scheme_params sch |}.
Proof.
  intros Hex Hbudget Hkey Hp1 Hd1 Hp2 Hd2.
  pose proof (fresh_noise_nonneg sch Hex) as Hfn.
  assert (Ht : 0 < t sch) by apply Hex.
  destruct (two_fresh_encryptions sch s0 a e p1 u1 e11 e12 p2 u2 e21 e22
              Hex ltac:(lia) Hkey Hp1 Hd1 Hp2 Hd2)
    as (b & ct1 & ct2 & Hkg & Hct1 & Hct2 & Hdec1 & Hdec2).
  destruct Hex as (Hinv & HN & _ & Hq & Hfit & HB).
  set (sch' := with_keys sch {| s := s0 |} {| pk0 := b; pk1 := a |}) in *.
  destruct (sub_invariant sch' Hinv HN ltac:(simpl; lia) Ht s0
              ct1 ct2 _ _ _ _ Hdec1 Hdec2) as (ct & Hsub & _ & _ & Hdec).
  exists b, ct1, ct2, ct. fold sch'. cbv zeta.
  repeat split; try assumption.
  rewrite <- (zip_with_coef_seq (fun x y => (x - y) mod t sch) p1 p2 (N sch))
    by (try apply Hp1; apply Hp2).
  apply (decrypt_invariant sch' Hinv HN Hq Ht Hfit s0 (proj1 Hkey) eq_refl
           ct _ _ Hdec).
  simpl. lia.
Qed.

(** X15: homomorphic addition.  With exact parameters and a noise budget
    [8 (fresh_noise + t) < delta], for every outcome of the samplers,
    [add] of two fresh encryptions decrypts to the coefficient-wise sum of
    the plaintexts modulo [t]. *)
Theorem homomorphic_add sch s0 a e p1 u1 e11 e12 p2 u2 e21 e22 :
  exact_params sch -> 8 * (fresh_noise sch + t sch) < delta sch ->
  key_draws sch s0 a e ->
  is_plaintext sch p1 -> encrypt_draws sch u1 e11 e12 ->
  is_plaintext sch p2 -> encrypt_draws sch u2 e21 e22 ->
  exists sch' ct1 ct2 ct,
    key_generation sch s0 a e = Ok sch'
    /\ encrypt sch'
         {| Plaintext.poly := p1; Plaintext.params := scheme_params sch |}
         u1 e11 e12 = Ok ct1
    /\ encrypt sch'
         {| Plaintext.poly := p2; Plaintext.params := scheme_params sch |}
         u2 e21 e22 = Ok ct2
    /\ add sch' ct1 ct2 = Ok ct
    /\ decrypt sch' ct
       = Ok {| Plaintext.poly :=
                 zip_with (fun x y => (x + y) mod t sch) p1 p2;
               Plaintext.params := scheme_params sch |}.
Proof.
  intros Hex Hbudget Hkey Hp1 Hd1 Hp2 Hd2.
  destruct (homomorphic_add_aux sch s0 a e p1 u1 e11 e12 p2 u2 e21 e22
              Hex Hbudget Hkey Hp1 Hd1 Hp2 Hd2)
    as (b & ct1 & ct2 & ct & H).
  eexists. exists ct1, ct2, ct. exact H.
Qed.

(** X16: homomorphic subtraction.  Under the same conditions [sub] of two
    fresh encryptions decrypts to the coefficient-wise difference of the
    plaintexts modulo [t]. *)
Theorem homomorphic_sub sch s0 a e p1 u1 e11 e12 p2 u2 e21 e22 :
  exact_params sch -> 8 * (fresh_noise sch + t sch) < delta sch ->
  key_draws sch s0 a e ->
  is_plaintext sch p1 -> encrypt_draws sch u1 e11 e12 ->
  is_plaintext sch p2 -> encrypt_draws sch u2 e21 e22 ->
  exists sch' ct1 ct2 ct,
    key_generation sch s0 a e = Ok sch'
    /\ encrypt sch'
         {| Plaintext.poly := p1; Plaintext.params := scheme_params sch |}
         u1 e11 e12 = Ok ct1
    /\ encrypt sch'
         {| Plaintext.poly := p2; Plaintext.params := scheme_params sch |}
         u2 e21 e22 = Ok ct2
    /\ sub sch' ct1 ct2 = Ok ct
    /\ decrypt sch' ct
       = Ok {| Plaintext.poly :=
                 zip_with (fun x y => (x - y) mod t sch) p1 p2;
               Plaintext.params := scheme_params sch |}.
Proof.
  intros Hex Hbudget Hkey Hp1 Hd1 Hp2 Hd2.
  destruct (homomorphic_sub_aux sch s0 a e p1 u1 e11 e12 p2 u2 e21 e22
              Hex Hbudget Hkey Hp1 Hd1 Hp2 Hd2)
    as (b & ct1 & ct2 & ct & H).
  eexists. exists ct1, ct2, ct. exact H.
Qed.

Lemma homomorphic_add_witness :
  exists sch' ct1 ct2 ct,
    key_generation wide [1; 0; -1; 1] [123456789; 987654321; 5; 2 ^ 49]
      [3; -18; 0; 7] = Ok sch'
    /\ encrypt sch'
         {| Plaintext.poly := [100; 0; 65536; 7];
            Plaintext.params := scheme_params wide |}
         [0; 1; -1; 1] [18; -18; 5; 0] [-1; 2; -3; 4] = Ok ct1
    /\ encrypt sch'
         {| Plaintext.poly := [200; 5; 65536; 65530];
            Plaintext.params := scheme_params wide |}
         [1; 1; 0; -1] [-18; 18; 0; 1] [4; -3; 2; -1] = Ok ct2
    /\ add sch' ct1 ct2 = Ok ct
    /\ decrypt sch' ct
       = Ok {| Plaintext.poly :=
                 zip_with (fun x y => (x + y) mod 65537)
                   [100; 0; 65536; 7] [200; 5; 65536; 65530];
               Plaintext.params := scheme_params wide |}.
Proof.
  apply (homomorphic_add wide
           [1; 0; -1; 1] [123456789; 987654321; 5; 2 ^ 49] [3; -18; 0; 7]
           [100; 0; 65536; 7] [0; 1; -1; 1] [18; -18; 5; 0] [-1; 2; -3; 4]
           [200; 5; 65536; 65530] [1; 1; 0; -1] [-18; 18; 0; 1] [4; -3; 2; -1]);
    unfold exact_params, scheme_inv, key_draws, encrypt_draws, is_plaintext,
      small, canonical; concrete.
Defined.

Lemma homomorphic_sub_witness :
  exists sch' ct1 ct2 ct,
    key_generation wide [1; 0; -1; 1] [123456789; 987654321; 5; 2 ^ 49]
      [3; -18; 0; 7] = Ok sch'
    /\ encrypt sch'
         {| Plaintext.poly := [500; 0; 65536; 7];
            Plaintext.params := scheme_params wide |}
         [0; 1; -1; 1] [18; -18; 5; 0] [-1; 2; -3; 4] = Ok ct1
    /\ encrypt sch'
         {| Plaintext.poly := [200; 5; 65536; 65530];
            Plaintext.params := scheme_params wide |}
         [1; 1; 0; -1] [-18; 18; 0; 1] [4; -3; 2; -1] = Ok ct2
    /\ sub sch' ct1 ct2 = Ok ct
    /\ decrypt sch' ct
       = Ok {| Plaintext.poly :=
                 zip_with (fun x y => (x - y) mod 65537)
                   [500; 0; 65536; 7] [200; 5; 65536; 65530];
               Plaintext.params := scheme_params wide |}.
Proof.
  apply (homomorphic_sub wide
           [1; 0; -1; 1] [123456789; 987654321; 5; 2 ^ 49] [3; -18; 0; 7]
           [500; 0; 65536; 7] [0; 1; -1; 1] [18; -18; 5; 0] [-1; 2; -3; 4]
           [200; 5; 65536; 65530] [1; 1; 0; -1] [-18; 18; 0; 1] [4; -3; 2; -1]);
    unfold exact_params, scheme_inv, key_draws, encrypt_draws, is_plaintext,
      small, canonical; concrete.
Defined.

(** [encode] of an integer. *)
Lemma encode_scalar sch v :
  (0 < N sch)%nat -> 0 < t sch ->
  encode sch (VInt v)
  = Ok {| Plaintext.poly := v mod t sch :: replicate (N sch - 1) 0;
          Plaintext.params := scheme_params sch |}
  /\ is_plaintext sch (v mod t sch :: replicate (N sch - 1) 0).
Proof.
  intros HN Ht. split.
  - unfold encode. destruct (Z.eqb_spec (t sch) 0) as [|_]; [lia|].
    destruct (N sch) as [|n]; [lia|]. simpl.
    rewrite Nat.sub_0_r. reflexivity.
  - split; [simpl; rewrite length_replicate; lia|].
    constructor; [apply Z.mod_pos_bound; lia|].
    apply Forall_forall. intros x Hx.
    apply elem_of_replicate in Hx. lia.
Qed.

(** [decode] with [num_values = 1] when [t - 1 <= q // 2]. *)
Lemma decode_first sch x rest ps :
  scheme_inv sch -> 0 < t sch -> t sch - 1 <= q sch / 2 ->
  decode sch {| Plaintext.poly := x :: rest; Plaintext.params := ps |} 1
  = Ok (DInt (x mod t sch)).
Proof.
  intros Hinv Ht Hhalf. unfold decode, Plaintext.get_poly.
  cbn [Plaintext.poly]. rewrite mod_center_plain by assumption.
  reflexivity.
Qed.

Lemma budget_half sch :
  exact_params sch -> 4 * t sch < delta sch -> t sch - 1 <= q sch / 2.
Proof.
  intros Hex Hb. pose proof (delta_le_q sch Hex) as [Hd Hq].
  destruct Hex as (_ & _ & Ht & Hq53 & _).
  apply Z.div_le_lower_bound; [lia|]. nia.
Qed.

Lemma scalar_roundtrip_aux sch s0 a e v u e1 e2 :
  exact_params sch -> 4 * (fresh_noise sch + t sch) < delta sch ->
  key_draws sch s0 a e -> encrypt_draws sch u e1 e2 ->
  exists sch' pt ct pt',
    key_generation sch s0 a e = Ok sch'
    /\ encode sch' (VInt v) = Ok pt
    /\ encrypt sch' pt u e1 e2 = Ok ct
    /\ decrypt sch' ct = Ok pt'
    /\ decode sch' pt' 1 = Ok (DInt (v mod t sch)).
Proof.
  intros Hex Hbudget Hkey Hdraws.
  pose proof (fresh_noise_nonneg sch Hex) as Hfn.
  pose proof (budget_half sch Hex ltac:(lia)) as Hhalf.
  assert (HN : (0 < N sch)%nat) by apply Hex.
  assert (Ht : 0 < t sch) by apply Hex.
  destruct (encode_scalar sch v HN Ht) as [Henc Hpt].
  destruct (encrypt_decrypt_roundtrip_aux sch s0 a e _ u e1 e2
              Hex Hbudget Hkey Hpt Hdraws) as (b & ct & Hkg & Hct & Hdec).
  do 4 eexists. split; [exact Hkg|]. split; [exact Henc|].
  split; [exact Hct|]. split; [exact Hdec|].
  etransitivity;
    [apply decode_first; [exact (proj1 Hex) | exact Ht | exact Hhalf]|].
  cbn [t with_keys]. rewrite Z.mod_mod by lia. reflexivity.
Qed.

(** The parameters of the test suite, [BFVScheme(N=4096, t=65537,
    q_bits=50)] with the default [sigma = 3.2], are exact and leave the
    noise budget of the round trips and of one addition or subtraction. *)
Lemma test_suite_parameters sch :
  init 4096 65537 50 (16 # 5) = Ok sch ->
  exact_params sch /\ 8 * (fresh_noise sch + t sch) < delta sch.
Proof.
  intros H. vm_compute in H. injection H as <-.
  unfold exact_params, scheme_inv.
  repeat split;
    first [reflexivity | simpl; lia | vm_compute; congruence].
Qed.

(** X14: scalar round trip.  With exact parameters and a noise budget
    [4 (fresh_noise + t) < delta], for every integer [v] and every outcome
    of the samplers, [decode(decrypt(encrypt(encode(v))))] is [v mod t]:
    [v] itself for [0 <= v < t], and [v + t] for [-t <= v < 0]. *)
Theorem scalar_roundtrip sch s0 a e v u e1 e2 :
  exact_params sch -> 4 * (fresh_noise sch + t sch) < delta sch ->
  key_draws sch s0 a e -> encrypt_draws sch u e1 e2 ->
  exists sch' pt ct pt',
    key_generation sch s0 a e = Ok sch'
    /\ encode sch' (VInt v) = Ok pt
    /\ encrypt sch' pt u e1 e2 = Ok ct
    /\ decrypt sch' ct = Ok pt'
    /\ decode sch' pt' 1 = Ok (DInt (v mod t sch)).
Proof. exact (scalar_roundtrip_aux sch s0 a e v u e1 e2). Qed.

Lemma scalar_roundtrip_witness :
  exists sch' pt ct pt',
    key_generation wide [1; 0; -1; 1] [123456789; 987654321; 5; 2 ^ 49]
      [3; -18; 0; 7] = Ok sch'
    /\ encode sch' (VInt (-5)) = Ok pt
    /\ encrypt sch' pt [0; 1; -1; 1] [18; -18; 5; 0] [-1; 2; -3; 4] = Ok ct
    /\ decrypt sch' ct = Ok pt'
    /\ decode sch' pt' 1 = Ok (DInt (-5 mod 65537)).
Proof.
  apply (scalar_roundtrip wide
           [1; 0; -1; 1] [123456789; 987654321; 5; 2 ^ 49] [3; -18; 0; 7]
           (-5) [0; 1; -1; 1] [18; -18; 5; 0] [-1; 2; -3; 4]);
    unfold exact_params, scheme_inv, key_draws, encrypt_draws,
      small, canonical; concrete.
Defined.

(** X17: exact match by subtraction, the query pattern of
    [fhe_custom_exact_match.py], for instances with exact parameters and
    noise budget [8 (fresh_noise + t) < delta].  Encrypting two integers
    [x] and [y], subtracting the ciphertexts, decrypting and decoding
    gives [(x - y) mod t]; the test [diff == 0] therefore holds exactly
    when [x] and [y] are congruent modulo [t].  (The instance built by
    the script's [main], with [N = 8192] and 60-bit [q], is outside these
    conditions.) *)
Theorem exact_match_difference sch s0 a e x y u1 e11 e12 u2 e21 e22 :
  exact_params sch -> 8 * (fresh_noise sch + t sch) < delta sch ->
  key_draws sch s0 a e ->
  encrypt_draws sch u1 e11 e12 -> encrypt_draws sch u2 e21 e22 ->
  exists sch' pt1 pt2 ct1 ct2 diff pt',
    key_generation sch s0 a e = Ok sch'
    /\ encode sch' (VInt x) = Ok pt1 /\ encode sch' (VInt y) = Ok pt2
    /\ encrypt sch' pt1 u1 e11 e12 = Ok ct1
    /\ encrypt sch' pt2 u2 e21 e22 = Ok ct2
    /\ sub sch' ct1 ct2 = Ok diff
    /\ decrypt sch' diff = Ok pt'
    /\ decode sch' pt' 1 = Ok (DInt ((x - y) mod t sch))
    /\ ((x - y) mod t sch = 0 <-> x mod t sch = y mod t sch).
Proof.
  intros Hex Hbudget Hkey Hd1 Hd2.
  pose proof (fresh_noise_nonneg sch Hex) as Hfn.
  assert (HN : (0 < N sch)%nat) by apply Hex.
  assert (Ht : 0 < t sch) by apply Hex.
  pose proof (budget_half sch Hex ltac:(lia)) as Hhalf.
  destruct (encode_scalar sch x HN Ht) as [Hencx Hptx].
  destruct (encode_scalar sch y HN Ht) as [Hency Hpty].
  destruct (homomorphic_sub_aux sch s0 a e _ u1 e11 e12 _ u2 e21 e22
              Hex Hbudget Hkey Hptx Hd1 Hpty Hd2)
    as (b & ct1 & ct2 & ct & Hkg & Hct1 & Hct2 & Hsub & Hdec).
  do 7 eexists. split; [exact Hkg|]. split; [exact Hencx|].
  split; [exact Hency|]. split; [exact Hct1|]. split; [exact Hct2|].
  split; [exact Hsub|]. split; [exact Hdec|]. split.
  - cbn [zip_with].
    etransitivity;
      [apply decode_first; [exact (proj1 Hex) | exact Ht | exact Hhalf]|].
    cbn [t with_keys]. rewrite Z.mod_mod by lia.
    rewrite <- Zminus_mod. reflexivity.
  - split; intros H.
    + replace x with ((x - y) + y) at 1 by lia.
      rewrite Zplus_mod, H, Z.add_0_l, Z.mod_mod by lia. reflexivity.
    + rewrite Zminus_mod, H, Z.sub_diag. apply Z.mod_0_l. lia.
Qed.

Lemma exact_match_difference_witness :
  exists sch' pt1 pt2 ct1 ct2 diff pt',
    key_generation wide [1; 0; -1; 1] [123456789; 987654321; 5; 2 ^ 49]
      [3; -18; 0; 7] = Ok sch'
    /\ encode sch' (VInt 20260225) = Ok pt1
    /\ encode sch' (VInt 20194688) = Ok pt2
    /\ encrypt sch' pt1 [0; 1; -1; 1] [18; -18; 5; 0] [-1; 2; -3; 4] = Ok ct1
    /\ encrypt sch' pt2 [1; 1; 0; -1] [-18; 18; 0; 1] [4; -3; 2; -1] = Ok ct2
    /\ sub sch' ct1 ct2 = Ok diff
    /\ decrypt sch' diff = Ok pt'
    /\ decode sch' pt' 1 = Ok (DInt ((20260225 - 20194688) mod 65537))
    /\ ((20260225 - 20194688) mod 65537 = 0
        <-> 20260225 mod 65537 = 20194688 mod 65537).
Proof.
  apply (exact_match_difference wide
           [1; 0; -1; 1] [123456789; 987654321; 5; 2 ^ 49] [3; -18; 0; 7]
           20260225 20194688
           [0; 1; -1; 1] [18; -18; 5; 0] [-1; 2; -3; 4]
           [1; 1; 0; -1] [-18; 18; 0; 1] [4; -3; 2; -1]);
    unfold exact_params, scheme_inv, key_draws, encrypt_draws,
      small, canonical; concrete.
Defined.

End SchemeExtras.

(** ** bfv_scheme.py: encoding, keys and composition of operations *)

Section EncodingExtras.

Import Int64 BFVScheme.

Lemma encode_array_aux sch (vs : list Z) :
  0 < t sch -> (n_slots sch <= N sch)%nat -> Forall in_range vs ->
  ((length vs <= n_slots sch)%nat ->
   exists pt,
     encode sch (VArray vs) = Ok pt
     /\ is_plaintext sch (Plaintext.poly pt)
     /\ Plaintext.params pt = scheme_params sch
     /\ forall i, coef (Plaintext.poly pt) i
                  = if (i <? length vs)%nat then coef vs i mod t sch else 0)
  /\ ((n_slots sch < length vs)%nat ->
      exists msg, encode sch (VArray vs) = Err (ValueError msg)).
Proof.
  intros Ht Hslots Hfit. unfold encode.
  rewrite (proj2 (forallb_fits_int64 vs) Hfit). cbn [negb]. split.
  - intros Hlen. destruct (Nat.ltb_spec (n_slots sch) (length vs)); [lia|].
    eexists. split; [reflexivity|]. cbn [Plaintext.poly Plaintext.params].
    rewrite drop_replicate.
    split; [|split; [reflexivity|]].
    + split.
      * rewrite length_app, length_map, length_replicate. lia.
      * apply Forall_app. split.
        -- apply Forall_map_all. intros x. apply np_mod_range. exact Ht.
        -- apply Forall_forall. intros x Hx.
           apply elem_of_replicate in Hx. lia.
    + intros i. destruct (Nat.ltb_spec i (length vs)).
      * rewrite coef_app_l by (rewrite length_map; lia).
        rewrite coef_map by lia. apply np_mod_pos. exact Ht.
      * unfold coef. rewrite app_nth2 by (rewrite length_map; lia).
        rewrite length_map.
        destruct (nth_in_or_default (i - length vs)
                    (replicate (N sch - length vs) 0) 0)
          as [Hin|Hd]; [|exact Hd].
        apply list_elem_of_In, elem_of_replicate in Hin. apply Hin.
  - intros Hlen. destruct (Nat.ltb_spec (n_slots sch) (length vs)); [|lia].
    eexists. reflexivity.
Qed.

(** X18: [encode] of an array of Python ints, for [0 < t <= 2^63 - 1].
    A value outside [int64] raises [OverflowError].  Otherwise up to
    [n_slots] values are reduced modulo [t], placed in the first
    coefficients and padded with zeros to [N] coefficients; more than
    [n_slots] values raise a [ValueError]. *)
Theorem encode_array sch (vs : list Z) :
  0 < t sch <= max_int -> (n_slots sch <= N sch)%nat ->
  (Forall in_range vs -> (length vs <= n_slots sch)%nat ->
   exists pt,
     encode sch (VArray vs) = Ok pt
     /\ is_plaintext sch (Plaintext.poly pt)
     /\ Plaintext.params pt = scheme_params sch
     /\ forall i, coef (Plaintext.poly pt) i
                  = if (i <? length vs)%nat then coef vs i mod t sch else 0)
  /\ (Forall in_range vs -> (n_slots sch < length vs)%nat ->
      exists msg, encode sch (VArray vs) = Err (ValueError msg))
  /\ (~ Forall in_range vs -> encode sch (VArray vs) = Err OverflowError).
Proof.
  intros [Ht _] Hslots. split; [|split].
  - intros Hfit. exact (proj1 (encode_array_aux sch vs Ht Hslots Hfit)).
  - intros Hfit. exact (proj2 (encode_array_aux sch vs Ht Hslots Hfit)).
  - intros Hfit. unfold encode.
    destruct (forallb fits_int64 vs) eqn:E; [|reflexivity].
    exfalso. apply Hfit, forallb_fits_int64, E.
Qed.

Lemma encode_array_witness :
  (exists pt,
     encode wide (VArray [10; -1]) = Ok pt
     /\ is_plaintext wide (Plaintext.poly pt)
     /\ Plaintext.params pt = scheme_params wide
     /\ forall i, coef (Plaintext.poly pt) i
                  = if (i <? 2)%nat then coef [10; -1] i mod 65537 else 0)
  /\ (exists msg, encode wide (VArray [1; 2; 3]) = Err (ValueError msg))
  /\ encode wide (VArray [2 ^ 63]) = Err OverflowError.
Proof.
  assert (Ht : 0 < t wide <= max_int) by (unfold max_int; simpl; lia).
  assert (Hs : (n_slots wide <= N wide)%nat) by (simpl; lia).
  destruct (encode_array wide [10; -1] Ht Hs) as (H1 & _ & _).
  destruct (encode_array wide [1; 2; 3] Ht Hs) as (_ & H2 & _).
  destruct (encode_array wide [2 ^ 63] Ht Hs) as (_ & _ & H3).
  split; [|split].
  - apply H1; [|simpl; lia].
    repeat constructor; unfold min_int, max_int; simpl; lia.
  - apply H2; [|simpl; lia].
    repeat constructor; unfold min_int, max_int; simpl; lia.
  - apply H3. intros H. inversion H as [|x l Hx _]; subst.
    unfold in_range, max_int in Hx. simpl in Hx. lia.
Defined.

Lemma encode_decode_array_aux sch (vs : list Z) :
  scheme_inv sch -> 0 < t sch -> t sch - 1 <= q sch / 2 ->
  (length vs <= n_slots sch)%nat -> (n_slots sch <= N sch)%nat ->
  Forall in_range vs ->
  exists pt,
    encode sch (VArray vs) = Ok pt
    /\ decode sch pt (length vs)
       = Ok (match vs with
             | [v] => DInt (v mod t sch)
             | _ => DArray (map (fun v => v mod t sch) vs)
             end).
Proof.
  intros Hinv Ht Hhalf Hlen Hslots Hfit. unfold encode.
  rewrite (proj2 (forallb_fits_int64 vs) Hfit). cbn [negb].
  destruct (Nat.ltb_spec (n_slots sch) (length vs)); [lia|].
  eexists. split; [reflexivity|].
  unfold decode, Plaintext.get_poly. cbn [Plaintext.poly].
  rewrite mod_center_plain by assumption.
  rewrite map_app, map_map.
  assert (Hmap : map (fun x => np_mod x (t sch) mod t sch) vs
                 = map (fun v => v mod t sch) vs).
  { apply map_ext. intros x. rewrite np_mod_pos by exact Ht.
    apply Z.mod_mod. lia. }
  rewrite Hmap.
  destruct vs as [|v [|v' vs']].
  - reflexivity.
  - reflexivity.
  - set (l := v :: v' :: vs') in *.
    destruct (Nat.eqb_spec (length l) 1); [simpl in *; lia|].
    rewrite take_app_length' by (rewrite length_map; reflexivity).
    reflexivity.
Qed.

(** X19: encoding round trip, for moduli within [int64]
    ([0 < t], [q <= 2^63 - 1]) and values within [int64].  When
    [t - 1 <= q // 2], decoding the encoding of at most [n_slots] values
    returns the values modulo [t]: as an array, or as a single integer
    when exactly one value is asked for. *)
Theorem encode_decode_array sch (vs : list Z) :
  scheme_inv sch -> 0 < t sch -> q sch <= max_int ->
  t sch - 1 <= q sch / 2 ->
  (length vs <= n_slots sch)%nat -> (n_slots sch <= N sch)%nat ->
  Forall in_range vs ->
  exists pt,
    encode sch (VArray vs) = Ok pt
    /\ decode sch pt (length vs)
       = Ok (match vs with
             | [v] => DInt (v mod t sch)
             | _ => DArray (map (fun v => v mod t sch) vs)
             end).
Proof.
  intros Hinv Ht _. exact (encode_decode_array_aux sch vs Hinv Ht).
Qed.

Lemma encode_decode_array_witness :
  exists pt,
    encode wide (VArray [10; -1]) = Ok pt
    /\ decode wide pt 2 = Ok (DArray (map (fun v => v mod 65537) [10; -1])).
Proof.
  apply (encode_decode_array wide [10; -1]);
    unfold in_range, min_int, max_int; concrete.
Defined.

(** X20: an instance fresh from the constructor has consistent fields and
    no key: [encrypt], [decrypt], [generate_relin_key] and [relinearize]
    all raise until keys are generated. *)
Theorem fresh_instance_needs_keys n t0 q_bits sigma0 sch :
  init n t0 q_bits sigma0 = Ok sch ->
  scheme_inv sch
  /\ N sch = n /\ t sch = t0 /\ q sch = 2 ^ Z.of_nat q_bits - 1
  /\ n_slots sch = (n / 2)%nat
  /\ (forall pt u e1 e2,
        encrypt sch pt u e1 e2 = Err (ValueError "Must generate keys first"))
  /\ (forall ct, decrypt sch ct = Err (ValueError "Must generate keys first"))
  /\ (forall a' e',
        generate_relin_key sch a' e'
        = Err (ValueError "Must generate keys first"))
  /\ (forall ct,
        relinearize sch ct
        = Err (ValueError "Must generate relinearization key first")).
Proof.
  unfold init, PolynomialRing.init.
  destruct (Z.land (Z.of_nat n) (Z.of_nat n - 1) =? 0); [|discriminate].
  rewrite bind_Ok. destruct (t0 =? 0); [discriminate|].
  intros [= <-]. repeat split.
Qed.

Lemma fresh_instance_needs_keys_witness :
  scheme_inv wide
  /\ N wide = 4%nat /\ t wide = 65537 /\ q wide = 2 ^ Z.of_nat 50 - 1
  /\ n_slots wide = (4 / 2)%nat
  /\ (forall pt u e1 e2,
        encrypt wide pt u e1 e2 = Err (ValueError "Must generate keys first"))
  /\ (forall ct, decrypt wide ct = Err (ValueError "Must generate keys first"))
  /\ (forall a' e',
        generate_relin_key wide a' e'
        = Err (ValueError "Must generate keys first"))
  /\ (forall ct,
        relinearize wide ct
        = Err (ValueError "Must generate relinearization key first")).
Proof.
  apply (fresh_instance_needs_keys 4 65537 50 (16 # 5) wide).
  vm_compute. reflexivity.
Defined.

End EncodingExtras.

(** ** bfv_scheme.py: composition of the evaluation operations *)

Section CompositionExtras.

Import Int64 BFVScheme.

Lemma mapM_result_ext {A B} (f g : A -> result B) (l : list A) :
  (forall x, x ∈ l -> f x = g x) -> mapM f l = mapM g l.
Proof.
  induction l as [|x l IH]; intros H; [reflexivity|].
  simpl. rewrite (H x) by left.
  rewrite IH by (intros y Hy; apply H; right; exact Hy). reflexivity.
Qed.

(** X21: subtracting a ciphertext is adding its negation, whatever the
    two sizes, on canonical components of one common length
    (for [0 < q <= 2^62]). *)
Theorem sub_is_add_negate sch ct1 ct2 (n : nat) :
  0 < PolynomialRing.q (poly_ring sch) <= 2 ^ 62 ->
  Forall (fun c => length c = n
                   /\ Forall (fun x => 0 <= x < PolynomialRing.q (poly_ring sch)) c)
         (Ciphertext.components ct1) ->
  Forall (fun c => length c = n
                   /\ Forall (fun x => 0 <= x < PolynomialRing.q (poly_ring sch)) c)
         (Ciphertext.components ct2) ->
  sub sch ct1 ct2 = add sch ct1 (negate sch ct2).
Proof.
  intros Hq H1 H2. unfold sub, add, negate, Ciphertext.get_components.
  cbn [Ciphertext.components Ciphertext.init].
  f_equal. unfold combine_components. rewrite length_map.
  apply mapM_result_ext. intros i _.
  rewrite list_lookup_fmap.
  destruct (Ciphertext.components ct1 !! i) as [a|] eqn:Ea,
           (Ciphertext.components ct2 !! i) as [b|] eqn:Eb;
    simpl; try reflexivity.
  rewrite Forall_lookup in H1, H2.
  destruct (H1 _ _ Ea) as [Hla Ha]. destruct (H2 _ _ Eb) as [Hlb Hb].
  apply sub_add_neg_poly; auto. lia.
Qed.

Lemma sub_is_add_negate_witness :
  sub toy ct_a ct_size3 = add toy ct_a (negate toy ct_size3).
Proof.
  apply (sub_is_add_negate toy ct_a ct_size3 2).
  - simpl. lia.
  - repeat constructor; simpl; lia.
  - repeat constructor; simpl; lia.
Defined.

(** The negacyclic product by a constant polynomial. *)
Lemma negacyclic_constant n0 (c : poly) x k :
  (k < n0)%nat ->
  negacyclic n0 c (x :: replicate (n0 - 1) 0) k = coef c k * x.
Proof.
  intros Hk. unfold negacyclic. rewrite negacyclic_row by exact Hk.
  assert (Hp : forall j, coef (x :: replicate (n0 - 1) 0) j
                         = if (j =? 0)%nat then x else 0).
  { intros [|j]; [reflexivity|]. unfold coef. simpl.
    destruct (nth_in_or_default j (replicate (n0 - 1) 0) 0) as [Hin|Hd];
      [|exact Hd].
    apply list_elem_of_In, elem_of_replicate in Hin. apply Hin. }
  rewrite (sumZ_single _ n0 k).
  - destruct (Nat.leb_spec k k); [|lia].
    rewrite Hp. replace (k - k)%nat with 0%nat by lia. reflexivity.
  - exact Hk.
  - intros i Hi Hne. rewrite !Hp.
    destruct (Nat.leb_spec i k).
    + destruct (Nat.eqb_spec (k - i) 0); [lia|]. lia.
    + destruct (Nat.eqb_spec (k + n0 - i) 0); [lia|]. lia.
Qed.

(** X22: for moduli within [int64] ([q] in range, [0 < t <= 2^63 - 1]),
    [multiply_plain] by the encoding of an integer [w] multiplies every
    coefficient of every component by [w mod t] in wrapping 64-bit
    arithmetic and reduces it modulo [q]; size and parameters are kept. *)
Theorem multiply_plain_scalar sch ct w :
  scheme_inv sch -> (0 < N sch)%nat ->
  in_range (q sch) -> 0 < t sch <= max_int ->
  wf_ciphertext sch ct ->
  exists pt r,
    encode sch (VInt w) = Ok pt
    /\ multiply_plain sch ct pt = Ok r
    /\ Ciphertext.size r = Ciphertext.size ct
    /\ Ciphertext.params r = Ciphertext.params ct
    /\ Ciphertext.components r
       = map (fun c => map (fun x => np_mod (wrap64 (x * (w mod t sch)))
                                       (q sch)) c)
             (Ciphertext.components ct).
Proof.
  intros Hinv HN _ [Ht _] [Hsize Hall].
  pose proof Hinv as (HRN & HRq & _).
  destruct (encode_scalar sch w HN Ht) as [Henc [Hlp _]].
  eexists. eexists. split; [exact Henc|].
  unfold multiply_plain, Plaintext.get_poly, Ciphertext.get_components.
  cbn [Plaintext.poly].
  rewrite (mapM_result_ok _
             (fun c => map (fun x => np_mod (wrap64 (x * (w mod t sch)))
                                       (q sch)) c)).
  - rewrite bind_Ok. split; [reflexivity|].
    cbn [Ciphertext.size Ciphertext.params Ciphertext.components Ciphertext.init].
    rewrite length_map. auto.
  - intros c Hc. rewrite Forall_forall in Hall.
    specialize (Hall c Hc). unfold is_poly in Hall.
    rewrite mul_spec by (rewrite HRN; lia). f_equal.
    apply poly_eq; [rewrite length_map_seq, length_map; lia|].
    intros k Hk. rewrite length_map_seq in Hk.
    rewrite coef_map_seq by lia. rewrite coef_map by lia.
    rewrite HRN, HRq, negacyclic_constant by lia. reflexivity.
Qed.

Lemma multiply_plain_scalar_witness :
  exists pt r,
    encode toy (VInt 3) = Ok pt
    /\ multiply_plain toy ct_a pt = Ok r
    /\ Ciphertext.size r = Ciphertext.size ct_a
    /\ Ciphertext.params r = Ciphertext.params ct_a
    /\ Ciphertext.components r
       = map (fun c => map (fun x => np_mod (wrap64 (x * (3 mod 65537)))
                                       1048575) c)
             (Ciphertext.components ct_a).
Proof.
  apply (multiply_plain_scalar toy ct_a 3).
  - repeat split.
  - simpl. lia.
  - unfold in_range, min_int, max_int. simpl. lia.
  - unfold max_int. simpl. lia.
  - split; [reflexivity|]. repeat constructor.
Defined.

(** X23: [generate_relin_key] on draws within the samplers' ranges stores
    one pair [(b', a')] with [b'] canonical and
    [b' + a' s + e' = s^2 (mod q)] coefficient by coefficient; without a
    secret key it raises. *)
Theorem relin_key_relation sch s0 a' e' :
  scheme_inv sch -> (0 < N sch)%nat -> 1 < q sch <= 2 ^ 62 ->
  Z.of_nat (N sch) * q sch <= 2 ^ 63 -> noise_bound sch <= 2 ^ 62 ->
  secret_key sch = Some {| s := s0 |} ->
  small sch 1 s0 -> canonical sch a' -> small sch (noise_bound sch) e' ->
  exists b',
    generate_relin_key sch a' e'
    = Ok (with_relin_key sch {| evk := [(b', a')] |})
    /\ canonical sch b'
    /\ forall k, (k < N sch)%nat ->
         (coef b' k + negacyclic (N sch) a' s0 k + coef e' k) mod q sch
         = negacyclic (N sch) s0 s0 k mod q sch.
Proof.
  intros Hinv HN Hq Hfit HB Hsk Hs0 Ha He.
  pose proof Hinv as (HRN & HRq & _).
  assert (Hq' : 0 < q sch <= 2 ^ 62) by lia.
  unfold generate_relin_key. rewrite Hsk. cbn [s].
  rewrite (mul_exact (poly_ring sch) s0 s0 1 1);
    rewrite ?HRN; try apply Hs0; try lia.
  2, 3: eapply Forall_impl; [apply Hs0|]; simpl; intros x Hx; lia.
  2: unfold max_int; nia.
  rewrite bind_Ok.
  destruct (represents_mul sch Hinv HN Hq' a' _ s0 1
              (canonical_represents sch Hinv HN Hq' a' Ha) Hs0 ltac:(lia))
    as (a_s & -> & Has).
  rewrite bind_Ok.
  destruct (represents_add_small sch Hinv HN Hq' a_s _ e' _ Has He HB)
    as (a_s_e & -> & Hase).
  rewrite bind_Ok.
  pose proof (represents_neg sch Hinv HN Hq' a_s_e _ Hase) as Hneg.
  assert (Hsq : represents sch
                  (map (fun k => np_mod (negacyclic (N sch) s0 s0 k)
                                   (PolynomialRing.q (poly_ring sch)))
                       (seq 0 (N sch)))
                  (negacyclic (N sch) s0 s0)).
  { rewrite HRq. split; [apply canonical_map_seq; assumption|].
    intros k Hk. rewrite coef_map_seq by lia.
    rewrite np_mod_pos by lia. apply Z.mod_mod. lia. }
  destruct (represents_add sch Hinv HN Hq' _ _ _ _ Hneg Hsq)
    as (b' & -> & [Hcan Hb']).
  rewrite bind_Ok. exists b'.
  split; [unfold with_relin_key; rewrite Hsk; reflexivity|].
  split; [exact Hcan|].
  intros k Hk.
  rewrite <- Z.add_assoc, Zplus_mod, (Hb' k Hk), <- Zplus_mod.
  f_equal. unfold negacyclic. lia.
Qed.

Lemma relin_key_relation_witness :
  exists b',
    generate_relin_key wide_keys [5; 6; 2 ^ 49; 0] [1; 0; -18; 18]
    = Ok (with_relin_key wide_keys {| evk := [(b', [5; 6; 2 ^ 49; 0])] |})
    /\ canonical wide_keys b'
    /\ forall k, (k < 4)%nat ->
         (coef b' k + negacyclic 4 [5; 6; 2 ^ 49; 0] [1; 0; -1; 1] k
          + coef [1; 0; -18; 18] k) mod (2 ^ 50 - 1)
         = negacyclic 4 [1; 0; -1; 1] [1; 0; -1; 1] k mod (2 ^ 50 - 1).
Proof.
  apply (relin_key_relation wide_keys [1; 0; -1; 1]
           [5; 6; 2 ^ 49; 0] [1; 0; -18; 18]);
    unfold scheme_inv, small, canonical; concrete.
Defined.

Lemma zip_with_np_mod_range (g : Z -> Z -> Z) m (a b : poly) :
  0 < m -> Forall (fun x => 0 <= x < m) (zip_with (fun x y => np_mod (g x y) m) a b).
Proof.
  intros Hm. apply Forall_lookup. intros i z Hz.
  apply lookup_zip_with_Some in Hz. destruct Hz as (x & y & -> & _).
  apply np_mod_range. exact Hm.
Qed.

(** X24: [relinearize] of a size-3 ciphertext returns the size-2
    ciphertext [(c0 + c2 b', c1 + c2 a')], built from the first pair of the
    key only, each product being the wrapped negacyclic product reduced
    modulo [q]. *)
Theorem relinearize_formula sch rk b' a' rest ct c0 c1 c2 :
  scheme_inv sch -> (0 < N sch)%nat -> 0 < q sch ->
  relin_key sch = Some rk -> evk rk = (b', a') :: rest ->
  is_poly sch b' -> is_poly sch a' ->
  Ciphertext.size ct = 3%nat -> Ciphertext.components ct = [c0; c1; c2] ->
  is_poly sch c0 -> is_poly sch c1 -> is_poly sch c2 ->
  exists n0 n1,
    relinearize sch ct
    = Ok (Ciphertext.init [n0; n1] (Ciphertext.params ct))
    /\ canonical sch n0 /\ canonical sch n1
    /\ forall k, (k < N sch)%nat ->
         coef n0 k
         = wrap64 (coef c0 k
                   + wrap64 (negacyclic (N sch) c2 b' k) mod q sch)
           mod q sch
         /\ coef n1 k
            = wrap64 (coef c1 k
                      + wrap64 (negacyclic (N sch) c2 a' k) mod q sch)
              mod q sch.
Proof.
  intros Hinv HN Hq Hrk Hevk Hb Ha H3 Hc Hc0 Hc1 Hc2.
  pose proof Hinv as (HRN & HRq & _). unfold is_poly in *.
  unfold relinearize, Ciphertext.get_components.
  rewrite Hrk, H3, Hc, Hevk. simpl negb. cbv iota.
  repeat first [ rewrite bind_Ok
               | rewrite mul_spec by (rewrite HRN; lia)
               | rewrite add_same by (rewrite !length_map_seq; lia) ].
  rewrite HRN, HRq.
  eexists. eexists. split; [reflexivity|].
  split.
  { split; [rewrite length_zip_with, length_map_seq; lia|].
    apply (zip_with_np_mod_range (fun x y => wrap64 (x + y))). exact Hq. }
  split.
  { split; [rewrite length_zip_with, length_map_seq; lia|].
    apply (zip_with_np_mod_range (fun x y => wrap64 (x + y))). exact Hq. }
  intros k Hk.
  rewrite !coef_zip_with by (rewrite ?length_map_seq; lia).
  rewrite !coef_map_seq by lia. rewrite !np_mod_pos by lia. auto.
Qed.

Lemma relinearize_formula_witness :
  exists n0 n1,
    relinearize toy_relin ct_size3
    = Ok (Ciphertext.init [n0; n1] (Ciphertext.params ct_size3))
    /\ canonical toy_relin n0 /\ canonical toy_relin n1
    /\ forall k, (k < 2)%nat ->
         coef n0 k
         = wrap64 (coef [10; 20] k
                   + wrap64 (negacyclic 2 [50; 60] [1048563; 1048572] k)
                     mod 1048575)
           mod 1048575
         /\ coef n1 k
            = wrap64 (coef [30; 40] k
                      + wrap64 (negacyclic 2 [50; 60] [5; 6] k) mod 1048575)
              mod 1048575.
Proof.
  apply (relinearize_formula toy_relin
           {| evk := [([1048563; 1048572], [5; 6])] |}
           [1048563; 1048572] [5; 6] [] ct_size3 [10; 20] [30; 40] [50; 60]);
    try reflexivity; try (repeat split); simpl; lia.
Defined.

(** X25: what [decrypt] computes, for moduli [q] and [t] within
    [int64].  For a size-2 ciphertext [(c0, c1)]
    over polynomials of the scheme, coefficient [k] of the plaintext is
    [round(v_k / delta) mod t] with [v = (c0 + c1 s) mod q]: the division
    is by [delta = q // t], in binary64, with no centred lift of [v]. *)
Theorem decrypt_formula sch sk ct c0 c1 :
  scheme_inv sch -> (0 < N sch)%nat ->
  in_range (q sch) -> in_range (t sch) ->
  secret_key sch = Some sk -> is_poly sch (s sk) ->
  Ciphertext.components ct = [c0; c1] -> is_poly sch c0 -> is_poly sch c1 ->
  exists pt,
    decrypt sch ct = Ok pt
    /\ Plaintext.params pt = scheme_params sch
    /\ length (Plaintext.poly pt) = N sch
    /\ forall k, (k < N sch)%nat ->
         coef (Plaintext.poly pt) k
         = np_mod
             (Float64.np_round_div
                (np_mod
                   (wrap64
                      (coef c0 k
                       + np_mod (wrap64 (negacyclic (N sch) c1 (s sk) k))
                           (q sch)))
                   (q sch))
                (delta sch))
             (t sch).
Proof.
  intros Hinv HN _ _ Hsk Hs Hc Hc0 Hc1.
  pose proof Hinv as (HRN & HRq & _). unfold is_poly in *.
  unfold decrypt, Ciphertext.get_components. rewrite Hsk, Hc.
  rewrite mul_spec by (rewrite HRN; lia). rewrite bind_Ok.
  rewrite add_same by (rewrite length_map_seq; lia).
  rewrite bind_Ok, HRN, HRq. eexists. split; [reflexivity|].
  cbn [Plaintext.params Plaintext.poly]. split; [reflexivity|].
  unfold round_div. split.
  - rewrite !length_map, length_zip_with, length_map_seq. lia.
  - intros k Hk.
    rewrite !coef_map
      by (rewrite ?length_map, length_zip_with, length_map_seq; lia).
    rewrite coef_zip_with by (rewrite ?length_map_seq; lia).
    rewrite coef_map_seq by lia. reflexivity.
Qed.

Lemma decrypt_formula_witness :
  exists pt,
    decrypt toy ct_a = Ok pt
    /\ Plaintext.params pt = scheme_params toy
    /\ length (Plaintext.poly pt) = 2%nat
    /\ forall k, (k < 2)%nat ->
         coef (Plaintext.poly pt) k
         = np_mod
             (Float64.np_round_div
                (np_mod
                   (wrap64
                      (coef [10; 20] k
                       + np_mod (wrap64 (negacyclic 2 [30; 40] [1; -1] k))
                           1048575))
                   1048575)
                15)
             65537.
Proof.
  apply (decrypt_formula toy {| s := [1; -1] |} ct_a [10; 20] [30; 40]);
    try reflexivity; unfold in_range, min_int, max_int;
    try (repeat split); simpl; lia.
Defined.

(** X26: what [multiply] computes, for moduli [q] and [t] within
    [int64].  For two fresh ciphertexts
    [(a0, a1)] and [(b0, b1)] the result is the tensor
    [(a0 b0, a0 b1 + a1 b0, a1 b1)], each product already reduced modulo
    [q], and every coefficient then goes through
    [round(d / t) mod q]: a division by [t], in binary64. *)
Theorem multiply_formula sch ct1 ct2 a0 a1 b0 b1 :
  scheme_inv sch -> (0 < N sch)%nat ->
  in_range (q sch) -> in_range (t sch) ->
  Ciphertext.size ct1 = 2%nat -> Ciphertext.size ct2 = 2%nat ->
  Ciphertext.components ct1 = [a0; a1] ->
  Ciphertext.components ct2 = [b0; b1] ->
  is_poly sch a0 -> is_poly sch a1 -> is_poly sch b0 -> is_poly sch b1 ->
  exists d0 d1 d2,
    multiply sch ct1 ct2
    = Ok (Ciphertext.init [d0; d1; d2] (Ciphertext.params ct1))
    /\ forall k, (k < N sch)%nat ->
         let prod x y := np_mod (wrap64 (negacyclic (N sch) x y k)) (q sch) in
         let scale d := np_mod (Float64.np_round_div d (t sch)) (q sch) in
         coef d0 k = scale (prod a0 b0)
         /\ coef d1 k
            = scale (np_mod (wrap64 (prod a0 b1 + prod a1 b0)) (q sch))
         /\ coef d2 k = scale (prod a1 b1).
Proof.
  intros Hinv HN _ _ H1 H2 Ea Eb Ha0 Ha1 Hb0 Hb1.
  pose proof Hinv as (HRN & HRq & _). unfold is_poly in *.
  unfold multiply, Ciphertext.is_fresh, Ciphertext.get_components.
  rewrite H1, H2, Ea, Eb. simpl negb. simpl orb. cbv iota.
  repeat first [ rewrite bind_Ok
               | rewrite mul_spec by (rewrite HRN; lia)
               | rewrite add_same by (rewrite !length_map_seq; lia) ].
  rewrite HRN, HRq. do 3 eexists. split; [reflexivity|].
  intros k Hk. cbv zeta. unfold scale_correct, round_div.
  rewrite !coef_map
    by (rewrite ?length_map, ?length_zip_with, ?length_map, ?length_seq; lia).
  rewrite coef_zip_with by (rewrite ?length_map_seq; lia).
  rewrite !coef_map_seq by lia. auto.
Qed.

Lemma multiply_formula_witness :
  exists d0 d1 d2,
    multiply toy ct_a ct_b
    = Ok (Ciphertext.init [d0; d1; d2] (Ciphertext.params ct_a))
    /\ forall k, (k < 2)%nat ->
         let prod x y := np_mod (wrap64 (negacyclic 2 x y k)) 1048575 in
         let scale d := np_mod (Float64.np_round_div d 65537) 1048575 in
         coef d0 k = scale (prod [10; 20] [1; 2])
         /\ coef d1 k
            = scale (np_mod (wrap64 (prod [10; 20] [3; 4]
                                     + prod [30; 40] [1; 2])) 1048575)
         /\ coef d2 k = scale (prod [30; 40] [3; 4]).
Proof.
  apply (multiply_formula toy ct_a ct_b [10; 20] [30; 40] [1; 2] [3; 4]);
    try reflexivity; unfold in_range, min_int, max_int;
    try (repeat split); simpl; lia.
Defined.

End CompositionExtras.

(** ** fhe_custom_exact_match.py: the string helpers *)

Section StringExtras.

Import Int64 BFVScheme ExactMatch.

Lemma lor_byte a b :
  0 <= a < 256 -> 0 <= b < 256 -> 0 <= Z.lor a b < 256.
Proof.
  intros Ha Hb. split; [apply Z.lor_nonneg; lia|].
  destruct (Z.eq_dec (Z.lor a b) 0) as [->|Hne]; [lia|].
  assert (Hpos : 0 < Z.lor a b).
  { assert (0 <= Z.lor a b) by (apply Z.lor_nonneg; lia). lia. }
  change 256 with (2 ^ 8). apply Z.log2_lt_pow2; [exact Hpos|].
  rewrite Z.log2_lor by lia.
  assert (Hl : forall x, 0 <= x < 256 -> Z.log2 x < 8).
  { intros x Hx. destruct (Z.eq_dec x 0) as [->|]; [simpl; lia|].
    apply Z.log2_lt_pow2; simpl; lia. }
  specialize (Hl a Ha) as Hla. specialize (Hl b Hb) as Hlb. lia.
Qed.

Lemma land_63 x : 0 <= Z.land x 63 < 256.
Proof.
  change 63 with (Z.ones 6). rewrite Z.land_ones by lia.
  pose proof (Z.mod_pos_bound x (2 ^ 6) ltac:(lia)). simpl in *. lia.
Qed.

Lemma shiftr_byte x k b :
  0 <= x < b -> 0 <= k -> b <= 256 * 2 ^ k -> 0 <= Z.shiftr x k < 256.
Proof.
  intros Hx Hk Hb. rewrite Z.shiftr_div_pow2 by exact Hk.
  assert (0 < 2 ^ k) by (apply Z.pow_pos_nonneg; lia).
  split; [apply Z.div_pos; lia|].
  apply Z.div_lt_upper_bound; lia.
Qed.

Lemma utf8_encode_char_bytes cp bs :
  utf8_encode_char cp = Some bs -> Forall (fun b => 0 <= b < 256) bs.
Proof.
  unfold utf8_encode_char.
  destruct (Z.ltb_spec cp 0); [discriminate|].
  destruct (Z.ltb_spec cp 128).
  { intros [= <-]. repeat constructor; lia. }
  destruct (Z.ltb_spec cp 2048).
  { intros [= <-].
    repeat constructor;
      (apply lor_byte; [lia|]);
      first [apply land_63 | apply (shiftr_byte _ _ 2048); simpl; lia]. }
  destruct (Z.ltb_spec cp 65536).
  { destruct ((55296 <=? cp) && (cp <=? 57343)); [discriminate|].
    intros [= <-].
    repeat constructor;
      (apply lor_byte; [lia|]);
      first [apply land_63 | apply (shiftr_byte _ _ 65536); simpl; lia]. }
  destruct (Z.ltb_spec cp 1114112); [|discriminate].
  intros [= <-].
  repeat constructor;
    (apply lor_byte; [lia|]);
    first [apply land_63 | apply (shiftr_byte _ _ 1114112); simpl; lia].
Qed.

Lemma utf8_encode_bytes str bs :
  utf8_encode str = Some bs -> Forall (fun b => 0 <= b < 256) bs.
Proof.
  revert bs. induction str as [|cp rest IH]; intros bs; simpl.
  - intros [= <-]. constructor.
  - destruct (utf8_encode_char cp) as [b1|] eqn:E1; [|discriminate].
    destruct (utf8_encode rest) as [b2|]; [|discriminate].
    intros [= <-]. apply Forall_app. split.
    + exact (utf8_encode_char_bytes cp b1 E1).
    + apply IH. reflexivity.
Qed.

Lemma utf8_encode_ascii str :
  Forall (fun c => 0 <= c < 128) str -> utf8_encode str = Some str.
Proof.
  induction 1 as [|c str Hc _ IH]; [reflexivity|]. simpl.
  unfold utf8_encode_char.
  destruct (Z.ltb_spec c 0); [lia|].
  destruct (Z.ltb_spec c 128); [|lia].
  rewrite IH. reflexivity.
Qed.

Lemma ascii_text_weaken str :
  ascii_text str -> Forall (fun c => 0 <= c < 128) str.
Proof.
  intros H. eapply Forall_impl; [exact H|]. intros c Hc. simpl in Hc. lia.
Qed.

Lemma ints_to_string_text str pad :
  Forall (fun c => 0 < c < 1114112) str ->
  ints_to_string (str ++ replicate pad 0) = str.
Proof.
  induction 1 as [|c str Hc _ IH]; simpl.
  - destruct pad; reflexivity.
  - destruct (Z.eqb_spec c 0); [lia|].
    destruct (Z.leb_spec 0 c); [|lia].
    destruct (Z.ltb_spec c 1114112); [|lia].
    simpl. rewrite IH. reflexivity.
Qed.

Lemma string_to_ints_ascii_aux str max_len :
  ascii_text str ->
  exists ints,
    string_to_ints str max_len = Some ints
    /\ length ints = max_len
    /\ Forall (fun b => 0 <= b < 256) ints
    /\ ints_to_string ints = take max_len str.
Proof.
  intros Hs. unfold string_to_ints.
  pose proof (ascii_text_weaken str Hs) as Hw.
  rewrite (utf8_encode_ascii str Hw).
  assert (Htext : forall l, ascii_text l ->
                            Forall (fun c => 0 < c < 1114112) l).
  { intros l Hl. eapply Forall_impl; [exact Hl|].
    intros c Hc. simpl in Hc. lia. }
  destruct (Nat.ltb_spec max_len (length str)) as [Hlt|Hge].
  - eexists. split; [reflexivity|].
    split; [rewrite length_take; lia|].
    split.
    + apply Forall_take. eapply Forall_impl; [exact Hw|].
      intros c Hc. simpl in Hc. lia.
    + rewrite <- (app_nil_r (take max_len str)) at 1.
      change (@nil Z) with (replicate 0%nat 0).
      apply ints_to_string_text, Htext, Forall_take, Hs.
  - eexists. split; [reflexivity|].
    split; [rewrite length_app, length_replicate; lia|].
    split.
    + apply Forall_app. split.
      * eapply Forall_impl; [exact Hw|]. intros c Hc. simpl in Hc. lia.
      * apply Forall_forall. intros x Hx.
        apply elem_of_replicate in Hx. lia.
    + rewrite take_ge by lia.
      apply ints_to_string_text, Htext, Hs.
Qed.

Lemma utf8_encode_total str :
  Forall (fun c => 0 <= c < 1114112 /\ ~ 55296 <= c <= 57343) str ->
  exists bs, utf8_encode str = Some bs.
Proof.
  induction 1 as [|c str [Hc Hs] _ [bs IH]]; [exists []; reflexivity|].
  simpl. rewrite IH. unfold utf8_encode_char.
  destruct (Z.ltb_spec c 0); [lia|].
  destruct (Z.ltb_spec c 128); [eexists; reflexivity|].
  destruct (Z.ltb_spec c 2048); [eexists; reflexivity|].
  destruct (Z.ltb_spec c 65536).
  - destruct (Z.leb_spec 55296 c); destruct (Z.leb_spec c 57343);
      simpl; first [lia | eexists; reflexivity].
  - destruct (Z.ltb_spec c 1114112); [eexists; reflexivity|lia].
Qed.

(** X27: [string_to_ints] returns exactly [max_len] byte values for every
    text without surrogate code points, whatever its length: shorter
    texts are padded, longer ones cut. *)
Theorem string_to_ints_shape str max_len :
  Forall (fun c => 0 <= c < 1114112 /\ ~ 55296 <= c <= 57343) str ->
  exists ints,
    string_to_ints str max_len = Some ints
    /\ length ints = max_len
    /\ Forall (fun b => 0 <= b < 256) ints.
Proof.
  intros Hs. unfold string_to_ints.
  destruct (utf8_encode_total str Hs) as [bs E]. rewrite E.
  pose proof (utf8_encode_bytes str bs E) as Hb.
  destruct (Nat.ltb_spec max_len (length bs)).
  - eexists. split; [reflexivity|].
    split; [rewrite length_take; lia|]. apply Forall_take, Hb.
  - eexists. split; [reflexivity|].
    split; [rewrite length_app, length_replicate; lia|].
    apply Forall_app. split; [exact Hb|].
    apply Forall_forall. intros x Hx. apply elem_of_replicate in Hx. lia.
Qed.

Lemma string_to_ints_shape_witness :
  exists ints,
    string_to_ints [233; 8364; 128512] 12 = Some ints
    /\ length ints = 12%nat
    /\ Forall (fun b => 0 <= b < 256) ints.
Proof.
  apply (string_to_ints_shape [233; 8364; 128512] 12).
  repeat constructor; lia.
Defined.

(** X28: string round trip.  For ASCII text without NUL,
    [ints_to_string (string_to_ints s max_len)] is the text cut to its
    first [max_len] characters: the text itself when it fits. *)
Theorem string_roundtrip_ascii str max_len :
  ascii_text str ->
  exists ints,
    string_to_ints str max_len = Some ints
    /\ ints_to_string ints = take max_len str
    /\ ((length str <= max_len)%nat -> ints_to_string ints = str).
Proof.
  intros Hs.
  destruct (string_to_ints_ascii_aux str max_len Hs)
    as (ints & H1 & _ & _ & H2).
  exists ints. split; [exact H1|]. split; [exact H2|].
  intros Hlen. rewrite H2. apply take_ge. exact Hlen.
Qed.

Lemma string_roundtrip_ascii_witness :
  exists ints,
    string_to_ints [97; 64; 98; 46; 105; 111] 4 = Some ints
    /\ ints_to_string ints = take 4 [97; 64; 98; 46; 105; 111]
    /\ ((length [97; 64; 98; 46; 105; 111] <= 4)%nat ->
        ints_to_string ints = [97; 64; 98; 46; 105; 111]).
Proof.
  apply (string_roundtrip_ascii [97; 64; 98; 46; 105; 111] 4).
  repeat constructor.
Defined.

(** X29: the e-mail column of the exact-match demo.  With exact
    parameters, a noise budget [4 (fresh_noise + t) < delta], [t] above
    every byte and room for [max_len] slots, an ASCII e-mail that is
    converted by [string_to_ints], encoded, encrypted, decrypted, decoded
    and converted back by [ints_to_string] comes out as its first
    [max_len] characters, for every outcome of the samplers. *)
Theorem email_roundtrip sch s0 a e str max_len u e1 e2 :
  exact_params sch -> 4 * (fresh_noise sch + t sch) < delta sch ->
  256 <= t sch ->
  (max_len <= n_slots sch)%nat -> (n_slots sch <= N sch)%nat ->
  max_len <> 1%nat ->
  key_draws sch s0 a e -> encrypt_draws sch u e1 e2 -> ascii_text str ->
  exists b ints pt ct pt' d,
    key_generation sch s0 a e
    = Ok (with_keys sch {| s := s0 |} {| pk0 := b; pk1 := a |})
    /\ string_to_ints str max_len = Some ints
    /\ encode (with_keys sch {| s := s0 |} {| pk0 := b; pk1 := a |})
         (VArray ints) = Ok pt
    /\ encrypt (with_keys sch {| s := s0 |} {| pk0 := b; pk1 := a |})
         pt u e1 e2 = Ok ct
    /\ decrypt (with_keys sch {| s := s0 |} {| pk0 := b; pk1 := a |}) ct
       = Ok pt'
    /\ decode (with_keys sch {| s := s0 |} {| pk0 := b; pk1 := a |})
         pt' max_len = Ok d
    /\ decoded_to_string d = Some (take max_len str).
Proof.
  intros Hex Hbudget Ht256 Hmax Hslots Hne1 Hkey Henc Hs.
  destruct (string_to_ints_ascii_aux str max_len Hs)
    as (ints & Hints & Hlen & Hbytes & Hstr).
  assert (Ht : 0 < t sch) by lia.
  assert (Hfit : Forall in_range ints).
  { eapply Forall_impl; [exact Hbytes|]. intros x Hx.
    unfold in_range, min_int, max_int. simpl in Hx. lia. }
  destruct (proj1 (encode_array_aux sch ints Ht Hslots Hfit) ltac:(lia))
    as ([p prm] & Hpt & Hp & Hprm & _).
  cbn [Plaintext.poly Plaintext.params] in Hp, Hprm. subst prm.
  destruct (encrypt_decrypt_roundtrip_aux sch s0 a e p u e1 e2
              Hex Hbudget Hkey Hp Henc) as (b & ct & Hkg & Hct & Hdec).
  exists b, ints. do 3 eexists.
  set (sch' := with_keys sch {| s := s0 |} {| pk0 := b; pk1 := a |}) in *.
  assert (Hhalf : t sch' - 1 <= q sch' / 2).
  { pose proof (delta_le_q sch Hex) as [Hd0 Hdq].
    pose proof (fresh_noise_nonneg sch Hex) as Hfn.
    change (t sch - 1 <= q sch / 2).
    apply Z.div_le_lower_bound; [lia|]. nia. }
  destruct (encode_decode_array_aux sch' ints
              (scheme_inv_with_keys sch _ _ (proj1 Hex)) Ht Hhalf
              ltac:(change (n_slots sch') with (n_slots sch); lia) Hslots
              Hfit)
    as (pt2 & Hpt2 & Hdecode).
  change (encode sch' (VArray ints)) with (encode sch (VArray ints)) in Hpt2.
  rewrite Hpt in Hpt2. injection Hpt2 as <-.
  rewrite Hlen in Hdecode.
  assert (Hmap : map (fun v => v mod t sch') ints = ints).
  { clear -Hbytes Ht256. change (t sch') with (t sch).
    induction Hbytes as [|x l Hx _ IH]; [reflexivity|]. simpl.
    rewrite IH, Z.mod_small by lia. reflexivity. }
  eexists.
  split; [exact Hkg|]. split; [exact Hints|].
  split; [exact Hpt|]. split; [exact Hct|]. split; [exact Hdec|].
  split; [exact Hdecode|].
  destruct ints as [|v [|v' l]].
  - simpl. rewrite <- Hstr. reflexivity.
  - simpl in Hlen. lia.
  - rewrite Hmap. unfold decoded_to_string. rewrite Hstr. reflexivity.
Qed.

Lemma email_roundtrip_witness :
  exists b ints pt ct pt' d,
    key_generation wide [1; 0; -1; 1] [123456789; 987654321; 5; 2 ^ 49]
      [3; -18; 0; 7]
    = Ok (with_keys wide {| s := [1; 0; -1; 1] |}
            {| pk0 := b; pk1 := [123456789; 987654321; 5; 2 ^ 49] |})
    /\ string_to_ints [97; 64; 98] 2 = Some ints
    /\ encode (with_keys wide {| s := [1; 0; -1; 1] |}
                {| pk0 := b; pk1 := [123456789; 987654321; 5; 2 ^ 49] |})
         (VArray ints) = Ok pt
    /\ encrypt (with_keys wide {| s := [1; 0; -1; 1] |}
                 {| pk0 := b; pk1 := [123456789; 987654321; 5; 2 ^ 49] |})
         pt [0; 1; -1; 1] [18; -18; 5; 0] [-1; 2; -3; 4] = Ok ct
    /\ decrypt (with_keys wide {| s := [1; 0; -1; 1] |}
                 {| pk0 := b; pk1 := [123456789; 987654321; 5; 2 ^ 49] |})
         ct = Ok pt'
    /\ decode (with_keys wide {| s := [1; 0; -1; 1] |}
                {| pk0 := b; pk1 := [123456789; 987654321; 5; 2 ^ 49] |})
         pt' 2 = Ok d
    /\ decoded_to_string d = Some (take 2 [97; 64; 98]).
Proof.
  apply (email_roundtrip wide
           [1; 0; -1; 1] [123456789; 987654321; 5; 2 ^ 49] [3; -18; 0; 7]
           [97; 64; 98] 2 [0; 1; -1; 1] [18; -18; 5; 0] [-1; 2; -3; 4]);
    unfold exact_params, scheme_inv, key_draws, encrypt_draws, ascii_text,
      small, canonical; concrete.
Defined.

End StringExtras.

(** ** bfv_scheme.py: rotation keys *)

Section RotationExtras.

Import Int64 BFVScheme Examples.

Lemma roll_small sch B (s0 : poly) rot :
  (0 < N sch)%nat -> small sch B s0 -> small sch B (NumPy.roll s0 rot).
Proof.
  intros HN [Hl Hs]. unfold NumPy.roll. split.
  - rewrite length_map_seq. exact Hl.
  - apply Forall_forall. intros x Hx. apply list_elem_of_fmap in Hx.
    destruct Hx as (i & -> & _).
    pose proof (Z.mod_pos_bound (Z.of_nat i - rot) (Z.of_nat (length s0))
                  ltac:(lia)) as Hm.
    apply (Forall_coef _ s0 _ Hs). lia.
Qed.

Lemma rotation_key_pair_spec sch s0 rot a e :
  scheme_inv sch -> (0 < N sch)%nat -> 1 < q sch <= 2 ^ 62 ->
  Z.of_nat (N sch) * q sch <= 2 ^ 63 -> noise_bound sch <= 2 ^ 62 ->
  small sch 1 s0 -> canonical sch a -> small sch (noise_bound sch) e ->
  exists b,
    rotation_key_pair sch s0 rot a e = Ok (b, a)
    /\ rotation_relation sch s0 rot b a e.
Proof.
  intros Hinv HN Hq Hfit HB Hs0 Ha He.
  assert (Hq' : 0 < q sch <= 2 ^ 62) by lia.
  unfold rotation_key_pair.
  destruct (represents_mul sch Hinv HN Hq' a _ s0 1
              (canonical_represents sch Hinv HN Hq' a Ha) Hs0 ltac:(lia))
    as (a_s & -> & Has).
  rewrite bind_Ok.
  destruct (represents_add_small sch Hinv HN Hq' a_s _ e _ Has He HB)
    as (a_s_e & -> & Hase).
  rewrite bind_Ok.
  pose proof (represents_neg sch Hinv HN Hq' a_s_e _ Hase) as Hneg.
  destruct (represents_add_small sch Hinv HN Hq' _ _ (NumPy.roll s0 rot) 1
              Hneg (roll_small sch 1 s0 rot HN Hs0) ltac:(lia))
    as (b & -> & [Hcan Hb]).
  rewrite bind_Ok. exists b. split; [reflexivity|].
  split; [exact Hcan|].
  intros k Hk.
  rewrite <- Z.add_assoc, Zplus_mod, (Hb k Hk), <- Zplus_mod.
  f_equal. unfold negacyclic. lia.
Qed.

(** The loop of [generate_rotation_keys]: every rotation of the list gets
    a key, keys already present for other rotations stay, and each new
    pair comes from the draws of an iteration for its rotation. *)
Lemma rotation_loop_spec sch s0 draws :
  scheme_inv sch -> (0 < N sch)%nat -> 1 < q sch <= 2 ^ 62 ->
  Z.of_nat (N sch) * q sch <= 2 ^ 63 -> noise_bound sch <= 2 ^ 62 ->
  small sch 1 s0 ->
  (forall j, canonical sch (fst (draws j))
             /\ small sch (noise_bound sch) (snd (draws j))) ->
  forall rotations i d,
  exists d',
    rotation_loop sch s0 draws i rotations d = Ok d'
    /\ (forall r, is_Some (d' !! r) <-> r ∈ rotations \/ is_Some (d !! r))
    /\ (forall r b a, d' !! r = Some (b, a) ->
          d !! r = Some (b, a)
          \/ exists j, rotations !! j = Some r
                       /\ a = fst (draws (i + j)%nat)
                       /\ rotation_relation sch s0 r b a
                            (snd (draws (i + j)%nat))).
Proof.
  intros Hinv HN Hq Hfit HB Hs0 Hdraws.
  induction rotations as [|rot rest IH]; intros i d.
  - exists d. split; [reflexivity|]. split.
    + intros r. split; [auto|]. intros [Hin|H]; [|exact H].
      apply elem_of_nil in Hin. destruct Hin.
    + intros r b a H. left. exact H.
  - cbn [rotation_loop].
    destruct (rotation_key_pair_spec sch s0 rot (fst (draws i))
                (snd (draws i)) Hinv HN Hq Hfit HB Hs0
                (proj1 (Hdraws i)) (proj2 (Hdraws i))) as (b0 & -> & Hrel).
    rewrite bind_Ok.
    destruct (IH (S i) (<[rot := (b0, fst (draws i))]> d))
      as (d' & Hloop & Hdom & Hval).
    exists d'. split; [exact Hloop|]. split.
    + intros r. rewrite Hdom, elem_of_cons.
      destruct (Z.eq_dec r rot) as [->|Hne].
      * rewrite lookup_insert_eq. split; [|intros _; right; eauto].
        intros _. left. left. reflexivity.
      * rewrite lookup_insert_ne by congruence. tauto.
    + intros r b a Hr. destruct (Hval r b a Hr) as [Hd|(j & Hj & Ha & Hr')].
      * destruct (Z.eq_dec r rot) as [->|Hne].
        -- rewrite lookup_insert_eq in Hd. injection Hd as <- <-.
           right. exists 0%nat. rewrite Nat.add_0_r.
           split; [reflexivity|]. split; [reflexivity|exact Hrel].
        -- rewrite lookup_insert_ne in Hd by congruence. left. exact Hd.
      * right. exists (S j).
        replace (i + S j)%nat with (S i + j)%nat by lia.
        split; [exact Hj|]. split; [exact Ha|exact Hr'].
Qed.

(** X30: where the ring arithmetic is exact ([1 < q <= 2^62],
    [N q <= 2^63]), [generate_rotation_keys] on draws within the
    samplers' ranges
    returns a key for exactly the requested rotations (by default the
    powers of two up to 1024 that are below [N]); each stored pair
    [(b, a)] has [b] canonical and satisfies
    [b + a s + e = roll(s, rot) (mod q)] with the draws of an iteration
    for that rotation. *)
Theorem rotation_keys_relation sch s0 rotations draws :
  scheme_inv sch -> (0 < N sch)%nat -> 1 < q sch <= 2 ^ 62 ->
  Z.of_nat (N sch) * q sch <= 2 ^ 63 -> noise_bound sch <= 2 ^ 62 ->
  secret_key sch = Some {| s := s0 |} -> small sch 1 s0 ->
  (forall j, canonical sch (fst (draws j))
             /\ small sch (noise_bound sch) (snd (draws j))) ->
  exists rk,
    generate_rotation_keys sch rotations draws = Ok rk
    /\ (forall r, has_rotation rk r = true
                  <-> r ∈ rotation_list sch rotations)
    /\ (forall r b a, get_key rk r = Some (b, a) ->
          exists j, rotation_list sch rotations !! j = Some r
                    /\ a = fst (draws j)
                    /\ rotation_relation sch s0 r b a (snd (draws j))).
Proof.
  intros Hinv HN Hq Hfit HB Hsk Hs0 Hdraws.
  unfold generate_rotation_keys. rewrite Hsk. cbn [s].
  destruct (rotation_loop_spec sch s0 draws Hinv HN Hq Hfit HB Hs0 Hdraws
              (rotation_list sch rotations) 0%nat ∅)
    as (d' & -> & Hdom & Hval).
  rewrite bind_Ok. eexists. split; [reflexivity|].
  unfold has_rotation, get_key. cbn [keys]. split.
  - intros r. rewrite bool_decide_eq_true, Hdom, lookup_empty.
    split; [|auto]. intros [H|H]; [exact H|]. destruct H as [x Hx].
    discriminate.
  - intros r b a Hr. destruct (Hval r b a Hr) as [Hd|H].
    + rewrite lookup_empty in Hd. discriminate.
    + exact H.
Qed.

Lemma rotation_keys_relation_witness :
  exists rk,
    generate_rotation_keys wide_keys None rot_draws = Ok rk
    /\ (forall r, has_rotation rk r = true
                  <-> r ∈ rotation_list wide_keys None)
    /\ (forall r b a, get_key rk r = Some (b, a) ->
          exists j, rotation_list wide_keys None !! j = Some r
                    /\ a = fst (rot_draws j)
                    /\ rotation_relation wide_keys [1; 0; -1; 1]
                         r b a (snd (rot_draws j))).
Proof.
  apply (rotation_keys_relation wide_keys [1; 0; -1; 1] None
           rot_draws);
    try (intros j; unfold rot_draws; cbn [fst snd]);
    unfold scheme_inv, small, canonical; concrete.
Defined.

End RotationExtras.

(** * The claims on the round trip and on the rounding formulas *)

Section RoundingClaims.

Import Int64 BFVScheme Examples.

(** ** Round trip of an integer *)

(** C1, as stated, fails: the claim quantifies over every instance, but
    in [BFVScheme(N=2, t=65537, q_bits=20)], whose [delta] is 15, an
    error draw at the clipping bound 18 exceeds the noise budget, and
    the value 1 comes back as 2. *)
Lemma roundtrip_fails_without_budget :
  Z.abs 1 < 65537 / 2
  /\ small toy 1 [0; 0]
  /\ small toy (noise_bound toy) [18; 0]
  /\ small toy (noise_bound toy) [0; 0]
  /\ encode toy (VInt 1)
     = Ok {| Plaintext.poly := [1; 0];
             Plaintext.params := scheme_params toy |}
  /\ encrypt toy {| Plaintext.poly := [1; 0];
                    Plaintext.params := scheme_params toy |}
       [0; 0] [18; 0] [0; 0]
     = Ok (Ciphertext.init [[33; 0]; [0; 0]] (scheme_params toy))
  /\ decrypt toy (Ciphertext.init [[33; 0]; [0; 0]] (scheme_params toy))
     = Ok {| Plaintext.poly := [2; 0];
             Plaintext.params := scheme_params toy |}
  /\ decode toy {| Plaintext.poly := [2; 0];
                   Plaintext.params := scheme_params toy |} 1
     = Ok (DInt 2).
Proof.
  unfold small. concrete.
Qed.

(** C1 (amended): in an instance with exact parameters and a noise
    budget [4 (fresh_noise + t) < delta], for every integer
    [0 <= v < t/2] and every outcome of the samplers within their
    bounds, decoding the decryption of the encryption of [encode(v)]
    returns [v]. *)
Theorem roundtrip_within_budget sch s0 a e v u e1 e2 :
  exact_params sch -> 4 * (fresh_noise sch + t sch) < delta sch ->
  key_draws sch s0 a e -> encrypt_draws sch u e1 e2 ->
  0 <= v -> 2 * v < t sch ->
  exists sch' pt ct pt',
    key_generation sch s0 a e = Ok sch'
    /\ encode sch' (VInt v) = Ok pt
    /\ encrypt sch' pt u e1 e2 = Ok ct
    /\ decrypt sch' ct = Ok pt'
    /\ decode sch' pt' 1 = Ok (DInt v).
Proof.
  intros Hex Hbudget Hkey Hdraws Hv0 Hv.
  destruct (scalar_roundtrip_aux sch s0 a e v u e1 e2 Hex Hbudget Hkey Hdraws)
    as (sch' & pt & ct & pt' & Hkg & Henc & Hct & Hdec & Hdecode).
  exists sch', pt, ct, pt'. repeat (split; [assumption|]).
  rewrite Hdecode. rewrite Z.mod_small by lia. reflexivity.
Qed.

Lemma roundtrip_within_budget_witness :
  exists sch' pt ct pt',
    key_generation wide [1; 0; -1; 1] [123456789; 987654321; 5; 2 ^ 49]
      [3; -18; 0; 7] = Ok sch'
    /\ encode sch' (VInt 12345) = Ok pt
    /\ encrypt sch' pt [0; 1; -1; 1] [18; -18; 5; 0] [-1; 2; -3; 4] = Ok ct
    /\ decrypt sch' ct = Ok pt'
    /\ decode sch' pt' 1 = Ok (DInt 12345).
Proof.
  apply (roundtrip_within_budget wide
           [1; 0; -1; 1] [123456789; 987654321; 5; 2 ^ 49] [3; -18; 0; 7]
           12345 [0; 1; -1; 1] [18; -18; 5; 0] [-1; 2; -3; 4]);
    unfold exact_params, scheme_inv, key_draws, encrypt_draws,
      small, canonical; concrete.
Defined.

(** ** The rounding of [decrypt] *)

(** C2, as stated, fails: on the ciphertext [([2000, 4000], [30, 40])] of
    [BFVScheme(N=2, t=65537, q_bits=20)] with [s = [1, -1]],
    [v = c0 + c1 s mod q] is [[2070, 4010]]; [decrypt] returns
    [[138, 267]], which is [round(v / 15) mod t], while
    [round(t center_mod(v) / q) mod t] is [[129, 251]]. *)
Lemma decrypt_rounding_differs :
  Ciphertext.size ct_large = 2%nat
  /\ PolynomialRing.mul (poly_ring toy) [30; 40] [1; -1] = Ok [70; 10]
  /\ PolynomialRing.add (poly_ring toy) [2000; 4000] [70; 10]
     = Ok [2070; 4010]
  /\ decrypt toy ct_large
     = Ok {| Plaintext.poly := [138; 267];
             Plaintext.params := scheme_params toy |}
  /\ map (Spec.decrypt_rounding (q toy) (t toy)) [2070; 4010] = [129; 251]
  /\ map (fun v => Float64.np_round_div v (delta toy) mod t toy)
       [2070; 4010] = [138; 267].
Proof. concrete. Qed.

(** What [decrypt] computes, coefficient by coefficient, when the
    product by the ternary secret key does not overflow. *)
Lemma decrypt_exact sch s0 ct c0 c1 :
  scheme_inv sch -> (0 < N sch)%nat -> 0 < q sch <= 2 ^ 62 ->
  Z.of_nat (N sch) * q sch <= 2 ^ 63 ->
  secret_key sch = Some {| s := s0 |} -> small sch 1 s0 ->
  Ciphertext.components ct = [c0; c1] ->
  canonical sch c0 -> canonical sch c1 ->
  exists v,
    represents sch v (fun k => coef c0 k + negacyclic (N sch) c1 s0 k)
    /\ decrypt sch ct
       = Ok {| Plaintext.poly :=
                 map (fun x => np_mod (Float64.np_round_div x (delta sch))
                                 (t sch)) v;
               Plaintext.params := scheme_params sch |}.
Proof.
  intros Hinv HN Hq Hfit Hsk Hs0 Ec Hc0 Hc1.
  unfold decrypt, Ciphertext.get_components. rewrite Hsk, Ec. cbn [s].
  destruct (represents_mul sch Hinv HN Hq c1 _ s0 1
              (canonical_represents sch Hinv HN Hq c1 Hc1) Hs0 ltac:(lia))
    as (c1_s & -> & Hc1s).
  rewrite bind_Ok.
  destruct (represents_add sch Hinv HN Hq c0 _ c1_s _
              (canonical_represents sch Hinv HN Hq c0 Hc0) Hc1s)
    as (noisy_m & -> & Hnoisy).
  rewrite bind_Ok. exists noisy_m. split; [exact Hnoisy|].
  unfold round_div. rewrite map_map. reflexivity.
Qed.

(** C2 (amended): for every size-2 ciphertext with canonical components,
    in an instance with a ternary secret key whose moduli keep the ring
    arithmetic exact ([0 < q <= 2^62], [N q <= 2^63],
    [0 < t <= 2^63 - 1]), [decrypt] computes [v = c0 + c1 s mod q] and
    returns, per coefficient, [round(v / delta) mod t] with
    [delta = q // t]: [v] is taken in [[0, q)] without a centred lift and
    divided by [delta] in binary64, not multiplied by [t / q]. *)
Theorem decrypt_rounds_by_delta sch s0 ct c0 c1 :
  scheme_inv sch -> (0 < N sch)%nat -> 0 < q sch <= 2 ^ 62 ->
  Z.of_nat (N sch) * q sch <= 2 ^ 63 -> 0 < t sch <= max_int ->
  secret_key sch = Some {| s := s0 |} -> small sch 1 s0 ->
  Ciphertext.components ct = [c0; c1] ->
  canonical sch c0 -> canonical sch c1 ->
  exists v pt,
    decrypt sch ct = Ok pt
    /\ length v = N sch /\ length (Plaintext.poly pt) = N sch
    /\ forall k, (k < N sch)%nat ->
         coef v k = (coef c0 k + negacyclic (N sch) c1 s0 k) mod q sch
         /\ coef (Plaintext.poly pt) k
            = Float64.np_round_div (coef v k) (q sch / t sch) mod t sch.
Proof.
  intros Hinv HN Hq Hfit [Ht _] Hsk Hs0 Ec Hc0 Hc1.
  destruct (decrypt_exact sch s0 ct c0 c1 Hinv HN Hq Hfit Hsk Hs0 Ec Hc0 Hc1)
    as (v & [Hcan Hv] & Hdec).
  pose proof Hinv as (_ & _ & Hdelta).
  exists v. eexists. split; [exact Hdec|]. cbn [Plaintext.poly].
  split; [apply Hcan|]. split; [rewrite length_map; apply Hcan|].
  intros k Hk. split.
  - rewrite <- (Hv k Hk). symmetry. apply Z.mod_small.
    apply (canonical_coef sch Hinv HN Hq v k Hcan Hk).
  - rewrite coef_map by (destruct Hcan as [Hl _]; lia).
    rewrite np_mod_pos by exact Ht. rewrite Hdelta. reflexivity.
Qed.

Lemma decrypt_rounds_by_delta_witness :
  exists v pt,
    decrypt toy ct_large = Ok pt
    /\ length v = 2%nat /\ length (Plaintext.poly pt) = 2%nat
    /\ forall k, (k < 2)%nat ->
         coef v k
         = (coef [2000; 4000] k + negacyclic 2 [30; 40] [1; -1] k)
           mod 1048575
         /\ coef (Plaintext.poly pt) k
            = Float64.np_round_div (coef v k) (1048575 / 65537) mod 65537.
Proof.
  apply (decrypt_rounds_by_delta toy [1; -1] ct_large [2000; 4000] [30; 40]);
    unfold scheme_inv, small, canonical, max_int; concrete.
Defined.

(** ** The scale correction of [multiply] *)

(** C3, on the code: [multiply] reduces every tensor product modulo [q]
    (in wrapping 64-bit arithmetic) and then divides by [t], where the
    claim multiplies the integer products by [t / q].  On encryptions of
    12 and of 8 under [BFVScheme(N=4, t=65537, q_bits=50)] the three
    components differ from those of the claim's formula, and the pipeline
    of the library's own multiplication test, [multiply], [relinearize],
    [decrypt], [decode], returns 15 where the test expects [12 * 8 = 96]
    up to an error of 1. *)
Theorem multiply_divides_by_t :
  key_generation wide [1; 0; -1; 1] [123456789; 987654321; 5; 2 ^ 49]
    [3; -18; 0; 7] = Ok wide_keys
  /\ generate_relin_key wide_keys [5; 6; 2 ^ 49; 0] [1; 0; -18; 18]
     = Ok wide_relin
  /\ encode wide_relin (VInt 12)
     = Ok {| Plaintext.poly := [12; 0; 0; 0];
             Plaintext.params := scheme_params wide |}
  /\ encode wide_relin (VInt 8)
     = Ok {| Plaintext.poly := [8; 0; 0; 0];
             Plaintext.params := scheme_params wide |}
  /\ encrypt wide_relin
    {| Plaintext.poly := [12; 0; 0; 0];
       Plaintext.params := scheme_params wide |}
    [0; 1; -1; 1] [18; -18; 5; 0] [-1; 2; -3; 4] = Ok ct_twelve
  /\ encrypt wide_relin
       {| Plaintext.poly := [8; 0; 0; 0];
          Plaintext.params := scheme_params wide |}
       [1; 1; 0; -1] [-18; 18; 0; 1] [4; -3; 2; -1] = Ok ct_eight
  /\ multiply wide_relin ct_twelve ct_eight
     = Ok (Ciphertext.init
             [[11078649073; 13316882406; 470797932; 7472592132];
              [3051828421; 16799399728; 4332623511; 953547242];
              [10591752590; 17179494018; 639723567; 1646849174]]
             (scheme_params wide))
  /\ Spec.multiply 4 (q wide) (t wide)
       [563156355619404; 1604938246; 1125897190793281; 1975308607]
       [562948965766994; 562950076878098; 562950817618840; 1125899042645100]
       [136449202027; 28; 562949953421322; 123456786]
       [562951064532425; 1111111112; 562950941075640; 562949829964527]
     = [[621226204852082; 1053093787044286; 224816476251412; 56654086605449];
        [514409567857003; 113288120141198; 1012644762051359;
         700488432139677];
        [714969070782734; 579131927861790; 137546790774795; 80909891607629]]
  /\ exists r p,
      relinearize wide_relin
        (Ciphertext.init
           [[11078649073; 13316882406; 470797932; 7472592132];
            [3051828421; 16799399728; 4332623511; 953547242];
            [10591752590; 17179494018; 639723567; 1646849174]]
           (scheme_params wide)) = Ok r
      /\ decrypt wide_relin r = Ok p
      /\ decode wide_relin p 1 = Ok (DInt 15)
      /\ 1 < Z.abs (15 - 12 * 8).
Proof.
  do 8 (split; [vm_compute; reflexivity|]).
  do 2 eexists.
  split; [vm_compute; reflexivity|].
  split; [vm_compute; reflexivity|].
  split; [vm_compute; reflexivity|].
  vm_compute. reflexivity.
Qed.

End RoundingClaims.
